(** * The intelligent-scissors engine of dwv (src/math/scissors.js)

    A shallow embedding of the live-wire segmentation engine: the field
    preprocessor ([computeGreyscale], [computeGradient], [computeLaplace],
    [computeGradX], [computeGradY], [computeSides]), the cost function and its
    trainer ([dist], [doTraining]) and the resumable search ([setPoint],
    [doWork]), followed by the properties of the specification.

    JavaScript numbers are kept behind the interface [JSNumber].  The code is
    embedded once, over any implementation of the interface, and it is run on
    the IEEE-754 binary64 instance ([float64]); what depends on the arithmetic
    is proved on that instance, from the specification of the binary64
    operations. *)

From Stdlib Require Import ZArith Lia Bool List.
From Stdlib Require Import Floats.
From stdpp Require Import base option list gmap strings.

Local Open Scope Z_scope.

(** ** JavaScript numbers *)

Class JSNumber (num : Type) : Type := {
  of_Z : Z -> num;                 (* an integer literal or an integer variable *)
  ratio : Z -> Z -> num;           (* the decimal literal n/d, e.g. 0.43 = 43/100 *)
  NaN : num;
  MAX_VALUE : num;                 (* Number.MAX_VALUE *)
  PI : num;                        (* Math.PI *)
  SQRT1_2 : num;                   (* Math.SQRT1_2 *)
  TINY : num;                      (* the literal 1e-100 *)
  nadd : num -> num -> num;
  nsub : num -> num -> num;
  nmul : num -> num -> num;
  ndiv : num -> num -> num;
  nopp : num -> num;               (* unary minus *)
  nsqrt : num -> num;              (* Math.sqrt *)
  nacos : num -> num;              (* Math.acos *)
  nmax : num -> num -> num;        (* Math.max *)
  nmin : num -> num -> num;        (* Math.min *)
  nround : num -> num;             (* Math.round *)
  nltb : num -> num -> bool;       (* a < b *)
  neqb : num -> num -> bool;       (* a === b *)
  to_index : num -> option Z       (* the array index a number denotes, if any *)
}.

Declare Scope js_scope.
Delimit Scope js_scope with js.
Infix "⊕" := nadd (at level 50, left associativity) : js_scope.
Infix "⊖" := nsub (at level 50, left associativity) : js_scope.
Infix "⊗" := nmul (at level 40, left associativity) : js_scope.
Infix "⊘" := ndiv (at level 40, left associativity) : js_scope.
Infix "<#" := nltb (at level 70, no associativity) : js_scope.
Infix "=#" := neqb (at level 70, no associativity) : js_scope.
Local Open Scope js_scope.

(** ** Exceptions and results *)

Inductive exn : Type :=
  | TypeError                      (* a property read or written on undefined/null *)
  | RangeError                     (* an invalid array length *)
  | Error (msg : string).          (* throw new Error(msg) *)

Inductive res (A : Type) : Type :=
  | Ok (a : A)
  | Throw (e : exn).
Arguments Ok {A} a.
Arguments Throw {A} e.

Global Instance res_ret : MRet res := fun A a => Ok a.
Global Instance res_bind : MBind res := fun A B k m =>
  match m with
  | Ok a => k a
  | Throw e => Throw e
  end.

(** [defined o]: the value of a property access whose base must be defined. *)
Definition defined {A} (o : option A) : res A :=
  match o with
  | Some a => Ok a
  | None => Throw TypeError
  end.

(** ** Loops *)

(** [for (i = lo; i < hi; i++) body], with a body that may throw. *)
Fixpoint for_loop {S} (n : nat) (i : Z) (body : Z -> S -> res S) (s : S) : res S :=
  match n with
  | O => Ok s
  | S n' => s' ← body i s; for_loop n' (i + 1) body s'
  end.

Definition for_range {S} (lo hi : Z) (body : Z -> S -> res S) (s : S) : res S :=
  for_loop (Z.to_nat (hi - lo)) lo body s.

(** [for (i = 0; i < l.length; i++) body(l[i])] *)
Fixpoint for_list {A S} (l : list A) (body : A -> S -> res S) (s : S) : res S :=
  match l with
  | [] => Ok s
  | a :: l' => s' ← body a s; for_list l' body s'
  end.

(** The same loop with a body that cannot throw. *)
Fixpoint for_loop_pure {S} (n : nat) (i : Z) (body : Z -> S -> S) (s : S) : S :=
  match n with
  | O => s
  | S n' => for_loop_pure n' (i + 1) body (body i s)
  end.

Definition for_pure {S} (lo hi : Z) (body : Z -> S -> S) (s : S) : S :=
  for_loop_pure (Z.to_nat (hi - lo)) lo body s.

(** ** JavaScript arrays

    An array is its integer-keyed properties and its [length].  A cell that
    holds [undefined] and a hole read the same ([None]); writing at or past
    [length] extends the array, writing at a negative key sets a property and
    leaves [length] alone. *)

Record jsarray (V : Type) : Type := JSArray {
  elems : gmap Z V;
  alen : Z
}.
Arguments JSArray {V} _ _.
Arguments elems {V} _.
Arguments alen {V} _.

Definition arr_empty {V} : jsarray V := JSArray ∅ 0.

Definition arr_get {V} (a : jsarray V) (i : Z) : option V := elems a !! i.

Definition arr_put {V} (a : jsarray V) (i : Z) (v : option V) : jsarray V :=
  JSArray
    (match v with
     | Some x => <[i := x]> (elems a)
     | None => delete i (elems a)
     end)
    (if 0 <=? i then Z.max (alen a) (i + 1) else alen a).

(** [a.length = n] *)
Definition arr_set_length {V} (a : jsarray V) (n : Z) : res (jsarray V) :=
  if n <? 0 then Throw RangeError
  else Ok (JSArray (filter (fun kv => fst kv < n) (elems a)) n).

Definition matrix (V : Type) : Type := jsarray (jsarray V).

(** [m[y][x]] *)
Definition mat_get {V} (m : matrix V) (y x : Z) : res (option V) :=
  row ← defined (arr_get m y); Ok (arr_get row x).

(** [m[y][x] = v] *)
Definition mat_put {V} (m : matrix V) (y x : Z) (v : option V) : res (matrix V) :=
  row ← defined (arr_get m y); Ok (arr_put m y (Some (arr_put row x v))).

(** [m[k][x]] where the key [k] is a number *)
Definition arr_get_num {num} `{JSNumber num} {V} (a : jsarray V) (k : num) : option V :=
  match to_index k with
  | Some i => arr_get a i
  | None => None
  end.

(** [data[p]] on the pixel buffer *)
Definition data_get (data : list Z) (p : Z) : option Z :=
  if p <? 0 then None else data !! Z.to_nat p.

Record Point : Type := mkPoint { px : Z; py : Z }.

Global Instance Point_eq_dec : EqDecision Point.
Proof. solve_decision. Defined.

(** * The engine, over any implementation of JavaScript numbers *)

Section Engine.
Context {num : Type} {N : JSNumber num}.

(** ToNumber of a cell: [undefined] converts to [NaN]. *)
Definition ToNumber (v : option num) : num := default NaN v.

(** A 2D array of numbers, indexed [field[y][x]]. *)
Definition field : Type := matrix num.

(** ** Field preprocessor *)

Definition computeGreyscale (data : list Z) (width height : Z) : res field :=
  for_range 0 height (fun y greyscale =>
    let greyscale := arr_put greyscale y (Some arr_empty) in
    for_range 0 width (fun x greyscale =>
      let p := (y * width + x) * 4 in
      let d i := ToNumber (of_Z <$> data_get data i) in
      mat_put greyscale y x
        (Some ((d p ⊕ d (p + 1) ⊕ d (p + 2)) ⊘ (of_Z 3 ⊗ of_Z 255))))
      greyscale)
    arr_empty.

(** [greyscale.dx(x, y)] *)
Definition greyscale_dx (this : field) (x y : Z) : res num :=
  row ← defined (arr_get this y);
  let x := if x + 1 =? alen row then x - 1 else x in
  Ok (ToNumber (arr_get row (x + 1)) ⊖ ToNumber (arr_get row x)).

(** [greyscale.dy(x, y)] *)
Definition greyscale_dy (this : field) (x y : Z) : res num :=
  let y := if y + 1 =? alen this then y - 1 else y in
  a ← mat_get this y x;
  b ← mat_get this (y + 1) x;
  Ok (ToNumber a ⊖ ToNumber b).

(** [greyscale.gradMagnitude(x, y)] *)
Definition greyscale_gradMagnitude (this : field) (x y : Z) : res num :=
  dx ← greyscale_dx this x y;
  dy ← greyscale_dy this x y;
  Ok (nsqrt (dx ⊗ dx ⊕ dy ⊗ dy)).

(** [greyscale.laplace(x, y)]: the 13-tap stencil *)
Definition greyscale_laplace (this : field) (x y : Z) : res num :=
  let rd y x := v ← mat_get this y x; Ok (ToNumber v) in
  c ← rd y x;
  let lap := of_Z (-16) ⊗ c in
  n2 ← rd (y - 2) x;
  let lap := lap ⊕ n2 in
  a ← rd (y - 1) (x - 1); b ← rd (y - 1) x; c ← rd (y - 1) (x + 1);
  let lap := lap ⊕ (a ⊕ of_Z 2 ⊗ b ⊕ c) in
  a ← rd y (x - 2); b ← rd y (x - 1); c ← rd y (x + 1); d ← rd y (x + 2);
  let lap := lap ⊕ (a ⊕ of_Z 2 ⊗ b ⊕ of_Z 2 ⊗ c ⊕ d) in
  a ← rd (y + 1) (x - 1); b ← rd (y + 1) x; c ← rd (y + 1) (x + 1);
  let lap := lap ⊕ (a ⊕ of_Z 2 ⊗ b ⊕ c) in
  s2 ← rd (y + 2) x;
  Ok (lap ⊕ s2).

(** [greyscale[y].length] *)
Definition row_length {V} (m : matrix V) (y : Z) : res Z :=
  row ← defined (arr_get m y); Ok (alen row).

Definition computeGradient (greyscale : field) : res field :=
  let glen := alen greyscale in
  (* gradient magnitudes, with the running maximum *)
  '(gradient, max) ← for_range 0 (glen - 1) (fun y '(gradient, max) =>
    let gradient := arr_put gradient y (Some arr_empty) in
    w ← row_length greyscale y;
    '(gradient, max) ← for_range 0 (w - 1) (fun x '(gradient, max) =>
      g ← greyscale_gradMagnitude greyscale x y;
      gradient ← mat_put gradient y x (Some g);
      v ← mat_get gradient y x;
      Ok (gradient, nmax (ToNumber v) max))
      (gradient, max);
    w ← row_length greyscale y;
    v ← mat_get gradient y (glen - 2);
    gradient ← mat_put gradient y (w - 1) v;
    Ok (gradient, max))
    (arr_empty, of_Z 0);
  let gradient := arr_put gradient (glen - 1) (Some arr_empty) in
  w0 ← row_length gradient 0;
  gradient ← for_range 0 w0 (fun i gradient =>
    v ← mat_get gradient (glen - 2) i;
    mat_put gradient (glen - 1) i v)
    gradient;
  (* flip and scale *)
  for_range 0 (alen gradient) (fun y gradient =>
    w ← row_length gradient y;
    for_range 0 w (fun x gradient =>
      v ← mat_get gradient y x;
      mat_put gradient y x (Some (of_Z 1 ⊖ (ToNumber v ⊘ max))))
      gradient)
    gradient.

Definition computeLaplace (greyscale : field) : res field :=
  let glen := alen greyscale in
  let one := Some (of_Z 1) in
  let laplace := arr_put arr_empty 0 (Some arr_empty) in
  let laplace := arr_put laplace 1 (Some arr_empty) in
  (* pad top *)
  laplace ← for_range 1 glen (fun i laplace =>
    laplace ← mat_put laplace 0 i one;
    mat_put laplace 1 i one)
    laplace;
  laplace ← for_range 2 (glen - 2) (fun y laplace =>
    let laplace := arr_put laplace y (Some arr_empty) in
    (* pad left *)
    laplace ← mat_put laplace y 0 one;
    laplace ← mat_put laplace y 1 one;
    w ← row_length greyscale y;
    laplace ← for_range 2 (w - 2) (fun x laplace =>
      lap ← greyscale_laplace greyscale x y;
      mat_put laplace y x
        (Some (if ratio 33 100 <# lap then of_Z 0 else of_Z 1)))
      laplace;
    (* pad right *)
    w ← row_length greyscale y;
    laplace ← mat_put laplace y (w - 2) one;
    w ← row_length greyscale y;
    mat_put laplace y (w - 1) one)
    laplace;
  let laplace := arr_put laplace (glen - 2) (Some arr_empty) in
  let laplace := arr_put laplace (glen - 1) (Some arr_empty) in
  (* pad bottom *)
  for_range 1 glen (fun j laplace =>
    laplace ← mat_put laplace (glen - 2) j one;
    mat_put laplace (glen - 1) j one)
    laplace.

Definition computeGradX (greyscale : field) : res field :=
  for_range 0 (alen greyscale) (fun y gradX =>
    let gradX := arr_put gradX y (Some arr_empty) in
    w ← row_length greyscale y;
    gradX ← for_range 0 (w - 1) (fun x gradX =>
      d ← greyscale_dx greyscale x y;
      mat_put gradX y x (Some d))
      gradX;
    w ← row_length greyscale y;
    v ← mat_get gradX y (w - 2);
    mat_put gradX y (w - 1) v)
    arr_empty.

Definition computeGradY (greyscale : field) : res field :=
  let glen := alen greyscale in
  gradY ← for_range 0 (glen - 1) (fun y gradY =>
    let gradY := arr_put gradY y (Some arr_empty) in
    w ← row_length greyscale y;
    for_range 0 w (fun x gradY =>
      d ← greyscale_dy greyscale x y;
      mat_put gradY y x (Some d))
      gradY)
    arr_empty;
  let gradY := arr_put gradY (glen - 1) (Some arr_empty) in
  w0 ← row_length greyscale 0;
  for_range 0 w0 (fun i gradY =>
    v ← mat_get gradY (glen - 2) i;
    mat_put gradY (glen - 1) i v)
    gradY.

(** [gradUnitVector(gradX, gradY, px, py, out)]: the pair written to [out]. *)
Definition gradUnitVector (gradX gradY : field) (px py : Z) : res (num * num) :=
  ox ← mat_get gradX py px;
  oy ← mat_get gradY py px;
  let ox := ToNumber ox in
  let oy := ToNumber oy in
  let gvm := nsqrt (ox ⊗ ox ⊕ oy ⊗ oy) in
  let gvm := nmax gvm TINY in
  Ok (ox ⊘ gvm, oy ⊘ gvm).

Definition twothirdpi : num := of_Z 2 ⊘ (of_Z 3 ⊗ PI).

Definition gradDirection (gradX gradY : field) (px py qx qy : Z) : res num :=
  '(dgpuv_x, dgpuv_y) ← gradUnitVector gradX gradY px py;
  '(gdquv_x, gdquv_y) ← gradUnitVector gradX gradY qx qy;
  let dp := dgpuv_y ⊗ of_Z (qx - px) ⊖ dgpuv_x ⊗ of_Z (qy - py) in
  let dq := gdquv_y ⊗ of_Z (qx - px) ⊖ gdquv_x ⊗ of_Z (qy - py) in
  let '(dp, dq) := if dp <# of_Z 0 then (nopp dp, nopp dq) else (dp, dq) in
  let '(dp, dq) :=
    if negb (px =? qx) && negb (py =? qy)
    then (dp ⊗ SQRT1_2, dq ⊗ SQRT1_2) else (dp, dq) in
  Ok (twothirdpi ⊗ (nacos dp ⊕ nacos dq)).

(** [computeSides(dist, gradX, gradY, greyscale)]: the pair (inside, outside). *)
Definition computeSides (dist : Z) (gradX gradY greyscale : field)
  : res (field * field) :=
  for_range 0 (alen gradX) (fun y '(inside, outside) =>
    let inside := arr_put inside y (Some arr_empty) in
    let outside := arr_put outside y (Some arr_empty) in
    w ← row_length gradX y;
    for_range 0 w (fun x '(inside, outside) =>
      '(guv_x, guv_y) ← gradUnitVector gradX gradY x y;
      let ix := nround (of_Z x ⊕ of_Z dist ⊗ guv_y) in
      let iy := nround (of_Z y ⊖ of_Z dist ⊗ guv_x) in
      let ox := nround (of_Z x ⊖ of_Z dist ⊗ guv_y) in
      let oy := nround (of_Z y ⊕ of_Z dist ⊗ guv_x) in
      w ← row_length gradX y;
      let ix := nmax (nmin ix (of_Z (w - 1))) (of_Z 0) in
      let ox := nmax (nmin ox (of_Z (w - 1))) (of_Z 0) in
      let iy := nmax (nmin iy (of_Z (alen gradX - 1))) (of_Z 0) in
      let oy := nmax (nmin oy (of_Z (alen gradX - 1))) (of_Z 0) in
      irow ← defined (arr_get_num greyscale iy);
      inside ← mat_put inside y x (arr_get_num irow ix);
      orow ← defined (arr_get_num greyscale oy);
      outside ← mat_put outside y x (arr_get_num orow ox);
      Ok (inside, outside))
      (inside, outside))
    (arr_empty, arr_empty).

(** [gaussianBlur(buffer, out)]: the array [out] after the call. *)
Definition gaussianBlur (buffer out : jsarray num) : jsarray num :=
  let b i := ToNumber (arr_get buffer i) in
  let c n d := ratio n d in
  let out := arr_put out 0
    (Some (c 4 10 ⊗ b 0 ⊕ c 5 10 ⊗ b 1 ⊕ c 1 10 ⊗ b 1)) in
  let out := arr_put out 1
    (Some (c 25 100 ⊗ b 0 ⊕ c 4 10 ⊗ b 1 ⊕ c 25 100 ⊗ b 2 ⊕ c 1 10 ⊗ b 3)) in
  let len := alen buffer in
  let out := for_pure 2 (len - 2) (fun i out =>
    arr_put out i
      (Some (c 5 100 ⊗ b (i - 2) ⊕ c 25 100 ⊗ b (i - 1) ⊕ c 4 10 ⊗ b i
             ⊕ c 25 100 ⊗ b (i + 1) ⊕ c 5 100 ⊗ b (i + 2))))
    out in
  let out := arr_put out (len - 2)
    (Some (c 25 100 ⊗ b (len - 1) ⊕ c 4 10 ⊗ b (len - 2)
           ⊕ c 25 100 ⊗ b (len - 3) ⊕ c 1 10 ⊗ b (len - 4))) in
  arr_put out (len - 1)
    (Some (c 4 10 ⊗ b (len - 1) ⊕ c 5 10 ⊗ b (len - 2) ⊕ c 1 10 ⊗ b (len - 3))).


(** ** The bucket queue

    src/math/bucketQueue.js is not part of the sources at hand; the queue is
    modelled from section 3 and section 4.2 of the specification.  The cost
    closure handed to it, and the two properties [searchGran] and [costArr]
    set on it, are those of [Scissors.setPoint]. *)

(** Modelled from the spec: the class BucketQueue (src/math/bucketQueue.js is
    missing).  An array of 2^bits buckets, each a FIFO list of pending pixels. *)
Record BucketQueue : Type := mkBucketQueue {
  bq_bits : Z;
  buckets : list (list Point);
  loc : nat;                       (* the bucket index of the last pop *)
  pq_searchGran : option Z         (* this.pq.searchGran, set by setPoint *)
}.

(** Modelled from the spec: the constructor of BucketQueue (missing), with
    2^bits empty buckets and the scan starting at bucket 0. *)
Definition BucketQueue_new (bits : Z) : BucketQueue :=
  mkBucketQueue bits (replicate (Z.to_nat (2 ^ bits)) []) 0 None.

(** The cost closure of [setPoint]:
    [function (p) { return Math.round(this.searchGran * this.costArr[p.y][p.x]); }]
    where [this.costArr] is the engine's live [cost] matrix. *)
Definition pq_cost (q : BucketQueue) (costArr : field) (p : Point) : res num :=
  c ← mat_get costArr (py p) (px p);
  Ok (nround (ToNumber (of_Z <$> pq_searchGran q) ⊗ ToNumber c)).

(** Modelled from the spec: the bucket of an item (BucketQueue.getBucket is
    missing), the quantized cost modulo the number of buckets; a cost that is
    no integer selects bucket 0. *)
Definition getBucket (q : BucketQueue) (costArr : field) (p : Point) : res nat :=
  c ← pq_cost q costArr p;
  Ok (Z.to_nat (default 0 (to_index c) mod 2 ^ bq_bits q)).

(** Modelled from the spec: BucketQueue.push (missing) appends the item to its
    bucket, so that a bucket is served first in, first out. *)
Definition pq_push (q : BucketQueue) (costArr : field) (p : Point) : res BucketQueue :=
  b ← getBucket q costArr p;
  Ok (mkBucketQueue (bq_bits q) (alter (fun l => l ++ [p]) b (buckets q))
        (loc q) (pq_searchGran q)).

(** Modelled from the spec: BucketQueue.isEmpty (missing). *)
Definition pq_isEmpty (q : BucketQueue) : bool :=
  forallb (fun l => match l with [] => true | _ => false end) (buckets q).

(** Modelled from the spec: the rotating scan of BucketQueue.pop (missing),
    forward from the last dequeued bucket to the first bucket that is not
    empty. *)
Fixpoint pq_scan (fuel : nat) (bs : list (list Point)) (i : nat) : option nat :=
  match fuel with
  | O => None
  | S fuel' =>
      match bs !! i with
      | Some (_ :: _) => Some i
      | _ => pq_scan fuel' bs (Nat.modulo (i + 1) (length bs))
      end
  end.

(** Modelled from the spec: BucketQueue.pop (missing) removes and returns the
    oldest item of the bucket the scan stops at, and fails on an empty queue. *)
Definition pq_pop (q : BucketQueue) : res (Point * BucketQueue) :=
  match pq_scan (length (buckets q)) (buckets q) (loc q) with
  | Some i =>
      match buckets q !! i with
      | Some (p :: l) =>
          Ok (p, mkBucketQueue (bq_bits q) (<[i := l]> (buckets q)) i (pq_searchGran q))
      | _ => Throw (Error "Cannot pop, bucketQueue is empty.")
      end
  | None => Throw (Error "Cannot pop, bucketQueue is empty.")
  end.

(** Modelled from the spec: the list operation of BucketQueue.remove (missing),
    the first occurrence of [p] taken out of a bucket. *)
Fixpoint remove_first (p : Point) (l : list Point) : list Point :=
  match l with
  | [] => []
  | x :: l' => if decide (x = p) then l' else x :: remove_first p l'
  end.

(** Modelled from the spec: BucketQueue.remove (missing) takes the item out of
    its bucket and does nothing when the item is not there. *)
Definition pq_remove (q : BucketQueue) (costArr : field) (p : Point) : res BucketQueue :=
  b ← getBucket q costArr p;
  Ok (mkBucketQueue (bq_bits q) (alter (remove_first p) b (buckets q))
        (loc q) (pq_searchGran q)).

(** ** The state of a Scissors object *)

Record Scissors : Type := mkScissors {
  width : Z;
  height : Z;
  curPoint : option Point;  (* null until setPoint *)
  searchGranBits : Z;
  searchGran : Z;
  pointsPerPost : Z;
  greyscale : option field;
  laplace : option field;
  gradient : option field;
  gradX : option field;
  gradY : option field;
  parents : option (matrix Point);
  working : bool;
  trained : bool;
  trainingPoints : option (list Point);
  edgeWidth : Z;
  trainingLength : Z;
  edgeGran : Z;
  edgeTraining : option (jsarray num);
  gradPointsNeeded : Z;
  gradGran : Z;
  gradTraining : option (jsarray num);
  insideGran : Z;
  insideTraining : option (jsarray num);
  outsideGran : Z;
  outsideTraining : option (jsarray num);
  inside : option field;  (* created by setData *)
  outside : option field;
  visited : option (matrix bool);  (* created by setPoint *)
  cost : option field;
  pq : option BucketQueue;
  timeout : option unit  (* set to null by doWork *)
}.

(** [this.f = v], one setter for each property a method assigns. *)
Definition set_width (v : Z) (s : Scissors) : Scissors :=
  mkScissors v (height s) (curPoint s) (searchGranBits s) (searchGran s)
    (pointsPerPost s) (greyscale s) (laplace s) (gradient s) (gradX s)
    (gradY s) (parents s) (working s) (trained s) (trainingPoints s)
    (edgeWidth s) (trainingLength s) (edgeGran s) (edgeTraining s)
    (gradPointsNeeded s) (gradGran s) (gradTraining s) (insideGran s)
    (insideTraining s) (outsideGran s) (outsideTraining s) (inside s)
    (outside s) (visited s) (cost s) (pq s) (timeout s).
Definition set_height (v : Z) (s : Scissors) : Scissors :=
  mkScissors (width s) v (curPoint s) (searchGranBits s) (searchGran s)
    (pointsPerPost s) (greyscale s) (laplace s) (gradient s) (gradX s)
    (gradY s) (parents s) (working s) (trained s) (trainingPoints s)
    (edgeWidth s) (trainingLength s) (edgeGran s) (edgeTraining s)
    (gradPointsNeeded s) (gradGran s) (gradTraining s) (insideGran s)
    (insideTraining s) (outsideGran s) (outsideTraining s) (inside s)
    (outside s) (visited s) (cost s) (pq s) (timeout s).
Definition set_curPoint (v : option Point) (s : Scissors) : Scissors :=
  mkScissors (width s) (height s) v (searchGranBits s) (searchGran s)
    (pointsPerPost s) (greyscale s) (laplace s) (gradient s) (gradX s)
    (gradY s) (parents s) (working s) (trained s) (trainingPoints s)
    (edgeWidth s) (trainingLength s) (edgeGran s) (edgeTraining s)
    (gradPointsNeeded s) (gradGran s) (gradTraining s) (insideGran s)
    (insideTraining s) (outsideGran s) (outsideTraining s) (inside s)
    (outside s) (visited s) (cost s) (pq s) (timeout s).
Definition set_greyscale (v : option field) (s : Scissors) : Scissors :=
  mkScissors (width s) (height s) (curPoint s) (searchGranBits s)
    (searchGran s) (pointsPerPost s) v (laplace s) (gradient s) (gradX s)
    (gradY s) (parents s) (working s) (trained s) (trainingPoints s)
    (edgeWidth s) (trainingLength s) (edgeGran s) (edgeTraining s)
    (gradPointsNeeded s) (gradGran s) (gradTraining s) (insideGran s)
    (insideTraining s) (outsideGran s) (outsideTraining s) (inside s)
    (outside s) (visited s) (cost s) (pq s) (timeout s).
Definition set_laplace (v : option field) (s : Scissors) : Scissors :=
  mkScissors (width s) (height s) (curPoint s) (searchGranBits s)
    (searchGran s) (pointsPerPost s) (greyscale s) v (gradient s) (gradX s)
    (gradY s) (parents s) (working s) (trained s) (trainingPoints s)
    (edgeWidth s) (trainingLength s) (edgeGran s) (edgeTraining s)
    (gradPointsNeeded s) (gradGran s) (gradTraining s) (insideGran s)
    (insideTraining s) (outsideGran s) (outsideTraining s) (inside s)
    (outside s) (visited s) (cost s) (pq s) (timeout s).
Definition set_gradient (v : option field) (s : Scissors) : Scissors :=
  mkScissors (width s) (height s) (curPoint s) (searchGranBits s)
    (searchGran s) (pointsPerPost s) (greyscale s) (laplace s) v (gradX s)
    (gradY s) (parents s) (working s) (trained s) (trainingPoints s)
    (edgeWidth s) (trainingLength s) (edgeGran s) (edgeTraining s)
    (gradPointsNeeded s) (gradGran s) (gradTraining s) (insideGran s)
    (insideTraining s) (outsideGran s) (outsideTraining s) (inside s)
    (outside s) (visited s) (cost s) (pq s) (timeout s).
Definition set_gradX (v : option field) (s : Scissors) : Scissors :=
  mkScissors (width s) (height s) (curPoint s) (searchGranBits s)
    (searchGran s) (pointsPerPost s) (greyscale s) (laplace s) (gradient s) v
    (gradY s) (parents s) (working s) (trained s) (trainingPoints s)
    (edgeWidth s) (trainingLength s) (edgeGran s) (edgeTraining s)
    (gradPointsNeeded s) (gradGran s) (gradTraining s) (insideGran s)
    (insideTraining s) (outsideGran s) (outsideTraining s) (inside s)
    (outside s) (visited s) (cost s) (pq s) (timeout s).
Definition set_gradY (v : option field) (s : Scissors) : Scissors :=
  mkScissors (width s) (height s) (curPoint s) (searchGranBits s)
    (searchGran s) (pointsPerPost s) (greyscale s) (laplace s) (gradient s)
    (gradX s) v (parents s) (working s) (trained s) (trainingPoints s)
    (edgeWidth s) (trainingLength s) (edgeGran s) (edgeTraining s)
    (gradPointsNeeded s) (gradGran s) (gradTraining s) (insideGran s)
    (insideTraining s) (outsideGran s) (outsideTraining s) (inside s)
    (outside s) (visited s) (cost s) (pq s) (timeout s).
Definition set_parents (v : option (matrix Point)) (s : Scissors) : Scissors :=
  mkScissors (width s) (height s) (curPoint s) (searchGranBits s)
    (searchGran s) (pointsPerPost s) (greyscale s) (laplace s) (gradient s)
    (gradX s) (gradY s) v (working s) (trained s) (trainingPoints s)
    (edgeWidth s) (trainingLength s) (edgeGran s) (edgeTraining s)
    (gradPointsNeeded s) (gradGran s) (gradTraining s) (insideGran s)
    (insideTraining s) (outsideGran s) (outsideTraining s) (inside s)
    (outside s) (visited s) (cost s) (pq s) (timeout s).
Definition set_working (v : bool) (s : Scissors) : Scissors :=
  mkScissors (width s) (height s) (curPoint s) (searchGranBits s)
    (searchGran s) (pointsPerPost s) (greyscale s) (laplace s) (gradient s)
    (gradX s) (gradY s) (parents s) v (trained s) (trainingPoints s)
    (edgeWidth s) (trainingLength s) (edgeGran s) (edgeTraining s)
    (gradPointsNeeded s) (gradGran s) (gradTraining s) (insideGran s)
    (insideTraining s) (outsideGran s) (outsideTraining s) (inside s)
    (outside s) (visited s) (cost s) (pq s) (timeout s).
Definition set_trained (v : bool) (s : Scissors) : Scissors :=
  mkScissors (width s) (height s) (curPoint s) (searchGranBits s)
    (searchGran s) (pointsPerPost s) (greyscale s) (laplace s) (gradient s)
    (gradX s) (gradY s) (parents s) (working s) v (trainingPoints s)
    (edgeWidth s) (trainingLength s) (edgeGran s) (edgeTraining s)
    (gradPointsNeeded s) (gradGran s) (gradTraining s) (insideGran s)
    (insideTraining s) (outsideGran s) (outsideTraining s) (inside s)
    (outside s) (visited s) (cost s) (pq s) (timeout s).
Definition set_trainingPoints (v : option (list Point)) (s : Scissors) : Scissors :=
  mkScissors (width s) (height s) (curPoint s) (searchGranBits s)
    (searchGran s) (pointsPerPost s) (greyscale s) (laplace s) (gradient s)
    (gradX s) (gradY s) (parents s) (working s) (trained s) v (edgeWidth s)
    (trainingLength s) (edgeGran s) (edgeTraining s) (gradPointsNeeded s)
    (gradGran s) (gradTraining s) (insideGran s) (insideTraining s)
    (outsideGran s) (outsideTraining s) (inside s) (outside s) (visited s)
    (cost s) (pq s) (timeout s).
Definition set_edgeTraining (v : option (jsarray num)) (s : Scissors) : Scissors :=
  mkScissors (width s) (height s) (curPoint s) (searchGranBits s)
    (searchGran s) (pointsPerPost s) (greyscale s) (laplace s) (gradient s)
    (gradX s) (gradY s) (parents s) (working s) (trained s) (trainingPoints s)
    (edgeWidth s) (trainingLength s) (edgeGran s) v (gradPointsNeeded s)
    (gradGran s) (gradTraining s) (insideGran s) (insideTraining s)
    (outsideGran s) (outsideTraining s) (inside s) (outside s) (visited s)
    (cost s) (pq s) (timeout s).
Definition set_gradTraining (v : option (jsarray num)) (s : Scissors) : Scissors :=
  mkScissors (width s) (height s) (curPoint s) (searchGranBits s)
    (searchGran s) (pointsPerPost s) (greyscale s) (laplace s) (gradient s)
    (gradX s) (gradY s) (parents s) (working s) (trained s) (trainingPoints s)
    (edgeWidth s) (trainingLength s) (edgeGran s) (edgeTraining s)
    (gradPointsNeeded s) (gradGran s) v (insideGran s) (insideTraining s)
    (outsideGran s) (outsideTraining s) (inside s) (outside s) (visited s)
    (cost s) (pq s) (timeout s).
Definition set_insideTraining (v : option (jsarray num)) (s : Scissors) : Scissors :=
  mkScissors (width s) (height s) (curPoint s) (searchGranBits s)
    (searchGran s) (pointsPerPost s) (greyscale s) (laplace s) (gradient s)
    (gradX s) (gradY s) (parents s) (working s) (trained s) (trainingPoints s)
    (edgeWidth s) (trainingLength s) (edgeGran s) (edgeTraining s)
    (gradPointsNeeded s) (gradGran s) (gradTraining s) (insideGran s) v
    (outsideGran s) (outsideTraining s) (inside s) (outside s) (visited s)
    (cost s) (pq s) (timeout s).
Definition set_outsideTraining (v : option (jsarray num)) (s : Scissors) : Scissors :=
  mkScissors (width s) (height s) (curPoint s) (searchGranBits s)
    (searchGran s) (pointsPerPost s) (greyscale s) (laplace s) (gradient s)
    (gradX s) (gradY s) (parents s) (working s) (trained s) (trainingPoints s)
    (edgeWidth s) (trainingLength s) (edgeGran s) (edgeTraining s)
    (gradPointsNeeded s) (gradGran s) (gradTraining s) (insideGran s)
    (insideTraining s) (outsideGran s) v (inside s) (outside s) (visited s)
    (cost s) (pq s) (timeout s).
Definition set_inside (v : option field) (s : Scissors) : Scissors :=
  mkScissors (width s) (height s) (curPoint s) (searchGranBits s)
    (searchGran s) (pointsPerPost s) (greyscale s) (laplace s) (gradient s)
    (gradX s) (gradY s) (parents s) (working s) (trained s) (trainingPoints s)
    (edgeWidth s) (trainingLength s) (edgeGran s) (edgeTraining s)
    (gradPointsNeeded s) (gradGran s) (gradTraining s) (insideGran s)
    (insideTraining s) (outsideGran s) (outsideTraining s) v (outside s)
    (visited s) (cost s) (pq s) (timeout s).
Definition set_outside (v : option field) (s : Scissors) : Scissors :=
  mkScissors (width s) (height s) (curPoint s) (searchGranBits s)
    (searchGran s) (pointsPerPost s) (greyscale s) (laplace s) (gradient s)
    (gradX s) (gradY s) (parents s) (working s) (trained s) (trainingPoints s)
    (edgeWidth s) (trainingLength s) (edgeGran s) (edgeTraining s)
    (gradPointsNeeded s) (gradGran s) (gradTraining s) (insideGran s)
    (insideTraining s) (outsideGran s) (outsideTraining s) (inside s) v
    (visited s) (cost s) (pq s) (timeout s).
Definition set_visited (v : option (matrix bool)) (s : Scissors) : Scissors :=
  mkScissors (width s) (height s) (curPoint s) (searchGranBits s)
    (searchGran s) (pointsPerPost s) (greyscale s) (laplace s) (gradient s)
    (gradX s) (gradY s) (parents s) (working s) (trained s) (trainingPoints s)
    (edgeWidth s) (trainingLength s) (edgeGran s) (edgeTraining s)
    (gradPointsNeeded s) (gradGran s) (gradTraining s) (insideGran s)
    (insideTraining s) (outsideGran s) (outsideTraining s) (inside s)
    (outside s) v (cost s) (pq s) (timeout s).
Definition set_cost (v : option field) (s : Scissors) : Scissors :=
  mkScissors (width s) (height s) (curPoint s) (searchGranBits s)
    (searchGran s) (pointsPerPost s) (greyscale s) (laplace s) (gradient s)
    (gradX s) (gradY s) (parents s) (working s) (trained s) (trainingPoints s)
    (edgeWidth s) (trainingLength s) (edgeGran s) (edgeTraining s)
    (gradPointsNeeded s) (gradGran s) (gradTraining s) (insideGran s)
    (insideTraining s) (outsideGran s) (outsideTraining s) (inside s)
    (outside s) (visited s) v (pq s) (timeout s).
Definition set_pq (v : option BucketQueue) (s : Scissors) : Scissors :=
  mkScissors (width s) (height s) (curPoint s) (searchGranBits s)
    (searchGran s) (pointsPerPost s) (greyscale s) (laplace s) (gradient s)
    (gradX s) (gradY s) (parents s) (working s) (trained s) (trainingPoints s)
    (edgeWidth s) (trainingLength s) (edgeGran s) (edgeTraining s)
    (gradPointsNeeded s) (gradGran s) (gradTraining s) (insideGran s)
    (insideTraining s) (outsideGran s) (outsideTraining s) (inside s)
    (outside s) (visited s) (cost s) v (timeout s).
Definition set_timeout (v : option unit) (s : Scissors) : Scissors :=
  mkScissors (width s) (height s) (curPoint s) (searchGranBits s)
    (searchGran s) (pointsPerPost s) (greyscale s) (laplace s) (gradient s)
    (gradX s) (gradY s) (parents s) (working s) (trained s) (trainingPoints s)
    (edgeWidth s) (trainingLength s) (edgeGran s) (edgeTraining s)
    (gradPointsNeeded s) (gradGran s) (gradTraining s) (insideGran s)
    (insideTraining s) (outsideGran s) (outsideTraining s) (inside s)
    (outside s) (visited s) (cost s) (pq s) v.

(** ** Methods: state and exceptions

    A method is a function from the object's state to a result and the state
    it leaves; a thrown exception keeps the assignments made before it. *)

Definition M (A : Type) : Type := Scissors -> res A * Scissors.

Global Instance M_ret : MRet M := fun A a s => (Ok a, s).
Global Instance M_bind : MBind M := fun A B k m s =>
  match m s with
  | (Ok a, s') => k a s'
  | (Throw e, s') => (Throw e, s')
  end.

Definition get : M Scissors := fun s => (Ok s, s).
Definition modify (f : Scissors -> Scissors) : M unit := fun s => (Ok tt, f s).
Definition lift {A} (r : res A) : M A := fun s => (r, s).
Definition throw {A} (e : exn) : M A := lift (Throw e).

(** Iteration of a method over the elements of an array. *)
Fixpoint for_each {A} (l : list A) (body : A -> M unit) : M unit :=
  match l with
  | [] => mret tt
  | a :: l' => body a;; for_each l' body
  end.

(** *** The constructor *)

Definition ToInt32 (z : Z) : Z :=
  let m := z mod 2 ^ 32 in if 2 ^ 31 <=? m then m - 2 ^ 32 else m.

(** [a << b] on integers; an [undefined] right operand converts to 0. *)
Definition js_shl (a : Z) (b : option Z) : Z :=
  ToInt32 (Z.shiftl (ToInt32 a) (default 0 b mod 2 ^ 32 mod 32)).

(** The numeric properties the constructor assigns, in its order; a property
    that was never assigned reads as [undefined] ([None]). *)
Definition constructor_props : gmap string Z :=
  let this : gmap string Z := ∅ in
  let this := <["width" := -1]> this in
  let this := <["height" := -1]> this in
  let this := <["searchGranBits" := 8]> this in
  let this := <["searchGran" := js_shl 1 (this !! "earchGranBits")]> this in
  let this := <["pointsPerPost" := 500]> this in
  let this := <["edgeWidth" := 2]> this in
  let this := <["trainingLength" := 32]> this in
  let this := <["edgeGran" := 256]> this in
  let this := <["gradPointsNeeded" := 32]> this in
  let this := <["gradGran" := 1024]> this in
  let this := <["insideGran" := 256]> this in
  let this := <["outsideGran" := 256]> this in
  this.

(** [new Scissors()] *)
Definition Scissors_new : Scissors :=
  let prop k := default 0 (constructor_props !! k) in
  {| width := prop "width";
     height := prop "height";
     curPoint := None;
     searchGranBits := prop "searchGranBits";
     searchGran := prop "searchGran";
     pointsPerPost := prop "pointsPerPost";
     greyscale := None;
     laplace := None;
     gradient := None;
     gradX := None;
     gradY := None;
     parents := None;
     working := false;
     trained := false;
     trainingPoints := None;
     edgeWidth := prop "edgeWidth";
     trainingLength := prop "trainingLength";
     edgeGran := prop "edgeGran";
     edgeTraining := None;
     gradPointsNeeded := prop "gradPointsNeeded";
     gradGran := prop "gradGran";
     gradTraining := None;
     insideGran := prop "insideGran";
     insideTraining := None;
     outsideGran := prop "outsideGran";
     outsideTraining := None;
     inside := None;
     outside := None;
     visited := None;
     cost := None;
     pq := None;
     timeout := None |}.

(** *** Training *)

Definition getTrainingIdx (granularity : Z) (value : num) : num :=
  nround (of_Z (granularity - 1) ⊗ value).

(** [table[this.getTrainingIdx(gran, v)]] on one of the four trained tables *)
Definition getTrained (table : option (jsarray num)) (gran : Z) (v : num)
  : res (option num) :=
  t ← defined table; Ok (arr_get_num t (getTrainingIdx gran v)).

Definition getTrainedEdge (s : Scissors) (edge : num) : res (option num) :=
  getTrained (edgeTraining s) (edgeGran s) edge.
Definition getTrainedGrad (s : Scissors) (grad : num) : res (option num) :=
  getTrained (gradTraining s) (gradGran s) grad.
Definition getTrainedInside (s : Scissors) (inside : num) : res (option num) :=
  getTrained (insideTraining s) (insideGran s) inside.
Definition getTrainedOutside (s : Scissors) (outside : num) : res (option num) :=
  getTrained (outsideTraining s) (outsideGran s) outside.

Definition setWorking (working : bool) : M unit :=
  modify (set_working working).

Definition setDimensions (width height : Z) : M unit :=
  modify (set_width width);;
  modify (set_height height).

Definition setData (data : list Z) : M unit :=
  s ← get;
  if (width s =? -1) || (height s =? -1)
  then throw (Error "Dimensions have not been set.")
  else
    g ← lift (computeGreyscale data (width s) (height s));
    modify (set_greyscale (Some g));;
    l ← lift (computeLaplace g);
    modify (set_laplace (Some l));;
    gr ← lift (computeGradient g);
    modify (set_gradient (Some gr));;
    gx ← lift (computeGradX g);
    modify (set_gradX (Some gx));;
    gy ← lift (computeGradY g);
    modify (set_gradY (Some gy));;
    s ← get;
    '(i, o) ← lift (computeSides (edgeWidth s) gx gy g);
    modify (set_inside (Some i));;
    modify (set_outside (Some o));;
    modify (set_edgeTraining (Some arr_empty));;
    modify (set_gradTraining (Some arr_empty));;
    modify (set_insideTraining (Some arr_empty));;
    modify (set_outsideTraining (Some arr_empty)).

(** The loop of [findTrainingPoints]: at most [trainingLength] points, as long
    as [p] is an object. *)
Fixpoint findTrainingPoints_loop (fuel : nat) (parents : matrix Point)
    (p : option Point) (points : list Point) : res (list Point) :=
  match fuel, p with
  | S fuel', Some p =>
      next ← mat_get parents (py p) (px p);
      findTrainingPoints_loop fuel' parents next (points ++ [p])
  | _, _ => Ok points
  end.

Definition findTrainingPoints (s : Scissors) (p : option Point) : res (list Point) :=
  match parents s with
  | Some parents =>
      findTrainingPoints_loop (Z.to_nat (trainingLength s)) parents p []
  | None => Ok []
  end.

Definition resetTraining : M unit :=
  modify (set_trained false).

(** [calculateTraining(buffer, granularity, input, output)]: the arrays
    [buffer] and [output] after the call.  A raw value whose index is no
    integer (NaN) increments a property that is no array cell, and the
    incremented value [undefined + 1] enters [maxVal]. *)
Definition calculateTraining (trainingPoints : list Point)
    (buffer : jsarray num) (granularity : Z)
    (input : option field) (output : option (jsarray num))
  : res (jsarray num * jsarray num) :=
  buffer ← arr_set_length buffer granularity;
  let buffer := for_pure 0 granularity (fun i buffer =>
    arr_put buffer i (Some (of_Z 0))) buffer in
  '(buffer, maxVal) ← for_list trainingPoints (fun p '(buffer, maxVal) =>
      input ← defined input;
      v ← mat_get input (py p) (px p);
      let idx := getTrainingIdx granularity (ToNumber v) in
      match to_index idx with
      | Some i =>
          let buffer := arr_put buffer i (Some (ToNumber (arr_get buffer i) ⊕ of_Z 1)) in
          Ok (buffer, nmax maxVal (ToNumber (arr_get buffer i)))
      | None => Ok (buffer, nmax maxVal (NaN ⊕ of_Z 1))
      end)
    (buffer, of_Z 1);
  (* invert and scale *)
  let buffer := for_pure 0 granularity (fun i buffer =>
    arr_put buffer i (Some (of_Z 1 ⊖ ToNumber (arr_get buffer i) ⊘ maxVal))) buffer in
  output ← defined output;
  Ok (buffer, gaussianBlur buffer output).

(** [addInStaticGrad(have, need)]: the gradient table after the call. *)
Definition addInStaticGrad (gradGran : Z) (gradTraining : option (jsarray num))
    (have need : Z) : res (jsarray num) :=
  t ← defined gradTraining;
  Ok (for_pure 0 gradGran (fun i t =>
    arr_put t i
      (Some (nmin (ToNumber (arr_get t i))
        (of_Z 1 ⊖ of_Z i ⊗ of_Z (need - have) ⊘ (of_Z need ⊗ of_Z gradGran)))))
    t).

Definition doTraining (p : option Point) : M unit :=
  s ← get;
  pts ← lift (findTrainingPoints s p);
  modify (set_trainingPoints (Some pts));;
  if Z.of_nat (length pts) <? 8 then mret tt
  else
    let buffer := arr_empty in
    s ← get;
    '(buffer, t) ← lift (calculateTraining pts buffer (edgeGran s) (greyscale s) (edgeTraining s));
    modify (set_edgeTraining (Some t));;
    s ← get;
    '(buffer, t) ← lift (calculateTraining pts buffer (gradGran s) (gradient s) (gradTraining s));
    modify (set_gradTraining (Some t));;
    s ← get;
    '(buffer, t) ← lift (calculateTraining pts buffer (insideGran s) (inside s) (insideTraining s));
    modify (set_insideTraining (Some t));;
    s ← get;
    '(buffer, t) ← lift (calculateTraining pts buffer (outsideGran s) (outside s) (outsideTraining s));
    modify (set_outsideTraining (Some t));;
    s ← get;
    (if Z.of_nat (length pts) <? gradPointsNeeded s
     then
       t ← lift (addInStaticGrad (gradGran s) (gradTraining s)
                   (Z.of_nat (length pts)) (gradPointsNeeded s));
       modify (set_gradTraining (Some t))
     else mret tt);;
    modify (set_trained true).

(** *** The cost function *)

Definition Scissors_gradDirection (s : Scissors) (px py qx qy : Z) : res num :=
  gx ← defined (gradX s);
  gy ← defined (gradY s);
  gradDirection gx gy px py qx qy.

Definition dist (s : Scissors) (px py qx qy : Z) : res num :=
  gradient ← defined (gradient s);
  grad ← mat_get gradient qy qx;
  let grad := ToNumber grad in
  let grad := if (px =? qx) || (py =? qy) then grad ⊗ SQRT1_2 else grad in
  laplace ← defined (laplace s);
  lap ← mat_get laplace qy qx;
  let lap := ToNumber lap in
  dir ← Scissors_gradDirection s px py qx qy;
  if trained s then
    gradT ← getTrainedGrad s grad;
    greyscale ← defined (greyscale s);
    e ← mat_get greyscale py px;
    edgeT ← getTrainedEdge s (ToNumber e);
    inside ← defined (inside s);
    i ← mat_get inside py px;
    insideT ← getTrainedInside s (ToNumber i);
    outside ← defined (outside s);
    o ← mat_get outside py px;
    outsideT ← getTrainedOutside s (ToNumber o);
    Ok (ratio 3 10 ⊗ ToNumber gradT ⊕ ratio 3 10 ⊗ lap
        ⊕ ratio 1 10 ⊗ (dir ⊕ ToNumber edgeT ⊕ ToNumber insideT ⊕ ToNumber outsideT))
  else
    Ok (ratio 43 100 ⊗ grad ⊕ ratio 43 100 ⊗ lap ⊕ ratio 11 100 ⊗ dir).

(** [adj(p)]: the neighbours of [p] inside the image, row by row. *)
Definition adj (s : Scissors) (p : Point) : res (list Point) :=
  greyscale ← defined (greyscale s);
  let sx := Z.max (px p - 1) 0 in
  let sy := Z.max (py p - 1) 0 in
  w0 ← row_length greyscale 0;
  let ex := Z.min (px p + 1) (w0 - 1) in
  let ey := Z.min (py p + 1) (alen greyscale - 1) in
  Ok (for_pure sy (ey + 1) (fun y list =>
        for_pure sx (ex + 1) (fun x list =>
          if negb (x =? px p) || negb (y =? py p)
          then list ++ [mkPoint x y] else list)
          list)
        []).

(** *** The search *)

Definition setPoint (sp : Point) : M unit :=
  setWorking true;;
  modify (set_curPoint (Some sp));;
  s ← get;
  modify (set_visited (Some
    (for_pure 0 (height s) (fun y visited =>
       arr_put visited y (Some
         (for_pure 0 (width s) (fun x row => arr_put row x (Some false)) arr_empty)))
       arr_empty)));;
  modify (set_parents (Some
    (for_pure 0 (height s) (fun y parents => arr_put parents y (Some arr_empty))
       arr_empty)));;
  let cost :=
    for_pure 0 (height s) (fun y cost =>
      arr_put cost y (Some
        (for_pure 0 (width s) (fun x row => arr_put row x (Some MAX_VALUE)) arr_empty)))
      arr_empty in
  modify (set_cost (Some cost));;
  let q := BucketQueue_new (searchGranBits s) in
  modify (set_pq (Some q));;
  let q := mkBucketQueue (bq_bits q) (buckets q) (loc q) (Some (searchGran s)) in
  modify (set_pq (Some q));;
  q ← lift (pq_push q cost sp);
  modify (set_pq (Some q));;
  cost ← lift (mat_put cost (py sp) (px sp) (Some (of_Z 0)));
  modify (set_cost (Some cost)).

(** [v !== n] for a cell [v] and a number [n] *)
Definition strict_neq (v : option num) (n : num) : bool :=
  match v with
  | Some c => negb (c =# n)
  | None => true
  end.

(** One pass of the inner loop of [doWork]: the edge from [p] to its
    neighbour [q]. *)
Definition relax (p q : Point) : M unit :=
  s ← get;
  cost ← lift (defined (cost s));
  cp ← lift (mat_get cost (py p) (px p));
  d ← lift (dist s (px p) (py p) (px q) (py q));
  let pqCost := ToNumber cp ⊕ d in
  cq ← lift (mat_get cost (py q) (px q));
  if pqCost <# ToNumber cq then
    (if strict_neq cq MAX_VALUE then
       (* already in the queue: remove it so that it can be added again *)
       q0 ← lift (defined (pq s));
       q0 ← lift (pq_remove q0 cost q);
       modify (set_pq (Some q0))
     else mret tt);;
    cost ← lift (mat_put cost (py q) (px q) (Some pqCost));
    modify (set_cost (Some cost));;
    s ← get;
    parents ← lift (defined (parents s));
    parents ← lift (mat_put parents (py q) (px q) (Some p));
    modify (set_parents (Some parents));;
    s ← get;
    q0 ← lift (defined (pq s));
    q0 ← lift (pq_push q0 cost q);
    modify (set_pq (Some q0))
  else mret tt.

(** The body of the while loop of [doWork], once. *)
Definition doWork_step (newPoints : list (Point * option Point))
  : M (list (Point * option Point)) :=
  s ← get;
  q0 ← lift (defined (pq s));
  '(p, q0) ← lift (pq_pop q0);
  modify (set_pq (Some q0));;
  s ← get;
  parents ← lift (defined (parents s));
  parent ← lift (mat_get parents (py p) (px p));
  let newPoints := newPoints ++ [(p, parent)] in
  visited ← lift (defined (visited s));
  visited ← lift (mat_put visited (py p) (px p) (Some true));
  modify (set_visited (Some visited));;
  s ← get;
  adjList ← lift (adj s p);
  for_each adjList (relax p);;
  mret newPoints.

(** [while (!this.pq.isEmpty() && pointCount < this.pointsPerPost)]: the
    counter [pointCount] grows by one in each pass, so [pointsPerPost] passes
    are all the loop can make. *)
Fixpoint doWork_loop (fuel : nat) (pointCount : Z)
    (newPoints : list (Point * option Point)) : M (list (Point * option Point)) :=
  match fuel with
  | O => mret newPoints
  | S fuel' =>
      s ← get;
      q0 ← lift (defined (pq s));
      if negb (pq_isEmpty q0) && (pointCount <? pointsPerPost s) then
        newPoints ← doWork_step newPoints;
        doWork_loop fuel' (pointCount + 1) newPoints
      else mret newPoints
  end.

(** [doWork()]: [None] is the [undefined] returned while not working; the
    batch pairs each finalized pixel with its entry in [parents]. *)
Definition doWork : M (option (list (Point * option Point))) :=
  s ← get;
  if negb (working s) then mret None
  else
    modify (set_timeout (Some tt));;
    s ← get;
    newPoints ← doWork_loop (S (Z.to_nat (pointsPerPost s))) 0 [];
    mret (Some newPoints).

(** *** Calls on the object *)

Inductive call : Type :=
  | SetWorking (working : bool)
  | SetDimensions (width height : Z)
  | SetData (data : list Z)
  | ResetTraining
  | DoTraining (p : option Point)
  | SetPoint (sp : Point)
  | DoWork.

(** The state a call leaves, whether it returned or threw. *)
Definition invoke (c : call) (s : Scissors) : Scissors :=
  match c with
  | SetWorking w => snd (setWorking w s)
  | SetDimensions w h => snd (setDimensions w h s)
  | SetData data => snd (setData data s)
  | ResetTraining => snd (resetTraining s)
  | DoTraining p => snd (doTraining p s)
  | SetPoint sp => snd (setPoint sp s)
  | DoWork => snd (doWork s)
  end.

(** [n] calls of [doWork] in a row: what each returned, and the final state. *)
Fixpoint repeat_doWork (n : nat) (s : Scissors)
  : list (res (option (list (Point * option Point)))) * Scissors :=
  match n with
  | O => ([], s)
  | S n' =>
      let '(r, s1) := doWork s in
      let '(rs, s2) := repeat_doWork n' s1 in
      (r :: rs, s2)
  end.

End Engine.

Arguments Scissors num : clear implicits.
Arguments M num A : clear implicits.
Arguments field num : clear implicits.

(** * JavaScript numbers as IEEE-754 binary64

    The instance the engine is run on.  Decimal literals denote the nearest
    binary64 value, as they do in JavaScript. *)

Module Float64.
#[local] Set Warnings "-inexact-float".
Local Open Scope float_scope.

(** The binary64 value nearest to an integer. *)
Definition of_int (z : Z) : float := SF2Prim (binary_normalize prec emax z 0 false).

(** A literal n/d with n and d below 2^53: one correctly rounded division of
    two exact values is the nearest binary64 value of the quotient. *)
Definition quotient (n d : Z) : float := of_int n / of_int d.

Definition is_nan (x : float) : bool := negb (x =? x).

(** [Math.max]: NaN if an argument is NaN, and +0 above -0. *)
Definition max (a b : float) : float :=
  if is_nan a || is_nan b then nan
  else if a <? b then b
  else if b <? a then a
  else match classify a with NZero => b | _ => a end.

(** [Math.min]: NaN if an argument is NaN, and -0 below +0. *)
Definition min (a b : float) : float :=
  if is_nan a || is_nan b then nan
  else if a <? b then a
  else if b <? a then b
  else match classify a with PZero => b | _ => a end.

(** [Math.round]: the nearest integer, a tie going up; the value of the
    float [(-1)^s m 2^e] is computed exactly. *)
Definition round (x : float) : float :=
  match Prim2SF x with
  | S754_finite s m e =>
      if (0 <=? e)%Z then x
      else
        let v := if s then Z.neg m else Z.pos m in
        let n := ((2 * v + 2 ^ (- e)) / 2 ^ (- e + 1))%Z in
        if (n =? 0)%Z then (if s then -0 else 0) else of_int n
  | _ => x
  end.

(** The integer a number is, if it is one. *)
Definition to_int (x : float) : option Z :=
  match Prim2SF x with
  | S754_zero _ => Some 0%Z
  | S754_finite s m e =>
      let v := if s then Z.neg m else Z.pos m in
      if (0 <=? e)%Z then Some (v * 2 ^ e)%Z
      else if (Z.pos m mod 2 ^ (- e) =? 0)%Z then Some (v / 2 ^ (- e))%Z
      else None
  | _ => None
  end.

(** [Math.acos] is implementation-approximated in ECMAScript; this is the
    algorithm of fdlibm (e_acos.c), the one V8 ships. *)
Definition pio2_hi := 1.57079632679489655800e+00.
Definition pio2_lo := 6.12323399573676603587e-17.
Definition pS0 := 1.66666666666666657415e-01.
Definition pS1 := -3.25565818622400915405e-01.
Definition pS2 := 2.01212532134862925881e-01.
Definition pS3 := -4.00555345006794114027e-02.
Definition pS4 := 7.91534994289814532176e-04.
Definition pS5 := 3.47933107596021167570e-05.
Definition qS1 := -2.40339491173441421878e+00.
Definition qS2 := 2.02094576023350569471e+00.
Definition qS3 := -6.88283971605453293030e-01.
Definition qS4 := 7.70381505559019352791e-02.

(** A positive float with the low 32 bits of its significand cleared. *)
Definition clear_low_word (x : float) : float :=
  match Prim2SF x with
  | S754_finite s m e =>
      SF2Prim (binary_normalize prec emax
                 ((if s then -1 else 1) * (Z.pos m / 2 ^ 32 * 2 ^ 32)) e false)
  | _ => x
  end.

Definition acos (x : float) : float :=
  let ax := abs x in
  if is_nan x then nan
  else if 1 <? ax then nan
  else if ax =? 1 then (if 0 <? x then 0 else 3.14159265358979311600e+00 + 2 * pio2_lo)
  else
    let P z := z * (pS0 + z * (pS1 + z * (pS2 + z * (pS3 + z * (pS4 + z * pS5))))) in
    let Q z := 1 + z * (qS1 + z * (qS2 + z * (qS3 + z * qS4))) in
    if ax <? 0.5 then
      if ax <? 0x1.00001p-57 then pio2_hi + pio2_lo
      else
        let z := x * x in
        let r := P z / Q z in
        pio2_hi - (x - (pio2_lo - r * x))
    else if x <? 0 then
      let z := (1 + x) * 0.5 in
      let s := PrimFloat.sqrt z in
      let r := P z / Q z in
      let w := r * s - pio2_lo in
      3.14159265358979311600e+00 - 2 * (s + w)
    else
      let z := (1 - x) * 0.5 in
      let s := PrimFloat.sqrt z in
      let df := clear_low_word s in
      let c := (z - df * df) / (s + df) in
      let r := P z / Q z in
      let w := r * s + c in
      2 * (df + w).

Global Instance float64 : JSNumber float := {|
  of_Z := of_int;
  ratio := quotient;
  NaN := nan;
  MAX_VALUE := 0x1.fffffffffffffp+1023;
  PI := 0x1.921fb54442d18p+1;
  SQRT1_2 := 0x1.6a09e667f3bcdp-1;
  TINY := 1e-100;
  nadd := PrimFloat.add;
  nsub := PrimFloat.sub;
  nmul := PrimFloat.mul;
  ndiv := PrimFloat.div;
  nopp := PrimFloat.opp;
  nsqrt := PrimFloat.sqrt;
  nacos := acos;
  nmax := max;
  nmin := min;
  nround := round;
  nltb := PrimFloat.ltb;
  neqb := PrimFloat.eqb;
  to_index := to_int
|}.

End Float64.

(** * Binary64 values, by their specification

    The classes and the integer values that the properties of the
    arithmetic are stated with, on the specification [spec_float] of a
    binary64 value ([Prim2SF]). *)

Module SF.

(** Classes of binary64 values. *)
Definition nonnan (x : spec_float) : bool :=
  match x with S754_nan => false | _ => true end.
Definition finite (x : spec_float) : bool :=
  match x with S754_zero _ | S754_finite _ _ _ => true | _ => false end.
Definition signed (s : bool) (x : spec_float) : bool :=
  match x with
  | S754_zero s' | S754_infinity s' | S754_finite s' _ _ => Bool.eqb s' s
  | S754_nan => false
  end.
Definition nonzero (x : spec_float) : bool :=
  match x with S754_zero _ => false | _ => true end.

(** The integer a binary64 value is, if it is one: [to_int] on the
    specification of the value. *)
Definition sf_to_int (x : spec_float) : option Z :=
  match x with
  | S754_zero _ => Some 0
  | S754_finite s m e =>
      let v := if s then Z.neg m else Z.pos m in
      if 0 <=? e then Some (v * 2 ^ e)
      else if Z.pos m mod 2 ^ (- e) =? 0 then Some (v / 2 ^ (- e))
      else None
  | _ => None
  end.

(** The value of a zero or of a finite number, times 2^1074: an integer. *)
Definition scaled (x : spec_float) : Z :=
  match x with
  | S754_finite s m e => (if s then Z.neg m else Z.pos m) * 2 ^ (e + 1074)
  | _ => 0
  end.

(** Integers and infinities, with plus and minus 2^1024 as the rank of the
    infinities: every integer value lies strictly between them. *)
Definition rank (x : spec_float) : Z :=
  match x with
  | S754_infinity false => 2 ^ 1024
  | S754_infinity true => - 2 ^ 1024
  | _ => default 0 (sf_to_int x)
  end.

Definition integral (x : spec_float) : Prop :=
  match x with
  | S754_infinity _ => True
  | S754_nan => False
  | _ => is_Some (sf_to_int x)
  end.

End SF.

(** The grey levels of an image: the values [computeGreyscale] stores for
    colour levels of 0 to 255. *)
Module Levels.
Import Float64.

(** The integers [0 <= i < n], for exhaustive checks. *)
Definition below (n : Z) : list Z := seqZ 0 n.

(** The sum of two integers is exact. *)
Definition sum_is_exact (a b : Z) : bool :=
  PrimFloat.Leibniz.eqb (of_int a + of_int b)%float (of_int (a + b)).

(** The grey level of three colour levels of sum [s]. *)
Definition grey (s : Z) : float := (of_int s / (of_int 3 * of_int 255))%float.

Definition greys : list float := map grey (below 766).

Definition finite_diff (a b : float) : bool := SF.finite (Prim2SF (a - b)%float).

Definition grey_level (v : float) : Prop := exists s, 0 <= s <= 765 /\ v = grey s.

Definition is_finite (v : float) : Prop := SF.finite (Prim2SF v) = true.

(** The index of the grey level of the sum [s] in a table of 256 entries
    is an integer of 0 to 255. *)
Definition index_in_table (s : Z) : bool :=
  match to_int (round (of_int (256 - 1) * grey s)%float) with
  | Some i => (0 <=? i) && (i <=? 255)
  | None => false
  end.

End Levels.

(** * Reading the object *)

(** [m[p.y][p.x]] on a matrix property of the object *)
Definition cell {V} (m : option (matrix V)) (p : Point) : option V :=
  m ← m; row ← arr_get m (py p); arr_get row (px p).

(** * Test images *)

(** An RGBA buffer of width [w] and height [h] with the grey level
    [grey x y] in its three colour channels. *)
Definition rgba (w h : Z) (grey : Z -> Z -> Z) : list Z :=
  flat_map (fun y =>
    flat_map (fun x =>
      let v := grey (Z.of_nat x) (Z.of_nat y) in [v; v; v; 255])
      (seq 0 (Z.to_nat w)))
    (seq 0 (Z.to_nat h)).

Module Examples.
Import Float64.

(** What a sequence of calls on a new object returns and leaves. *)
Definition fresh {A} (m : M float A) : res A * Scissors float := m Scissors_new.

(** A 6x6 image with a vertical step edge: columns 0 to 3 black, columns 4
    and 5 white. *)
Definition step_edge : list Z := rgba 6 6 (fun x _ => if x <=? 3 then 0 else 255).

(** The search on [step_edge] from the seed (3, 2), before any [doWork]. *)
Definition step_edge_search : Scissors float :=
  snd (fresh (setDimensions 6 6;; setData step_edge;; setPoint (mkPoint 3 2))).

(** [k] passes of the loop of [doWork]. *)
Fixpoint passes (k : nat) (s : Scissors float) : res unit * Scissors float :=
  match k with
  | O => (Ok tt, s)
  | S k' =>
      match passes k' s with
      | (Ok _, s') => (doWork_step [];; mret tt) s'
      | r => r
      end
  end.

(** A 3x2 image, wider than tall, with the grey levels 0, 255, 153 in each
    row; and a 2x3 image, taller than wide, with the grey levels 0, 255. *)
Definition wide : list Z :=
  rgba 3 2 (fun x _ => if x =? 0 then 0 else if x =? 1 then 255 else 153).
Definition tall : list Z := rgba 2 3 (fun x _ => if x =? 0 then 0 else 255).

(** The object that has loaded [step_edge]; the search on it paused after
    its first pass; and a new object of a given size. *)
Definition step_edge_loaded : Scissors float :=
  snd (fresh (setDimensions 6 6;; setData step_edge)).

Definition step_edge_paused : Scissors float :=
  snd ((doWork_step [];; setWorking false) step_edge_search).

Definition sized (w h : Z) : Scissors float := snd (fresh (setDimensions w h)).

End Examples.

(** * Closed forms of the fields, and the states of a search

    What the loops of the preprocessor build, cell by cell.  Each closed form
    is proved below to be the value the embedded function returns
    ([computeGreyscale_eq], [computeGradX_eq], [computeGradY_eq],
    [computeLaplace_eq], [computeGradient_eq]). *)

(** The array [a] with the cells [lo <= i < hi] set to [F i]. *)
Definition tabulate {V} (lo hi : Z) (F : Z -> option V) (a : jsarray V) : jsarray V :=
  for_pure lo hi (fun i a => arr_put a i (F i)) a.

Definition has_rows {V} (m : matrix V) (h : Z) : Prop :=
  forall y, 0 <= y < h -> is_Some (arr_get m y).

Section GreyscaleForms.
Context {num : Type} {N : JSNumber num}.

(** Row [y] of a field, empty where there is none. *)
Definition row_of (m : field num) (y : Z) : jsarray num :=
  default arr_empty (arr_get m y).

(** The grey level [computeGreyscale] stores at (x, y). *)
Definition grey_value (data : list Z) (width x y : Z) : num :=
  let p := (y * width + x) * 4 in
  let d i := ToNumber (of_Z <$> data_get data i) in
  (d p ⊕ d (p + 1) ⊕ d (p + 2)) ⊘ (of_Z 3 ⊗ of_Z 255).

Definition greyscale_of (data : list Z) (width height : Z) : field num :=
  tabulate 0 height (fun y =>
    Some (tabulate 0 width (fun x => Some (grey_value data width x y)) arr_empty))
    arr_empty.

(** The value of [greyscale.dx(x, y)] where row [y] exists. *)
Definition dx_value (g : field num) (x y : Z) : num :=
  let row := row_of g y in
  let x := if x + 1 =? alen row then x - 1 else x in
  ToNumber (arr_get row (x + 1)) ⊖ ToNumber (arr_get row x).

(** The value of [greyscale.dy(x, y)] where the two rows exist. *)
Definition dy_value (g : field num) (x y : Z) : num :=
  let y := if y + 1 =? alen g then y - 1 else y in
  ToNumber (arr_get (row_of g y) x) ⊖ ToNumber (arr_get (row_of g (y + 1)) x).

Definition gradX_row (g : field num) (y : Z) : jsarray num :=
  let w := alen (row_of g y) in
  let r := tabulate 0 (w - 1) (fun x => Some (dx_value g x y)) arr_empty in
  arr_put r (w - 1) (arr_get r (w - 2)).

Definition gradX_of (g : field num) : field num :=
  tabulate 0 (alen g) (fun y => Some (gradX_row g y)) arr_empty.

Definition gradY_row (g : field num) (y : Z) : jsarray num :=
  tabulate 0 (alen (row_of g y)) (fun x => Some (dy_value g x y)) arr_empty.

Definition gradY_of (g : field num) : field num :=
  let glen := alen g in
  let gy := tabulate 0 (glen - 1) (fun y => Some (gradY_row g y)) arr_empty in
  arr_put gy (glen - 1)
    (Some (tabulate 0 (alen (row_of g 0))
             (fun i => arr_get (row_of gy (glen - 2)) i) arr_empty)).
End GreyscaleForms.

Section LaplaceForms.
Context {num : Type} {N : JSNumber num}.

(** The value of [greyscale.laplace(x, y)] where the five rows exist. *)
Definition stencil (g : field num) (x y : Z) : num :=
  let v y x := ToNumber (arr_get (row_of g y) x) in
  let lap := of_Z (-16) ⊗ v y x in
  let lap := lap ⊕ v (y - 2) x in
  let lap := lap ⊕ (v (y - 1) (x - 1) ⊕ of_Z 2 ⊗ v (y - 1) x ⊕ v (y - 1) (x + 1)) in
  let lap := lap ⊕ (v y (x - 2) ⊕ of_Z 2 ⊗ v y (x - 1) ⊕ of_Z 2 ⊗ v y (x + 1)
                    ⊕ v y (x + 2)) in
  let lap := lap ⊕ (v (y + 1) (x - 1) ⊕ of_Z 2 ⊗ v (y + 1) x ⊕ v (y + 1) (x + 1)) in
  lap ⊕ v (y + 2) x.

(** The thresholded stencil: [(lap > 0.33) ? 0 : 1]. *)
Definition threshold (lap : num) : num :=
  if ratio 33 100 <# lap then of_Z 0 else of_Z 1.

Definition laplace_row (g : field num) (y : Z) : jsarray num :=
  let w := alen (row_of g y) in
  let one := Some (of_Z 1) in
  let r := arr_put (arr_put arr_empty 0 one) 1 one in
  let r := tabulate 2 (w - 2) (fun x => Some (threshold (stencil g x y))) r in
  arr_put (arr_put r (w - 2) one) (w - 1) one.

(** A padded top or bottom row: the cells 1 to [glen - 1] set to 1. *)
Definition pad_row (glen : Z) : jsarray num :=
  tabulate 1 glen (fun _ => Some (of_Z 1)) arr_empty.

Definition laplace_of (g : field num) : field num :=
  let glen := alen g in
  let l := arr_put (arr_put arr_empty 0 (Some (pad_row glen))) 1 (Some (pad_row glen)) in
  let l := tabulate 2 (glen - 2) (fun y => Some (laplace_row g y)) l in
  arr_put (arr_put l (glen - 2) (Some (pad_row glen))) (glen - 1) (Some (pad_row glen)).
End LaplaceForms.

Section GradientForms.
Context {num : Type} {N : JSNumber num}.

(** The value of [greyscale.gradMagnitude(x, y)]. *)
Definition gm_value (g : field num) (x y : Z) : num :=
  nsqrt (dx_value g x y ⊗ dx_value g x y ⊕ dy_value g x y ⊗ dy_value g x y).

(** Row [y] of the gradient before scaling: the magnitudes, and the last
    cell copied from the cell of index [greyscale.length - 2]. *)
Definition raw_row (g : field num) (y : Z) : jsarray num :=
  let w := alen (row_of g y) in
  let r := tabulate 0 (w - 1) (fun x => Some (gm_value g x y)) arr_empty in
  arr_put r (w - 1) (arr_get r (alen g - 2)).

(** The running maximum after row [y], and after the rows below [y]. *)
Definition row_max (g : field num) (y : Z) (mx : num) : num :=
  for_pure 0 (alen (row_of g y) - 1) (fun x mx => nmax (gm_value g x y) mx) mx.

Definition max_upto (g : field num) (y : Z) : num :=
  for_pure 0 y (fun y mx => row_max g y mx) (of_Z 0).

Definition raw_gradient (g : field num) : field num :=
  let glen := alen g in
  let gr := tabulate 0 (glen - 1) (fun y => Some (raw_row g y)) arr_empty in
  let w0 := alen (row_of (arr_put gr (glen - 1) (Some arr_empty)) 0) in
  arr_put gr (glen - 1)
    (Some (tabulate 0 w0 (fun i => arr_get (row_of gr (glen - 2)) i) arr_empty)).

(** A row flipped and scaled: [1 - v / max] in each cell below its length. *)
Definition flip_row (mx : num) (r : jsarray num) : jsarray num :=
  tabulate 0 (alen r) (fun x => Some (of_Z 1 ⊖ ToNumber (arr_get r x) ⊘ mx)) r.

Definition gradient_of (g : field num) : field num :=
  let raw := raw_gradient g in
  let mx := max_upto g (alen g - 1) in
  tabulate 0 (alen raw) (fun y => Some (flip_row mx (row_of raw y))) raw.
End GradientForms.

Section DenseDefs.
Context {num : Type} {N : JSNumber num}.

(** A field whose [h] rows have the length [w] and hold values that
    satisfy [P]. *)
Record dense (P : num -> Prop) (m : field num) (h w : Z) : Prop := {
  dn_alen : alen m = h;
  dn_row : forall y, 0 <= y < h -> exists row, arr_get m y = Some row /\ alen row = w;
  dn_cell : forall y x, 0 <= y < h -> 0 <= x < w ->
              exists v, arr_get (row_of m y) x = Some v /\ P v
}.
End DenseDefs.

(** The pixels a queue holds. *)
Definition items (q : BucketQueue) : list Point := concat (buckets q).

(** A queue as the constructor and the operations leave it: 2^bits buckets
    and a scan position among them. *)
Definition queue_ok (q : BucketQueue) : Prop :=
  Z.of_nat (length (buckets q)) = 2 ^ bq_bits q /\
  (loc q < length (buckets q))%nat.

(** A pixel of an image of height [H] and width [W]. *)
Definition in_image (H W : Z) (p : Point) : Prop :=
  0 <= px p < W /\ 0 <= py p < H.

Section SearchDefs.
Context {num : Type} {N : JSNumber num}.

(** The unit gradient vector that [gradUnitVector] writes. *)
Definition unit_vector (gradX gradY : field num) (px py : Z) : num * num :=
  let ox := ToNumber (arr_get (row_of gradX py) px) in
  let oy := ToNumber (arr_get (row_of gradY py) px) in
  let gvm := nmax (nsqrt (ox ⊗ ox ⊕ oy ⊗ oy)) TINY in
  (ox ⊘ gvm, oy ⊘ gvm).

(** The value of [gradDirection] where the rows exist. *)
Definition direction (gradX gradY : field num) (px py qx qy : Z) : num :=
  let '(dgpuv_x, dgpuv_y) := unit_vector gradX gradY px py in
  let '(gdquv_x, gdquv_y) := unit_vector gradX gradY qx qy in
  let dp := dgpuv_y ⊗ of_Z (qx - px) ⊖ dgpuv_x ⊗ of_Z (qy - py) in
  let dq := gdquv_y ⊗ of_Z (qx - px) ⊖ gdquv_x ⊗ of_Z (qy - py) in
  let '(dp, dq) := if dp <# of_Z 0 then (nopp dp, nopp dq) else (dp, dq) in
  let '(dp, dq) :=
    if negb (px =? qx) && negb (py =? qy)
    then (dp ⊗ SQRT1_2, dq ⊗ SQRT1_2) else (dp, dq) in
  twothirdpi ⊗ (nacos dp ⊕ nacos dq).

(** An object with the fields of an image of height [H]. *)
Record image_fields (H : Z) (s : Scissors num) : Prop := {
  if_gradient : exists m, gradient s = Some m /\ has_rows m H;
  if_laplace : exists m, laplace s = Some m /\ has_rows m H;
  if_gradX : exists m, gradX s = Some m /\ has_rows m H;
  if_gradY : exists m, gradY s = Some m /\ has_rows m H
}.

(** An object that holds an image of height [H] and width [W] as a
    successful [setData] leaves it, trained or not: the fields, the two sides
    and the four tables, with the settings of the constructor that a search
    reads.  Nothing is said of [trained], of the tables' contents or of a
    search. *)
Record loaded (H W : Z) (s : Scissors num) : Prop := {
  ld_width : width s = W;
  ld_height : height s = H;
  ld_searchGranBits : searchGranBits s = 8;
  ld_pointsPerPost : pointsPerPost s = 500;
  ld_greyscale : exists g, greyscale s = Some g /\ has_rows g H /\
                   alen g = H /\ alen (row_of g 0) = W;
  ld_gradient : exists m, gradient s = Some m /\ has_rows m H;
  ld_laplace : exists m, laplace s = Some m /\ has_rows m H;
  ld_gradX : exists m, gradX s = Some m /\ has_rows m H;
  ld_gradY : exists m, gradY s = Some m /\ has_rows m H;
  ld_inside : exists m, inside s = Some m /\ has_rows m H;
  ld_outside : exists m, outside s = Some m /\ has_rows m H;
  ld_edgeTraining : is_Some (edgeTraining s);
  ld_gradTraining : is_Some (gradTraining s);
  ld_insideTraining : is_Some (insideTraining s);
  ld_outsideTraining : is_Some (outsideTraining s)
}.

(** An object with the fields, the sides and the tables of an image of
    height [H] and width [W], trained or not, and a search under way. *)
Record searching (H W : Z) (s : Scissors num) : Prop := {
  sr_working : working s = true;
  sr_greyscale : exists g, greyscale s = Some g /\ has_rows g H /\
                   alen g = H /\ alen (row_of g 0) = W;
  sr_gradient : exists m, gradient s = Some m /\ has_rows m H;
  sr_laplace : exists m, laplace s = Some m /\ has_rows m H;
  sr_gradX : exists m, gradX s = Some m /\ has_rows m H;
  sr_gradY : exists m, gradY s = Some m /\ has_rows m H;
  sr_inside : exists m, inside s = Some m /\ has_rows m H;
  sr_outside : exists m, outside s = Some m /\ has_rows m H;
  sr_edgeTraining : is_Some (edgeTraining s);
  sr_gradTraining : is_Some (gradTraining s);
  sr_insideTraining : is_Some (insideTraining s);
  sr_outsideTraining : is_Some (outsideTraining s);
  sr_cost : exists m, cost s = Some m /\ has_rows m H;
  sr_parents : exists m, parents s = Some m /\ has_rows m H;
  sr_visited : exists m, visited s = Some m /\ has_rows m H;
  sr_pq : exists q, pq s = Some q /\ queue_ok q /\ Forall (in_image H W) (items q)
}.
End SearchDefs.

Section StartDefs.
Context {num : Type} {N : JSNumber num}.

(** The matrices [setPoint] creates for an image of height [h] and width
    [w]: a dense matrix of one value, and the empty rows of [parents]. *)
Definition constant_matrix {V} (h w : Z) (v : V) : matrix V :=
  tabulate 0 h (fun _ => Some (tabulate 0 w (fun _ => Some v) arr_empty)) arr_empty.

Definition empty_rows {V} (h : Z) : matrix V :=
  tabulate 0 h (fun _ => Some arr_empty) arr_empty.
End StartDefs.

Section ParentDefs.
Context {num : Type}.

(** Every queued pixel has an entry in [parents]. *)
Definition queued_have_parents (s : Scissors num) : Prop :=
  exists par q, parents s = Some par /\ pq s = Some q /\
    forall p, p ∈ items q -> is_Some (cell (Some par) p).
End ParentDefs.

Section VisitedDefs.
Context {num : Type}.

(** [visited[p.y][p.x]] is true *)
Definition is_visited (s : Scissors num) (p : Point) : Prop :=
  cell (visited s) p = Some true.

(** Every pixel visited in [s] is visited in [s']. *)
Definition visited_grows (s s' : Scissors num) : Prop :=
  forall x, is_visited s x -> is_visited s' x.
End VisitedDefs.

Section FrameDefs.
Context {num : Type}.

(** [preserves f m]: the call [m] leaves the part [f] of the object as it
    was, whether it returns or throws. *)
Definition preserves {A B} (f : Scissors num -> B) (m : M num A) : Prop :=
  forall s, f (snd (m s)) = f s.

(** [keeps P m]: an object that satisfies [P] satisfies it after the call
    [m], whether the call returns or throws. *)
Definition keeps {A} (P : Scissors num -> Prop) (m : M num A) : Prop :=
  forall s, P s -> P (snd (m s)).
End FrameDefs.

(** * More of the states of the engine

    What the properties of [adj], of the search, of the training and of the
    preprocessor are stated with. *)

(** [q] is one of the eight neighbours of [p] on the grid. *)
Definition adjacent (p q : Point) : Prop :=
  q <> p /\ px p - 1 <= px q <= px p + 1 /\ py p - 1 <= py q <= py p + 1.

Section SizeDefs.
Context {num : Type}.

(** The object holds a greyscale of [H] rows whose first row has [W] cells:
    what [adj] reads of the image. *)
Definition image_size (H W : Z) (s : Scissors num) : Prop :=
  exists g r0, greyscale s = Some g /\ alen g = H /\
    arr_get g 0 = Some r0 /\ alen r0 = W.
End SizeDefs.

Section ResetDefs.
Context {num : Type}.

(** The object without what a search writes: [working], [curPoint],
    [visited], [parents], [cost], the queue and [timeout]. *)
Definition forget_search (s : Scissors num) : Scissors num :=
  set_timeout None (set_working false (set_curPoint None (set_visited None
    (set_parents None (set_cost None (set_pq None s)))))).
End ResetDefs.

Section TreeDefs.
Context {num : Type}.

(** Every entry of [parents] links a pixel of the image to a neighbour that
    is a visited pixel of the image. *)
Definition parents_are_neighbours (H W : Z) (s : Scissors num) : Prop :=
  forall q p, cell (parents s) q = Some p ->
    in_image H W q /\ in_image H W p /\ adjacent p q /\ is_visited s p.
End TreeDefs.

Section WalkDefs.
Context {num : Type} {N : JSNumber num}.

(** The numeric properties the constructor sets and the search and the
    training read. *)
Definition settings (s : Scissors num) : list Z :=
  [searchGranBits s; searchGran s; pointsPerPost s; edgeWidth s; trainingLength s;
   edgeGran s; gradPointsNeeded s; gradGran s; insideGran s; outsideGran s].

(** The object after a sequence of calls, each returning or throwing. *)
Definition invoke_all (cs : list call) (s : Scissors num) : Scissors num :=
  fold_left (fun s c => invoke c s) cs s.

(** A walk along the parents: each point is followed by its parent, one of
    its eight neighbours. *)
Fixpoint linked (parents : option (matrix Point)) (pts : list Point) : Prop :=
  match pts with
  | a :: rest =>
      match rest with
      | b :: _ => cell parents a = Some b /\ adjacent b a
      | [] => True
      end /\ linked parents rest
  | [] => True
  end.
End WalkDefs.

Section SidesDefs.
Context {num : Type} {N : JSNumber num}.

(** [v] is the value of a cell of the field [g]. *)
Definition sample_of (g : field num) (v : num) : Prop :=
  exists p, cell (Some g) p = Some v.

(** The rows [0 <= y < h] of [m] exist and every cell of [m] holds a value of
    a cell of [g]. *)
Definition samples (g : field num) (h : Z) (m : field num) : Prop :=
  has_rows m h /\
  forall y row x v, arr_get m y = Some row -> arr_get row x = Some v -> sample_of g v.
End SidesDefs.

Section TrainingDefs.
Context {num : Type} {N : JSNumber num}.

(** An object that holds what [doTraining] reads: the four fields of an
    image of height [H] and the four tables. *)
Record trainable (H : Z) (s : Scissors num) : Prop := {
  tr_greyscale : exists m, greyscale s = Some m /\ has_rows m H;
  tr_gradient : exists m, gradient s = Some m /\ has_rows m H;
  tr_inside : exists m, inside s = Some m /\ has_rows m H;
  tr_outside : exists m, outside s = Some m /\ has_rows m H;
  tr_edgeTraining : is_Some (edgeTraining s);
  tr_gradTraining : is_Some (gradTraining s);
  tr_insideTraining : is_Some (insideTraining s);
  tr_outsideTraining : is_Some (outsideTraining s)
}.

(** What [doTraining] reads of the image and of an earlier training. *)
Definition training_view (s : Scissors num) :=
  (greyscale s, gradient s, inside s, outside s,
   edgeTraining s, gradTraining s, insideTraining s, outsideTraining s).
End TrainingDefs.

(** The pixel buffer [data] with the alpha sample of every pixel, the one at
    an index 3 modulo 4, replaced by [alpha] of the index. *)
Definition with_alpha (alpha : nat -> Z) (data : list Z) : list Z :=
  imap (fun i v => if (i mod 4 =? 3)%nat then alpha i else v) data.

(** ** More test images

    The step edge loaded by an object that was trained before, and the fields
    of an object, empty where there is none. *)
Module MoreExamples.
Import Float64 Examples.

Definition step_edge_trained : Scissors float := set_trained true (sized 6 6).

Definition step_edge_reloaded : Scissors float :=
  snd (setData step_edge step_edge_trained).


(** A 12x12 image whose grey level rises from column 0 to column 5 and
    falls from there; the object that has loaded it; that object after a
    search from (1, 1) and a training along the path that ends at (10, 10),
    which has 10 points; and a second search, on the trained object. *)
Definition ramp : list Z :=
  rgba 12 12 (fun x _ => if x <=? 5 then 40 * x else 255 - 10 * x).

Definition ramp_loaded : Scissors float :=
  snd (fresh (setDimensions 12 12;; setData ramp)).

Definition ramp_trained : Scissors float :=
  invoke_all [SetPoint (mkPoint 1 1); DoWork; DoTraining (Some (mkPoint 10 10))]
    ramp_loaded.

Definition ramp_trained_search : Scissors float :=
  snd (setPoint (mkPoint 1 1) ramp_trained).

End MoreExamples.

(** * The region of interest (roi.js)

    The private array [#points] of a [ROI], over any type of points. *)
Module ROI.
Section Region.
Context {P : Type}.

Record ROI : Type := { points : list P }.

(** [new ROI()] *)
Definition ROI_new : ROI := {| points := [] |}.

(** [getPoint(index)]: no size check, [undefined] out of the array. *)
Definition getPoint (this : ROI) (index : Z) : option P :=
  if index <? 0 then None else points this !! Z.to_nat index.

Definition getLength (this : ROI) : Z := Z.of_nat (length (points this)).

(** [this.#points.push(point)] *)
Definition addPoint (point : P) (this : ROI) : ROI :=
  {| points := points this ++ [point] |}.

(** [this.#points = this.#points.concat(rhs)] *)
Definition addPoints (rhs : list P) (this : ROI) : ROI :=
  {| points := points this ++ rhs |}.

(** A call that adds to the region, and the points it is given. *)
Inductive add_call : Type :=
  | AddPoint (point : P)
  | AddPoints (rhs : list P).

Definition add_invoke (c : add_call) (this : ROI) : ROI :=
  match c with
  | AddPoint point => addPoint point this
  | AddPoints rhs => addPoints rhs this
  end.

Definition given (c : add_call) : list P :=
  match c with
  | AddPoint point => [point]
  | AddPoints rhs => rhs
  end.
End Region.
Arguments ROI P : clear implicits.
Arguments add_call P : clear implicits.
End ROI.

(** * Properties *)

(** ** Results, loops and arrays *)

Lemma bind_Ok {A B} (a : A) (k : A -> res B) : (Ok a ≫= k) = k a.
Proof. reflexivity. Qed.

Lemma bind_Throw {A B} (e : exn) (k : A -> res B) : (Throw e ≫= k) = Throw e.
Proof. reflexivity. Qed.

Lemma bind_Ok_inv {A B} (m : res A) (k : A -> res B) (b : B) :
  (m ≫= k) = Ok b -> exists a, m = Ok a /\ k a = Ok b.
Proof. destruct m as [a|e]; [eauto | discriminate]. Qed.

Lemma defined_Ok_inv {A} (o : option A) (a : A) : defined o = Ok a -> o = Some a.
Proof. destruct o; simpl; congruence. Qed.

Lemma for_loop_inv {T} (P : Z -> T -> Prop) (body : Z -> T -> res T) :
  forall n lo s,
    P lo s ->
    (forall i s, lo <= i < lo + Z.of_nat n -> P i s ->
       exists s', body i s = Ok s' /\ P (i + 1) s') ->
    exists s', for_loop n lo body s = Ok s' /\ P (lo + Z.of_nat n) s'.
Proof.
  induction n as [|n IH]; intros lo s HP Hbody.
  - exists s. rewrite Z.add_0_r. auto.
  - destruct (Hbody lo s ltac:(lia) HP) as (s1 & Hs1 & HP1).
    destruct (IH (lo + 1) s1 HP1) as (s2 & Hs2 & HP2).
    { intros i t Hi. apply Hbody. lia. }
    exists s2. simpl. rewrite Hs1. simpl. split; [exact Hs2|].
    replace (lo + Z.of_nat (S n)) with (lo + 1 + Z.of_nat n) by lia. exact HP2.
Qed.

(** Total correctness of a loop from an invariant. *)
Lemma for_range_inv {T} (P : Z -> T -> Prop) lo hi (body : Z -> T -> res T) s :
  lo <= hi ->
  P lo s ->
  (forall i s, lo <= i < hi -> P i s -> exists s', body i s = Ok s' /\ P (i + 1) s') ->
  exists s', for_range lo hi body s = Ok s' /\ P hi s'.
Proof.
  intros Hle HP Hbody. unfold for_range.
  destruct (for_loop_inv P body (Z.to_nat (hi - lo)) lo s HP) as (s' & Hs' & HP').
  { intros i t Hi. apply Hbody. lia. }
  exists s'. split; [exact Hs'|].
  replace hi with (lo + Z.of_nat (Z.to_nat (hi - lo))) by lia. exact HP'.
Qed.

Lemma for_range_empty {T} lo hi (body : Z -> T -> res T) s :
  hi <= lo -> for_range lo hi body s = Ok s.
Proof.
  intros H. unfold for_range. replace (Z.to_nat (hi - lo)) with O by lia. reflexivity.
Qed.

Lemma for_loop_post {T} (P : Z -> T -> Prop) (body : Z -> T -> res T) :
  forall n lo s s',
    P lo s ->
    (forall i s s', lo <= i < lo + Z.of_nat n -> P i s -> body i s = Ok s' -> P (i + 1) s') ->
    for_loop n lo body s = Ok s' -> P (lo + Z.of_nat n) s'.
Proof.
  induction n as [|n IH]; intros lo s s' HP Hbody Hrun.
  - simpl in Hrun. injection Hrun as <-. rewrite Z.add_0_r. exact HP.
  - simpl in Hrun. apply bind_Ok_inv in Hrun as (s1 & Hs1 & Hrun).
    replace (lo + Z.of_nat (S n)) with (lo + 1 + Z.of_nat n) by lia.
    apply (IH (lo + 1) s1 s'); [| |exact Hrun].
    + apply (Hbody lo s s1); [lia|exact HP|exact Hs1].
    + intros i t t' Hi. apply Hbody. lia.
Qed.

(** Partial correctness of a loop from an invariant: what holds when the
    loop has not thrown. *)
Lemma for_range_post {T} (P : Z -> T -> Prop) lo hi (body : Z -> T -> res T) s s' :
  lo <= hi ->
  P lo s ->
  (forall i s s', lo <= i < hi -> P i s -> body i s = Ok s' -> P (i + 1) s') ->
  for_range lo hi body s = Ok s' -> P hi s'.
Proof.
  intros Hle HP Hbody Hrun. unfold for_range in Hrun.
  replace hi with (lo + Z.of_nat (Z.to_nat (hi - lo))) by lia.
  apply (for_loop_post P body _ lo s s' HP); [|exact Hrun].
  intros i t t' Hi. apply Hbody. lia.
Qed.

Lemma for_loop_pure_inv {T} (P : Z -> T -> Prop) (body : Z -> T -> T) :
  forall n lo s,
    P lo s ->
    (forall i s, lo <= i < lo + Z.of_nat n -> P i s -> P (i + 1) (body i s)) ->
    P (lo + Z.of_nat n) (for_loop_pure n lo body s).
Proof.
  induction n as [|n IH]; intros lo s HP Hbody.
  - rewrite Z.add_0_r. exact HP.
  - simpl. replace (lo + Z.of_nat (S n)) with (lo + 1 + Z.of_nat n) by lia.
    apply IH.
    + apply Hbody; [lia|exact HP].
    + intros i t Hi. apply Hbody. lia.
Qed.

Lemma for_pure_inv {T} (P : Z -> T -> Prop) lo hi (body : Z -> T -> T) s :
  lo <= hi ->
  P lo s ->
  (forall i s, lo <= i < hi -> P i s -> P (i + 1) (body i s)) ->
  P hi (for_pure lo hi body s).
Proof.
  intros Hle HP Hbody. unfold for_pure.
  replace hi with (lo + Z.of_nat (Z.to_nat (hi - lo))) at 1 by lia.
  apply for_loop_pure_inv; [exact HP|].
  intros i t Hi. apply Hbody. lia.
Qed.

Lemma for_pure_empty {T} lo hi (body : Z -> T -> T) s :
  hi <= lo -> for_pure lo hi body s = s.
Proof.
  intros H. unfold for_pure. replace (Z.to_nat (hi - lo)) with O by lia. reflexivity.
Qed.

Lemma arr_get_put {V} (a : jsarray V) i j v :
  arr_get (arr_put a i v) j = if decide (i = j) then v else arr_get a j.
Proof.
  unfold arr_get, arr_put. simpl. destruct v as [x|]; destruct (decide (i = j)) as [->|Hne].
  - apply lookup_insert_eq.
  - apply lookup_insert_ne. exact Hne.
  - apply lookup_delete_eq.
  - apply lookup_delete_ne. exact Hne.
Qed.

Lemma arr_get_put_eq {V} (a : jsarray V) i v : arr_get (arr_put a i v) i = v.
Proof. rewrite arr_get_put. destruct (decide (i = i)); congruence. Qed.

Lemma arr_get_put_ne {V} (a : jsarray V) i j v :
  i <> j -> arr_get (arr_put a i v) j = arr_get a j.
Proof. intros H. rewrite arr_get_put. destruct (decide (i = j)); congruence. Qed.

Lemma arr_get_empty {V} i : arr_get (@arr_empty V) i = None.
Proof. apply lookup_empty. Qed.

Lemma alen_put {V} (a : jsarray V) i v :
  alen (arr_put a i v) = if 0 <=? i then Z.max (alen a) (i + 1) else alen a.
Proof. reflexivity. Qed.

Lemma mat_get_Ok {V} (m : matrix V) y x row :
  arr_get m y = Some row -> mat_get m y x = Ok (arr_get row x).
Proof. intros H. unfold mat_get. rewrite H. reflexivity. Qed.

Lemma mat_put_Ok {V} (m : matrix V) y x v row :
  arr_get m y = Some row ->
  mat_put m y x v = Ok (arr_put m y (Some (arr_put row x v))).
Proof. intros H. unfold mat_put. rewrite H. reflexivity. Qed.

Lemma mat_get_Ok_inv {V} (m : matrix V) y x v :
  mat_get m y x = Ok v -> exists row, arr_get m y = Some row /\ v = arr_get row x.
Proof.
  unfold mat_get. intros H. apply bind_Ok_inv in H as (row & Hrow & H).
  apply defined_Ok_inv in Hrow. injection H as <-. eauto.
Qed.

Lemma mat_put_Ok_inv {V} (m m' : matrix V) y x v :
  mat_put m y x v = Ok m' ->
  exists row, arr_get m y = Some row /\ m' = arr_put m y (Some (arr_put row x v)).
Proof.
  unfold mat_put. intros H. apply bind_Ok_inv in H as (row & Hrow & H).
  apply defined_Ok_inv in Hrow. injection H as <-. eauto.
Qed.

(** ** Methods: what a call leaves alone *)

Section Frames.
Context {num : Type} {N : JSNumber num}.

Lemma preserves_ret {A B} (f : Scissors num -> B) (a : A) : preserves f (mret a).
Proof. intros s. reflexivity. Qed.

Lemma preserves_get {B} (f : Scissors num -> B) : preserves f get.
Proof. intros s. reflexivity. Qed.

Lemma preserves_lift {A B} (f : Scissors num -> B) (r : res A) : preserves f (lift r).
Proof. intros s. reflexivity. Qed.

Lemma preserves_throw {A B} (f : Scissors num -> B) (e : exn) : preserves f (throw (A := A) e).
Proof. intros s. reflexivity. Qed.

Lemma preserves_modify {B} (f : Scissors num -> B) (g : Scissors num -> Scissors num) :
  (forall s, f (g s) = f s) -> preserves f (modify g).
Proof. intros H s. apply H. Qed.

Lemma preserves_bind {A A' B} (f : Scissors num -> B) (m : M num A) (k : A -> M num A') :
  preserves f m -> (forall a, preserves f (k a)) -> preserves f (m ≫= k).
Proof.
  intros Hm Hk s. unfold mbind, M_bind. specialize (Hm s).
  destruct (m s) as [[a|e] s1]; simpl in *.
  - rewrite Hk. exact Hm.
  - exact Hm.
Qed.

Lemma preserves_for_each {A B} (f : Scissors num -> B) (l : list A) (body : A -> M num unit) :
  (forall a, preserves f (body a)) -> preserves f (for_each l body).
Proof.
  intros H. induction l as [|a l IH]; simpl.
  - apply preserves_ret.
  - apply preserves_bind; [apply H|intros _; exact IH].
Qed.

End Frames.

Ltac frame_step :=
  first
    [ apply preserves_ret
    | apply preserves_get
    | apply preserves_lift
    | apply preserves_throw
    | apply preserves_modify; intros; reflexivity
    | apply preserves_bind; [|intros]
    | apply preserves_for_each; intros
    | match goal with
      | |- preserves _ (if ?b then _ else _) => destruct b
      | |- preserves _ (let '(_, _) := ?x in _) => destruct x
      | |- preserves _ (match ?x with _ => _ end) => destruct x
      end ].

Ltac frame := repeat frame_step.

Section Pause.
Context {num : Type} {N : JSNumber num}.

Lemma setData_preserves_working data : preserves working (setData (num := num) data).
Proof. unfold setData, setWorking. frame. Qed.

Lemma doTraining_preserves_working p : preserves working (doTraining (num := num) p).
Proof. unfold doTraining. frame. Qed.

Lemma doWork_paused (s : Scissors num) : working s = false -> doWork s = (Ok None, s).
Proof.
  intros H. unfold doWork, mbind, M_bind, get. simpl. rewrite H. reflexivity.
Qed.

Lemma repeat_doWork_paused n (s : Scissors num) :
  working s = false -> repeat_doWork n s = (replicate n (Ok None), s).
Proof.
  intros H. induction n as [|n IH]; simpl; [reflexivity|].
  rewrite (doWork_paused s H), IH. reflexivity.
Qed.

End Pause.

(** ** The engine run on test images *)

Section Runs.
Import Float64 Examples.
Local Open Scope float_scope.
#[local] Set Warnings "-inexact-float".

(** A closed statement about a run is decided by evaluation, one conjunct
    after the other: a conjunct may name what the one before it computed. *)
Ltac evaluate :=
  cbv zeta;
  lazymatch goal with
  | |- _ /\ _ => split; [evaluate|evaluate]
  | |- exists _, _ => eexists; evaluate
  | |- _ => vm_compute; reflexivity
  end.

(** C1, as stated, fails on the 6x6 step edge searched from the seed (3, 2):
    the pixel (2, 3) is popped in the fourth pass of the loop of [doWork], with
    the cost 0.485 and the seed as parent; the fifth pass pops (3, 3), at cost
    0, and its relaxation of the edge to (2, 3) lowers the cost of that visited
    pixel to 0.377 and replaces its parent, so that one call of [doWork]
    finalizes (2, 3) twice. *)
Lemma C1_counterexample :
  let q := mkPoint 2 3 in
  let s4 := snd (passes 4 step_edge_search) in
  let s5 := snd (passes 5 step_edge_search) in
  fst (passes 5 step_edge_search) = Ok tt /\
  cell (visited s4) q = Some true /\
  cell (parents s4) q = Some (mkPoint 3 2) /\
  cell (cost s4) q = Some 0.48499999999999999 /\
  cell (visited s5) q = Some true /\
  cell (parents s5) q = Some (mkPoint 3 3) /\
  cell (cost s5) q = Some 0.37738924924354877 /\
  (exists batch, fst (doWork step_edge_search) = Ok (Some batch) /\
     filter (fun e => fst e = q) batch
     = [(q, Some (mkPoint 3 2)); (q, Some (mkPoint 3 3))]).
Proof. evaluate. Qed.

(** C2, as stated, fails on the 6x6 step edge: at the interior pixel (3, 2)
    the stencil is 5, above the threshold 0.33, and the field is 0 there,
    not 1; and the border pixel (0, 0) has no entry at all. *)
Lemma C2_counterexample :
  exists g l,
    computeGreyscale step_edge 6 6 = Ok g /\
    computeLaplace g = Ok l /\
    greyscale_laplace g 3 2 = Ok 5 /\
    (ratio 33 100 <# 5)%js = true /\
    cell (Some l) (mkPoint 3 2) = Some 0 /\
    cell (Some l) (mkPoint 0 0) = None.
Proof. evaluate. Qed.

(** C3. The constructor reads the misspelt property [earchGranBits], which
    is undefined, so [searchGran] is 1 << 0 = 1 and not 2^8 = 256; [setPoint]
    hands this multiplier to the queue, whose cost closure then quantizes the
    cost 0.485 to bucket 0, where 256 would give bucket 124. *)
Lemma C3_searchGran_is_one :
  searchGranBits (Scissors_new (num := float)) = 8%Z /\
  searchGran (Scissors_new (num := float)) = 1%Z /\
  (exists q, pq step_edge_search = Some q /\
     bq_bits q = 8%Z /\ length (buckets q) = 256%nat /\
     pq_searchGran q = Some 1%Z) /\
  nround (of_Z 1 ⊗ 0.485)%js = 0 /\
  nround (of_Z 256 ⊗ 0.485)%js = 124.
Proof. evaluate. Qed.

(** C5. On the 3x2 image [wide] the last column of the gradient field is a
    copy of column 0 (the column of index height - 2), not of column 1: the
    entries of row 0 are 0, 0.6, 0.  On the 2x3 image [tall] the last column
    is copied from itself before it is written, and normalizes to NaN. *)
Lemma C5_last_column_of_gradient :
  (exists g gr,
     computeGreyscale wide 3 2 = Ok g /\ computeGradient g = Ok gr /\
     cell (Some gr) (mkPoint 1 0) = Some 0.59999999999999998 /\
     cell (Some gr) (mkPoint 2 0) = Some 0 /\
     cell (Some gr) (mkPoint 0 0) = Some 0) /\
  (exists g gr,
     computeGreyscale tall 2 3 = Ok g /\ computeGradient g = Ok gr /\
     cell (Some gr) (mkPoint 0 0) = Some 0 /\
     cell (Some gr) (mkPoint 1 0) = Some nan).
Proof. evaluate. Qed.

(** C9, as stated, fails once the dimensions are set to 1x1: [setData]
    throws a TypeError, in [computeGradY].  It fails too with the dimensions
    2x2 and a buffer that holds no sample: the fields are NaN and
    [computeSides] reads a row of index NaN. *)
Lemma C9_counterexample :
  fst (fresh (setDimensions 1 1;; setData [0; 0; 0; 255]%Z)) = Throw TypeError /\
  (exists g, computeGreyscale (num := float) [0; 0; 0; 255]%Z 1 1 = Ok g /\
     computeGradY g = Throw TypeError) /\
  fst (fresh (setDimensions 2 2;; setData [])) = Throw TypeError /\
  (exists g gx gy,
     computeGreyscale (num := float) [] 2 2 = Ok g /\
     computeGradX g = Ok gx /\ computeGradY g = Ok gy /\
     computeSides 2 gx gy g = Throw TypeError).
Proof. evaluate. Qed.

End Runs.

(** ** Loops that fill an array *)

Lemma for_loop_pure_snoc {T} (body : Z -> T -> T) n lo s :
  for_loop_pure (S n) lo body s = body (lo + Z.of_nat n) (for_loop_pure n lo body s).
Proof.
  revert lo s. induction n as [|n IH]; intros lo s.
  - simpl. rewrite Z.add_0_r. reflexivity.
  - change (for_loop_pure (S (S n)) lo body s)
      with (for_loop_pure (S n) (lo + 1) body (body lo s)).
    rewrite IH. simpl. f_equal. lia.
Qed.

Lemma for_pure_snoc {T} (body : Z -> T -> T) lo hi s :
  lo <= hi -> for_pure lo (hi + 1) body s = body hi (for_pure lo hi body s).
Proof.
  intros H. unfold for_pure.
  replace (Z.to_nat (hi + 1 - lo)) with (S (Z.to_nat (hi - lo))) by lia.
  rewrite for_loop_pure_snoc. f_equal. lia.
Qed.

Lemma for_range_family {T} (st : Z -> T) lo hi (body : Z -> T -> res T) :
  (forall i, lo <= i < hi -> body i (st i) = Ok (st (i + 1))) ->
  for_range lo hi body (st lo) = Ok (st (Z.max lo hi)).
Proof.
  intros Hbody. destruct (Z_le_gt_dec hi lo) as [Hle|Hgt].
  - rewrite for_range_empty by lia. replace (Z.max lo hi) with lo by lia. reflexivity.
  - replace (Z.max lo hi) with hi by lia.
    destruct (for_range_inv (fun i s => s = st i) lo hi body (st lo)) as (s & Hs & ->);
      [lia|reflexivity| |exact Hs].
    intros i s Hi ->. eauto.
Qed.

Lemma tabulate_empty {V} lo hi (F : Z -> option V) a : hi <= lo -> tabulate lo hi F a = a.
Proof. apply for_pure_empty. Qed.

Lemma tabulate_snoc {V} lo hi (F : Z -> option V) a :
  lo <= hi -> tabulate lo (hi + 1) F a = arr_put (tabulate lo hi F a) hi (F hi).
Proof. intros H. unfold tabulate. rewrite for_pure_snoc by exact H. reflexivity. Qed.

Lemma tabulate_max {V} lo hi (F : Z -> option V) a :
  tabulate lo (Z.max lo hi) F a = tabulate lo hi F a.
Proof.
  destruct (Z_le_gt_dec hi lo).
  - rewrite !tabulate_empty by lia. reflexivity.
  - f_equal. lia.
Qed.

Lemma tabulate_get {V} lo hi (F : Z -> option V) a j :
  arr_get (tabulate lo hi F a) j = if decide (lo <= j < hi) then F j else arr_get a j.
Proof.
  destruct (Z_le_gt_dec hi lo) as [Hle|Hgt].
  { rewrite tabulate_empty by lia. destruct (decide (lo <= j < hi)); [lia|reflexivity]. }
  unfold tabulate.
  refine (for_pure_inv (fun i b =>
    arr_get b j = if decide (lo <= j < i) then F j else arr_get a j)
    lo hi _ a _ _ _); [lia| |].
  - destruct (decide (lo <= j < lo)); [lia|reflexivity].
  - intros i b Hi IH. rewrite arr_get_put.
    destruct (decide (i = j)) as [->|Hne].
    + destruct (decide (lo <= j < j + 1)); [reflexivity|lia].
    + rewrite IH. destruct (decide (lo <= j < i)), (decide (lo <= j < i + 1));
        try reflexivity; lia.
Qed.

Lemma tabulate_alen {V} lo hi (F : Z -> option V) a :
  0 <= lo -> alen (tabulate lo hi F a) = if lo <? hi then Z.max (alen a) hi else alen a.
Proof.
  intros Hlo. destruct (Z_le_gt_dec hi lo) as [Hle|Hgt].
  { rewrite tabulate_empty by lia. destruct (lo <? hi) eqn:E; [lia|reflexivity]. }
  unfold tabulate.
  refine (for_pure_inv (fun i b =>
    alen b = if lo <? i then Z.max (alen a) i else alen a) lo hi _ a _ _ _); [lia| |].
  - rewrite Z.ltb_irrefl. reflexivity.
  - intros i b Hi IH. rewrite alen_put, IH.
    destruct (0 <=? i) eqn:E0; [|lia].
    destruct (lo <? i) eqn:E1, (lo <? i + 1) eqn:E2; lia.
Qed.

Lemma arr_put_put {V} (a : jsarray V) i v v' :
  arr_put (arr_put a i v) i v' = arr_put a i v'.
Proof.
  unfold arr_put. simpl. f_equal.
  - destruct v, v'; simpl.
    + apply insert_insert_eq.
    + apply delete_insert_eq.
    + apply insert_delete_eq.
    + apply delete_delete_eq.
  - destruct (0 <=? i); lia.
Qed.

Lemma mat_put_at {V} (m : matrix V) y row x v :
  mat_put (arr_put m y (Some row)) y x v = Ok (arr_put m y (Some (arr_put row x v))).
Proof.
  rewrite (mat_put_Ok _ y x v row) by apply arr_get_put_eq.
  rewrite arr_put_put. reflexivity.
Qed.

Lemma mat_get_at {V} (m : matrix V) y row x :
  mat_get (arr_put m y (Some row)) y x = Ok (arr_get row x).
Proof. apply mat_get_Ok. apply arr_get_put_eq. Qed.

Lemma row_length_at {V} (m : matrix V) y row :
  row_length (arr_put m y (Some row)) y = Ok (alen row).
Proof. unfold row_length. rewrite arr_get_put_eq. reflexivity. Qed.

Lemma has_rows_put {V} (m : matrix V) h y r :
  has_rows m h -> has_rows (arr_put m y (Some r)) h.
Proof.
  intros H y' Hy'. rewrite arr_get_put. destruct (decide (y = y')); [eauto|auto].
Qed.

Lemma row_length_Ok {V} (m : matrix V) y row :
  arr_get m y = Some row -> row_length m y = Ok (alen row).
Proof. intros H. unfold row_length. rewrite H. reflexivity. Qed.

Lemma arr_put_comm {V} (a : jsarray V) i j v w :
  i <> j -> arr_put (arr_put a i v) j w = arr_put (arr_put a j w) i v.
Proof.
  intros Hne. unfold arr_put. simpl. f_equal.
  - destruct v, w; simpl.
    + apply insert_insert_ne. congruence.
    + symmetry. apply insert_delete_ne. congruence.
    + apply insert_delete_ne. congruence.
    + apply delete_delete.
  - destruct (0 <=? i), (0 <=? j); lia.
Qed.

Lemma arr_put_same {V} (a : jsarray V) i r :
  arr_get a i = Some r -> (0 <= i -> i < alen a) -> arr_put a i (Some r) = a.
Proof.
  intros Hget Hlen. destruct a as [e l]. unfold arr_put, arr_get in *. simpl in *. f_equal.
  - apply insert_id. exact Hget.
  - destruct (0 <=? i) eqn:E; lia.
Qed.

(** ** The closed forms of the greyscale and of its differences *)

Section GreyscaleFacts.
Context {num : Type} {N : JSNumber num}.

Lemma computeGreyscale_eq (data : list Z) (width height : Z) :
  computeGreyscale data width height = Ok (greyscale_of data width height).
Proof.
  unfold computeGreyscale, greyscale_of.
  set (F := fun y : Z =>
    Some (tabulate 0 width (fun x => Some (grey_value data width x y)) arr_empty)).
  rewrite <- (tabulate_max 0 height F).
  rewrite <- (tabulate_empty 0 0 F arr_empty) at 1 by lia.
  apply (for_range_family (fun y => tabulate 0 y F arr_empty)).
  intros y Hy. cbv beta zeta.
  set (Fx := fun x : Z => Some (grey_value data width x y)).
  rewrite <- (tabulate_empty 0 0 Fx arr_empty) at 1 by lia.
  rewrite (for_range_family
    (fun x => arr_put (tabulate 0 y F arr_empty) y (Some (tabulate 0 x Fx arr_empty)))).
  - rewrite tabulate_max, tabulate_snoc by lia. reflexivity.
  - intros x Hx. rewrite mat_put_at, tabulate_snoc by lia. reflexivity.
Qed.

Lemma greyscale_of_row data width height y :
  0 <= y < height ->
  arr_get (greyscale_of data width height) y
  = Some (tabulate 0 width (fun x => Some (grey_value data width x y)) arr_empty).
Proof.
  intros Hy. unfold greyscale_of. rewrite tabulate_get.
  destruct (decide (0 <= y < height)); [reflexivity|lia].
Qed.

Lemma greyscale_of_alen data width height :
  alen (greyscale_of data width height) = Z.max 0 height.
Proof.
  unfold greyscale_of. rewrite tabulate_alen by lia.
  destruct (0 <? height) eqn:E; simpl; lia.
Qed.

Lemma greyscale_of_has_rows data width height :
  has_rows (greyscale_of data width height) (alen (greyscale_of data width height)).
Proof.
  intros y Hy. rewrite greyscale_of_alen in Hy.
  rewrite greyscale_of_row by lia. eauto.
Qed.

Lemma row_of_Some (m : field num) y row : arr_get m y = Some row -> row_of m y = row.
Proof. intros H. unfold row_of. rewrite H. reflexivity. Qed.

Lemma greyscale_dx_Ok (g : field num) x y :
  is_Some (arr_get g y) -> greyscale_dx g x y = Ok (dx_value g x y).
Proof.
  intros [row Hrow]. unfold greyscale_dx, dx_value.
  rewrite (row_of_Some g y row Hrow), Hrow. reflexivity.
Qed.

Lemma greyscale_dy_Ok (g : field num) x y :
  has_rows g (alen g) -> 0 <= y -> y + 1 < alen g ->
  greyscale_dy g x y = Ok (dy_value g x y).
Proof.
  intros Hrows Hy0 Hy. unfold greyscale_dy, dy_value.
  destruct (y + 1 =? alen g) eqn:E; [lia|].
  destruct (Hrows y ltac:(lia)) as [r0 Hr0].
  destruct (Hrows (y + 1) ltac:(lia)) as [r1 Hr1].
  rewrite (mat_get_Ok g y x r0 Hr0), (mat_get_Ok g (y + 1) x r1 Hr1).
  rewrite (row_of_Some g y r0 Hr0), (row_of_Some g (y + 1) r1 Hr1). reflexivity.
Qed.

Lemma computeGradX_eq (g : field num) :
  has_rows g (alen g) -> computeGradX g = Ok (gradX_of g).
Proof.
  intros Hrows. unfold computeGradX, gradX_of.
  set (F := fun y : Z => Some (gradX_row g y)).
  rewrite <- (tabulate_max 0 (alen g) F).
  rewrite <- (tabulate_empty 0 0 F arr_empty) at 1 by lia.
  apply (for_range_family (fun y => tabulate 0 y F arr_empty)).
  intros y Hy. cbv beta zeta.
  destruct (Hrows y Hy) as [row Hrow].
  rewrite (row_length_Ok g y row Hrow). rewrite !bind_Ok.
  set (Fx := fun x : Z => Some (dx_value g x y)).
  rewrite <- (tabulate_empty 0 0 Fx arr_empty) at 1 by lia.
  rewrite (for_range_family
    (fun x => arr_put (tabulate 0 y F arr_empty) y (Some (tabulate 0 x Fx arr_empty)))).
  - rewrite !bind_Ok, mat_get_at.
    rewrite bind_Ok, mat_put_at.
    rewrite tabulate_snoc by lia. subst F. cbv beta. unfold gradX_row.
    rewrite (row_of_Some g y row Hrow), !tabulate_max. reflexivity.
  - intros x Hx. rewrite greyscale_dx_Ok by eauto.
    rewrite bind_Ok, mat_put_at, tabulate_snoc by lia. reflexivity.
Qed.

Lemma computeGradY_eq (g : field num) :
  has_rows g (alen g) -> 2 <= alen g -> computeGradY g = Ok (gradY_of g).
Proof.
  intros Hrows Hlen. unfold computeGradY, gradY_of.
  set (F := fun y : Z => Some (gradY_row g y)).
  rewrite <- (tabulate_empty 0 0 F arr_empty) at 1 by lia.
  rewrite (for_range_family (fun y => tabulate 0 y F arr_empty)).
  - rewrite bind_Ok, tabulate_max.
    destruct (Hrows 0 ltac:(lia)) as [row0 Hrow0].
    rewrite (row_length_Ok g 0 row0 Hrow0), bind_Ok, (row_of_Some g 0 row0 Hrow0).
    set (gy := tabulate 0 (alen g - 1) F arr_empty).
    assert (Hsrc : arr_get gy (alen g - 2) = Some (gradY_row g (alen g - 2))).
    { unfold gy. rewrite tabulate_get.
      destruct (decide (0 <= alen g - 2 < alen g - 1)); [reflexivity|lia]. }
    set (Fi := fun i : Z => arr_get (row_of gy (alen g - 2)) i).
    rewrite <- (tabulate_empty 0 0 Fi arr_empty) at 1 by lia.
    rewrite (for_range_family
      (fun i => arr_put gy (alen g - 1) (Some (tabulate 0 i Fi arr_empty)))).
    + rewrite tabulate_max. reflexivity.
    + intros i Hi.
      rewrite (mat_get_Ok _ (alen g - 2) i (gradY_row g (alen g - 2))).
      * rewrite bind_Ok, mat_put_at, tabulate_snoc by lia.
        subst Fi. cbv beta. rewrite (row_of_Some gy _ _ Hsrc). reflexivity.
      * rewrite arr_get_put_ne by lia. exact Hsrc.
  - intros y Hy. cbv beta zeta.
    destruct (Hrows y ltac:(lia)) as [row Hrow].
    rewrite (row_length_Ok g y row Hrow), bind_Ok.
    set (Fx := fun x : Z => Some (dy_value g x y)).
    rewrite <- (tabulate_empty 0 0 Fx arr_empty) at 1 by lia.
    rewrite (for_range_family
      (fun x => arr_put (tabulate 0 y F arr_empty) y (Some (tabulate 0 x Fx arr_empty)))).
    + rewrite tabulate_max, tabulate_snoc by lia. subst F. cbv beta.
      unfold gradY_row. rewrite (row_of_Some g y row Hrow). reflexivity.
    + intros x Hx. rewrite greyscale_dy_Ok by (auto; lia).
      rewrite bind_Ok, mat_put_at, tabulate_snoc by lia. reflexivity.
Qed.

End GreyscaleFacts.

(** ** The closed form of the Laplace field *)

Section LaplaceClosedForm.
Context {num : Type} {N : JSNumber num}.

Lemma greyscale_laplace_Ok (g : field num) x y :
  has_rows g (alen g) -> 2 <= y -> y + 2 < alen g ->
  greyscale_laplace g x y = Ok (stencil g x y).
Proof.
  intros Hrows Hy0 Hy. unfold greyscale_laplace, stencil.
  assert (Hrd : forall y' x', 0 <= y' < alen g ->
            (v ← mat_get g y' x'; Ok (ToNumber v))
            = Ok (ToNumber (arr_get (row_of g y') x'))).
  { intros y' x' Hy'. destruct (Hrows y' Hy') as [r Hr].
    rewrite (mat_get_Ok g y' x' r Hr), (row_of_Some g y' r Hr). reflexivity. }
  cbv zeta. rewrite !Hrd by lia. reflexivity.
Qed.

Lemma pad_two_rows {V} (m : matrix V) a b ra rb lo hi (v : option V) :
  a <> b ->
  for_range lo hi (fun i l => l ← mat_put l a i v; mat_put l b i v)
    (arr_put (arr_put m a (Some ra)) b (Some rb))
  = Ok (arr_put (arr_put m a (Some (tabulate lo hi (fun _ => v) ra))) b
          (Some (tabulate lo hi (fun _ => v) rb))).
Proof.
  intros Hab.
  rewrite <- (tabulate_max lo hi (fun _ => v) ra), <- (tabulate_max lo hi (fun _ => v) rb).
  rewrite <- (tabulate_empty lo lo (fun _ => v) ra) at 1 by lia.
  rewrite <- (tabulate_empty lo lo (fun _ => v) rb) at 1 by lia.
  apply (for_range_family (fun i =>
    arr_put (arr_put m a (Some (tabulate lo i (fun _ => v) ra))) b
      (Some (tabulate lo i (fun _ => v) rb)))).
  intros i Hi. rewrite (arr_put_comm _ a b) by exact Hab.
  rewrite mat_put_at, bind_Ok, (arr_put_comm _ b a) by congruence.
  rewrite mat_put_at, !tabulate_snoc by lia. reflexivity.
Qed.

Lemma computeLaplace_eq (g : field num) :
  has_rows g (alen g) -> computeLaplace g = Ok (laplace_of g).
Proof.
  intros Hrows. unfold computeLaplace, laplace_of. cbv zeta.
  rewrite pad_two_rows by lia. rewrite bind_Ok. fold (pad_row (alen g)).
  set (l1 := arr_put (arr_put arr_empty 0 (Some (pad_row (alen g)))) 1
               (Some (pad_row (alen g)))).
  set (F := fun y : Z => Some (laplace_row g y)).
  rewrite <- (tabulate_empty 2 2 F l1) at 1 by lia.
  rewrite (for_range_family (fun y => tabulate 2 y F l1)).
  - rewrite bind_Ok, tabulate_max, pad_two_rows by lia. reflexivity.
  - intros y Hy. cbv beta.
    rewrite !mat_put_at, !bind_Ok, !mat_put_at, !bind_Ok.
    destruct (Hrows y ltac:(lia)) as [row Hrow].
    rewrite (row_length_Ok g y row Hrow), !bind_Ok.
    set (Fx := fun x : Z => Some (threshold (stencil g x y))).
    set (r0 := arr_put (arr_put arr_empty 0 (Some (of_Z 1))) 1 (Some (of_Z 1))).
    rewrite <- (tabulate_empty 2 2 Fx r0) at 1 by lia.
    rewrite (for_range_family
      (fun x => arr_put (tabulate 2 y F l1) y (Some (tabulate 2 x Fx r0)))).
    + rewrite !bind_Ok, !mat_put_at, !bind_Ok, !mat_put_at, tabulate_snoc by lia.
      subst F. cbv beta. unfold laplace_row.
      rewrite (row_of_Some g y row Hrow), !tabulate_max. reflexivity.
    + intros x Hx. rewrite greyscale_laplace_Ok by (auto; lia).
      rewrite bind_Ok, mat_put_at, tabulate_snoc by lia. reflexivity.
Qed.

End LaplaceClosedForm.

(** ** The Laplace field (C2) *)

Section LaplaceFacts.
Context {num : Type} {N : JSNumber num}.

Lemma cell_Some {V} (m : matrix V) x y :
  cell (Some m) (mkPoint x y) = row ← arr_get m y; arr_get row x.
Proof. reflexivity. Qed.

Lemma greyscale_of_row_alen data width height y :
  0 <= y < height ->
  alen (row_of (greyscale_of data width height) y) = Z.max 0 width.
Proof.
  intros Hy. rewrite (row_of_Some _ _ _ (greyscale_of_row data width height y Hy)).
  rewrite tabulate_alen by lia. destruct (0 <? width) eqn:E; simpl; lia.
Qed.

Lemma laplace_row_get (g : field num) y x :
  0 <= x < alen (row_of g y) ->
  arr_get (laplace_row g y) x
  = Some (if (2 <=? x) && (x <? alen (row_of g y) - 2)
          then threshold (stencil g x y) else of_Z 1).
Proof.
  intros Hx. unfold laplace_row. cbv zeta.
  rewrite !arr_get_put, tabulate_get, !arr_get_put, arr_get_empty.
  repeat case_decide;
    destruct (2 <=? x) eqn:E1; destruct (x <? alen (row_of g y) - 2) eqn:E2;
    simpl; try reflexivity; lia.
Qed.

Lemma laplace_row_binary (g : field num) y x v :
  arr_get (laplace_row g y) x = Some v -> v = of_Z 0 \/ v = of_Z 1.
Proof.
  unfold laplace_row. cbv zeta.
  rewrite !arr_get_put, tabulate_get, !arr_get_put, arr_get_empty.
  repeat case_decide; intros Hv; try discriminate; injection Hv as <-; auto.
  unfold threshold. destruct (_ <# _); auto.
Qed.

Lemma pad_row_binary glen x (v : num) :
  arr_get (pad_row glen) x = Some v -> v = of_Z 0 \/ v = of_Z 1.
Proof.
  unfold pad_row. rewrite tabulate_get, arr_get_empty.
  case_decide; intros Hv; [injection Hv as <-; auto|discriminate].
Qed.

Lemma laplace_of_binary (g : field num) p v :
  cell (Some (laplace_of g)) p = Some v -> v = of_Z 0 \/ v = of_Z 1.
Proof.
  destruct p as [x y]. rewrite cell_Some. unfold laplace_of. cbv zeta.
  rewrite !arr_get_put, tabulate_get, !arr_get_put, arr_get_empty.
  repeat case_decide; simpl; intros Hv;
    eauto using pad_row_binary, laplace_row_binary; discriminate.
Qed.

Lemma laplace_of_interior_row (g : field num) y :
  2 <= y < alen g - 2 -> arr_get (laplace_of g) y = Some (laplace_row g y).
Proof.
  intros Hy. unfold laplace_of. cbv zeta.
  rewrite !arr_get_put, tabulate_get. repeat case_decide; try lia. reflexivity.
Qed.

(** C2, amended.  In every row that is at least two rows from the top and
    from the bottom of the image, the Laplace field is 0 where the 13-tap
    stencil exceeds 0.33 and 1 where it does not, for the pixels at least two
    columns from the left and from the right, and is 1 in the two leftmost and
    the two rightmost columns; and every entry the field holds is 0 or 1. *)
Theorem C2_laplace_field (data : list Z) (width height : Z) :
  exists g l,
    computeGreyscale data width height = Ok g /\
    computeLaplace g = Ok l /\
    (forall x y, 2 <= y < height - 2 -> 2 <= x < width - 2 ->
       exists lap, greyscale_laplace g x y = Ok lap /\
         cell (Some l) (mkPoint x y)
         = Some (if ratio 33 100 <# lap then of_Z 0 else of_Z 1)) /\
    (forall x y, 2 <= y < height - 2 -> 0 <= x < width ->
       x < 2 \/ width - 2 <= x ->
       cell (Some l) (mkPoint x y) = Some (of_Z 1)) /\
    (forall p v, cell (Some l) p = Some v -> v = of_Z 0 \/ v = of_Z 1).
Proof.
  exists (greyscale_of data width height), (laplace_of (greyscale_of data width height)).
  pose proof (greyscale_of_has_rows (num := num) data width height) as Hrows.
  pose proof (greyscale_of_alen (num := num) data width height) as Hlen.
  split; [apply computeGreyscale_eq|].
  split; [apply computeLaplace_eq; exact Hrows|].
  split; [|split].
  - intros x y Hy Hx. exists (stencil (greyscale_of data width height) x y).
    split; [apply greyscale_laplace_Ok; [exact Hrows|lia|lia]|].
    rewrite cell_Some, laplace_of_interior_row by lia. simpl.
    rewrite laplace_row_get by (rewrite greyscale_of_row_alen; lia).
    rewrite greyscale_of_row_alen by lia.
    destruct (2 <=? x) eqn:E1; [|lia].
    destruct (x <? Z.max 0 width - 2) eqn:E2; [|lia]. reflexivity.
  - intros x y Hy Hx Hb.
    rewrite cell_Some, laplace_of_interior_row by lia. simpl.
    rewrite laplace_row_get by (rewrite greyscale_of_row_alen; lia).
    rewrite greyscale_of_row_alen by lia.
    destruct (2 <=? x) eqn:E1; [|reflexivity].
    destruct (x <? Z.max 0 width - 2) eqn:E2; [lia|reflexivity].
  - apply laplace_of_binary.
Qed.

End LaplaceFacts.

(** ** The closed form of the gradient field *)

Section GradientFacts.
Context {num : Type} {N : JSNumber num}.

Lemma for_pure_max {T} lo hi (body : Z -> T -> T) s :
  for_pure lo (Z.max lo hi) body s = for_pure lo hi body s.
Proof.
  destruct (Z_le_gt_dec hi lo).
  - rewrite !for_pure_empty by lia. reflexivity.
  - f_equal. lia.
Qed.

Lemma greyscale_gradMagnitude_Ok (g : field num) x y :
  has_rows g (alen g) -> 0 <= y -> y + 1 < alen g ->
  greyscale_gradMagnitude g x y = Ok (gm_value g x y).
Proof.
  intros Hrows Hy0 Hy. unfold greyscale_gradMagnitude, gm_value.
  rewrite greyscale_dx_Ok by (apply Hrows; lia).
  rewrite bind_Ok, greyscale_dy_Ok by auto.
  reflexivity.
Qed.

Lemma raw_gradient_alen (g : field num) : 1 <= alen g -> alen (raw_gradient g) = alen g.
Proof.
  intros H. unfold raw_gradient. cbv zeta. rewrite alen_put, tabulate_alen by lia.
  destruct (0 <=? alen g - 1) eqn:E; [|lia].
  destruct (0 <? alen g - 1) eqn:E'; simpl; lia.
Qed.

Lemma raw_gradient_row (g : field num) y :
  0 <= y < alen g - 1 -> arr_get (raw_gradient g) y = Some (raw_row g y).
Proof.
  intros Hy. unfold raw_gradient. cbv zeta. rewrite arr_get_put_ne by lia.
  rewrite tabulate_get. case_decide; [reflexivity|lia].
Qed.

Lemma raw_gradient_has_rows (g : field num) :
  1 <= alen g -> has_rows (raw_gradient g) (alen g).
Proof.
  intros H y Hy. destruct (decide (y = alen g - 1)) as [->|Hne].
  - unfold raw_gradient. cbv zeta. rewrite arr_get_put_eq. eauto.
  - rewrite raw_gradient_row by lia. eauto.
Qed.

Lemma computeGradient_eq (g : field num) :
  has_rows g (alen g) -> 1 <= alen g -> computeGradient g = Ok (gradient_of g).
Proof.
  intros Hrows Hlen. unfold computeGradient. cbv zeta.
  set (F := fun y : Z => Some (raw_row g y)).
  (* the magnitudes and their maximum *)
  rewrite <- (tabulate_empty 0 0 F arr_empty) at 1 by lia.
  change (of_Z 0) with (max_upto g 0) at 1.
  rewrite (for_range_family (fun y => (tabulate 0 y F arr_empty, max_upto g y))).
  2:{ intros y Hy. cbv beta iota zeta.
      destruct (Hrows y ltac:(lia)) as [row Hrow].
      rewrite (row_length_Ok g y row Hrow), !bind_Ok.
      set (Fx := fun x : Z => Some (gm_value g x y)).
      set (Mx := fun (x : Z) (mx : num) => nmax (gm_value g x y) mx).
      rewrite <- (tabulate_empty 0 0 Fx arr_empty) at 1 by lia.
      rewrite <- (for_pure_empty 0 0 Mx (max_upto g y)) at 1 by lia.
      rewrite (for_range_family (fun x =>
        (arr_put (tabulate 0 y F arr_empty) y (Some (tabulate 0 x Fx arr_empty)),
         for_pure 0 x Mx (max_upto g y)))).
      2:{ intros x Hx. cbv beta iota zeta.
          rewrite greyscale_gradMagnitude_Ok by (auto; lia).
          rewrite bind_Ok, mat_put_at, bind_Ok, mat_get_at, bind_Ok, arr_get_put_eq.
          rewrite tabulate_snoc, for_pure_snoc by lia. reflexivity. }
      rewrite !bind_Ok. cbv beta iota zeta.
      rewrite ?bind_Ok, mat_get_at, ?bind_Ok, mat_put_at, ?bind_Ok.
      rewrite tabulate_snoc by lia. unfold max_upto at 2.
      rewrite for_pure_snoc by lia. fold (max_upto g y).
      subst F. cbv beta. unfold raw_row, row_max.
      rewrite (row_of_Some g y row Hrow), !tabulate_max.
      rewrite for_pure_max. reflexivity. }
  rewrite bind_Ok. cbv beta iota zeta.
  rewrite tabulate_max. replace (Z.max 0 (alen g - 1)) with (alen g - 1) by lia.
  set (gr := tabulate 0 (alen g - 1) F arr_empty).
  set (gr1 := arr_put gr (alen g - 1) (Some arr_empty)).
  (* the last row *)
  assert (Hrow0 : is_Some (arr_get gr1 0)).
  { unfold gr1. rewrite arr_get_put. case_decide; [eauto|].
    unfold gr. rewrite tabulate_get. case_decide; [eauto|lia]. }
  destruct Hrow0 as [row0 Hrow0].
  rewrite (row_length_Ok gr1 0 row0 Hrow0), bind_Ok.
  set (Fi := fun i : Z => arr_get (row_of gr (alen g - 2)) i).
  assert (Hlast : for_range 0 (alen row0) (fun i gradient =>
      v ← mat_get gradient (alen g - 2) i; mat_put gradient (alen g - 1) i v) gr1
    = Ok (raw_gradient g)).
  { unfold raw_gradient. cbv zeta. fold F. fold gr. fold gr1.
    rewrite (row_of_Some gr1 0 row0 Hrow0). fold Fi.
    rewrite <- (tabulate_max 0 (alen row0) Fi).
    unfold gr1 at 1. rewrite <- (tabulate_empty 0 0 Fi arr_empty) at 1 by lia.
    apply (for_range_family (fun i =>
      arr_put gr (alen g - 1) (Some (tabulate 0 i Fi arr_empty)))).
    intros i Hi.
    assert (Hg2 : 2 <= alen g).
    { destruct (Z_le_gt_dec 2 (alen g)); [assumption|].
      assert (alen g = 1) as E by lia. exfalso.
      unfold gr1 in Hrow0. rewrite E in Hrow0. simpl in Hrow0.
      rewrite arr_get_put_eq in Hrow0. injection Hrow0 as <-. simpl in Hi. lia. }
    assert (Hsrc : arr_get gr (alen g - 2) = Some (raw_row g (alen g - 2))).
    { unfold gr. rewrite tabulate_get. case_decide; [reflexivity|lia]. }
    rewrite (mat_get_Ok _ (alen g - 2) i (raw_row g (alen g - 2)))
      by (rewrite arr_get_put_ne by lia; exact Hsrc).
    rewrite bind_Ok, mat_put_at, tabulate_snoc by lia.
    subst Fi. cbv beta. rewrite (row_of_Some gr _ _ Hsrc). reflexivity. }
  rewrite Hlast, bind_Ok.
  (* flip and scale *)
  unfold gradient_of. cbv zeta.
  set (raw := raw_gradient g). set (mx := max_upto g (alen g - 1)).
  set (G := fun y : Z => Some (flip_row mx (row_of raw y))).
  rewrite <- (tabulate_max 0 (alen raw) G).
  rewrite <- (tabulate_empty 0 0 G raw) at 1 by lia.
  apply (for_range_family (fun y => tabulate 0 y G raw)).
  intros y Hy.
  assert (Hraw : is_Some (arr_get raw y)).
  { apply raw_gradient_has_rows; [exact Hlen|].
    unfold raw in Hy. rewrite raw_gradient_alen in Hy by exact Hlen. exact Hy. }
  destruct Hraw as [r Hr].
  assert (Hcur : arr_get (tabulate 0 y G raw) y = Some r).
  { rewrite tabulate_get. case_decide; [lia|exact Hr]. }
  rewrite (row_length_Ok _ y r Hcur), bind_Ok.
  assert (Hylen : 0 <= y -> y < alen (tabulate 0 y G raw)).
  { intros _. rewrite tabulate_alen by lia. destruct (0 <? y); lia. }
  set (Gx := fun x : Z => Some (of_Z 1 ⊖ ToNumber (arr_get r x) ⊘ mx)).
  rewrite <- (arr_put_same (tabulate 0 y G raw) y r Hcur Hylen) at 1.
  rewrite <- (tabulate_empty 0 0 Gx r) at 1 by lia.
  rewrite (for_range_family (fun x =>
    arr_put (tabulate 0 y G raw) y (Some (tabulate 0 x Gx r)))).
  - rewrite tabulate_max, tabulate_snoc by lia. subst G. cbv beta.
    rewrite (row_of_Some raw y r Hr). reflexivity.
  - intros x Hx. rewrite mat_get_at, bind_Ok, mat_put_at, tabulate_get.
    case_decide; [lia|]. rewrite tabulate_snoc by lia. reflexivity.
Qed.

End GradientFacts.

(** ** The bucket queue *)

Lemma concat_insert_cons (bs : list (list Point)) i p l :
  bs !! i = Some (p :: l) -> concat bs ≡ₚ p :: concat (<[i := l]> bs).
Proof.
  revert i. induction bs as [|b bs IH]; intros [|i] H; try discriminate.
  - injection H as ->. reflexivity.
  - simpl in *. rewrite (IH i H). symmetry. apply Permutation_middle.
Qed.

Lemma concat_alter_snoc (bs : list (list Point)) i p :
  (i < length bs)%nat ->
  concat (alter (fun l => l ++ [p]) i bs) ≡ₚ p :: concat bs.
Proof.
  revert i. induction bs as [|b bs IH]; intros [|i] H; simpl in *; try lia.
  - rewrite <- app_assoc. simpl. symmetry. apply Permutation_middle.
  - change (list_alter ?f i bs) with (alter f i bs).
    rewrite IH by lia. symmetry. apply Permutation_middle.
Qed.

Lemma remove_first_subset (p x : Point) l : x ∈ remove_first p l -> x ∈ l.
Proof.
  induction l as [|a l IH]; simpl; [auto|].
  destruct (decide (a = p)).
  - intros H. right. exact H.
  - intros H. apply elem_of_cons in H as [->|H]; [left|right; auto].
Qed.

Lemma concat_alter_remove (bs : list (list Point)) i p x :
  x ∈ concat (alter (remove_first p) i bs) -> x ∈ concat bs.
Proof.
  revert i. induction bs as [|b bs IH]; intros [|i]; simpl; auto.
  - rewrite !elem_of_app. intros [H|H]; [left; eapply remove_first_subset; eauto|auto].
  - change (list_alter ?f i bs) with (alter f i bs).
    rewrite !elem_of_app. intros [H|H]; [auto|right; eapply IH; eauto].
Qed.

Lemma pq_isEmpty_false (q : BucketQueue) :
  pq_isEmpty q = false -> exists j p l, buckets q !! j = Some (p :: l).
Proof.
  unfold pq_isEmpty. induction (buckets q) as [|b bs IH]; simpl; [discriminate|].
  destruct b as [|p l].
  - simpl. intros H. destruct (IH H) as (j & p & l & Hj). exists (S j), p, l. exact Hj.
  - intros _. exists O, p, l. reflexivity.
Qed.

Lemma pq_isEmpty_true (q : BucketQueue) : pq_isEmpty q = true -> items q = [].
Proof.
  unfold pq_isEmpty, items. induction (buckets q) as [|b bs IH]; simpl; [reflexivity|].
  destruct b; simpl; [exact IH|discriminate].
Qed.

(** The rotating scan finds a bucket that is not empty when there is one
    within reach of its fuel. *)
Lemma pq_scan_finds (bs : list (list Point)) :
  forall d fuel i j p l,
    (i < length bs)%nat -> (j < length bs)%nat ->
    bs !! j = Some (p :: l) ->
    ((i + d) mod length bs = j)%nat -> (d < fuel)%nat ->
    exists k p' l', pq_scan fuel bs i = Some k /\ bs !! k = Some (p' :: l').
Proof.
  induction d as [|d IH]; intros fuel i j p l Hi Hj Hb Hd Hfuel.
  - rewrite Nat.add_0_r, Nat.mod_small in Hd by exact Hi. subst j.
    destruct fuel as [|fuel]; [lia|]. simpl. rewrite Hb. eauto.
  - destruct fuel as [|fuel]; [lia|]. simpl.
    destruct (bs !! i) as [[|p' l']|] eqn:E; eauto.
    + apply (IH fuel _ j p l); [apply Nat.mod_upper_bound; lia|exact Hj|exact Hb| |lia].
      rewrite Nat.Div0.add_mod_idemp_l.
      replace (i + 1 + d)%nat with (i + S d)%nat by lia. exact Hd.
    + apply lookup_ge_None in E. lia.
Qed.

Lemma pq_pop_total (q : BucketQueue) :
  queue_ok q -> pq_isEmpty q = false ->
  exists p q', pq_pop q = Ok (p, q') /\ items q ≡ₚ p :: items q' /\ queue_ok q'.
Proof.
  intros [Hlen Hloc] Hne.
  destruct (pq_isEmpty_false q Hne) as (j & p & l & Hj).
  assert (Hjlt : (j < length (buckets q))%nat) by (eapply lookup_lt_Some; eauto).
  destruct (pq_scan_finds (buckets q)
              ((j + length (buckets q) - loc q) mod length (buckets q))%nat
              (length (buckets q)) (loc q) j p l Hloc Hjlt Hj)
    as (k & p' & l' & Hscan & Hk).
  { rewrite Nat.Div0.add_mod_idemp_r.
    replace (loc q + (j + length (buckets q) - loc q))%nat
      with (j + 1 * length (buckets q))%nat by lia.
    rewrite Nat.Div0.mod_add. apply Nat.mod_small. exact Hjlt. }
  { apply Nat.mod_upper_bound. lia. }
  unfold pq_pop. rewrite Hscan, Hk. exists p'. eexists. split; [reflexivity|].
  split.
  - unfold items. simpl. apply concat_insert_cons. exact Hk.
  - split; simpl; rewrite length_insert; [exact Hlen|].
    eapply lookup_lt_Some; eauto.
Qed.

(** ** The cost function on an image *)

Section SearchFacts.
Context {num : Type} {N : JSNumber num}.

Lemma getBucket_total (q : BucketQueue) (c : field num) p :
  queue_ok q -> is_Some (arr_get c (py p)) ->
  exists b, getBucket q c p = Ok b /\ (b < length (buckets q))%nat.
Proof.
  intros [Hlen Hloc] [row Hrow]. unfold getBucket, pq_cost.
  rewrite (mat_get_Ok c (py p) (px p) row Hrow). rewrite !bind_Ok.
  eexists. split; [reflexivity|].
  assert (0 < 2 ^ bq_bits q) by lia.
  pose proof (Z.mod_pos_bound
    (default 0 (to_index (nround (ToNumber (of_Z <$> pq_searchGran q)
                                 ⊗ ToNumber (arr_get row (px p))))))
    (2 ^ bq_bits q) ltac:(lia)). lia.
Qed.

Lemma pq_push_total (q : BucketQueue) (c : field num) p :
  queue_ok q -> is_Some (arr_get c (py p)) ->
  exists q', pq_push q c p = Ok q' /\ items q' ≡ₚ p :: items q /\ queue_ok q'.
Proof.
  intros Hq Hrow. destruct (getBucket_total q c p Hq Hrow) as (b & Hb & Hlt).
  unfold pq_push. rewrite Hb, bind_Ok. eexists. split; [reflexivity|].
  split.
  - unfold items. simpl. apply concat_alter_snoc. exact Hlt.
  - destruct Hq as [Hlen Hloc]. split; simpl; rewrite length_alter; assumption.
Qed.

Lemma pq_remove_total (q : BucketQueue) (c : field num) p :
  queue_ok q -> is_Some (arr_get c (py p)) ->
  exists q', pq_remove q c p = Ok q' /\
    (forall x, x ∈ items q' -> x ∈ items q) /\ queue_ok q'.
Proof.
  intros Hq Hrow. destruct (getBucket_total q c p Hq Hrow) as (b & Hb & Hlt).
  unfold pq_remove. rewrite Hb, bind_Ok. eexists. split; [reflexivity|].
  split.
  - unfold items. simpl. intros x. apply concat_alter_remove.
  - destruct Hq as [Hlen Hloc]. split; simpl; rewrite length_alter; assumption.
Qed.

Lemma gradUnitVector_Ok (gx gy : field num) x y :
  is_Some (arr_get gx y) -> is_Some (arr_get gy y) ->
  gradUnitVector gx gy x y = Ok (unit_vector gx gy x y).
Proof.
  intros [rx Hrx] [ry Hry]. unfold gradUnitVector, unit_vector.
  rewrite (mat_get_Ok gx y x rx Hrx), (mat_get_Ok gy y x ry Hry).
  rewrite (row_of_Some gx y rx Hrx), (row_of_Some gy y ry Hry). reflexivity.
Qed.

Lemma gradDirection_Ok (gx gy : field num) px py qx qy :
  is_Some (arr_get gx py) -> is_Some (arr_get gy py) ->
  is_Some (arr_get gx qy) -> is_Some (arr_get gy qy) ->
  gradDirection gx gy px py qx qy = Ok (direction gx gy px py qx qy).
Proof.
  intros Hxp Hyp Hxq Hyq. unfold gradDirection, direction.
  rewrite !gradUnitVector_Ok by assumption. rewrite !bind_Ok.
  destruct (unit_vector gx gy px py) as [a b], (unit_vector gx gy qx qy) as [c d].
  cbv beta iota zeta.
  destruct (_ <# _); destruct (negb (px =? qx) && negb (py =? qy)); reflexivity.
Qed.

Lemma searching_fields (H W : Z) (s : Scissors num) :
  searching H W s -> image_fields H s.
Proof. intros Hs. constructor; apply Hs. Qed.

(** The cost of the edge from p to q on an object that is not trained. *)
Lemma dist_untrained (H W : Z) (s : Scissors num) p q :
  image_fields H s -> trained s = false ->
  in_image H W p -> in_image H W q ->
  exists gr l gx gy,
    gradient s = Some gr /\ laplace s = Some l /\ gradX s = Some gx /\ gradY s = Some gy /\
    dist s (px p) (py p) (px q) (py q)
    = Ok (let grad := ToNumber (cell (Some gr) q) in
          let grad := if (px p =? px q) || (py p =? py q)
                      then grad ⊗ SQRT1_2 else grad in
          ratio 43 100 ⊗ grad ⊕ ratio 43 100 ⊗ ToNumber (cell (Some l) q)
          ⊕ ratio 11 100 ⊗ direction gx gy (px p) (py p) (px q) (py q)).
Proof.
  intros Hs Htr [Hpx Hpy] [Hqx Hqy].
  destruct (if_gradient _ _ Hs) as (gr & Hgr & Hgrr).
  destruct (if_laplace _ _ Hs) as (l & Hl & Hlr).
  destruct (if_gradX _ _ Hs) as (gx & Hgx & Hgxr).
  destruct (if_gradY _ _ Hs) as (gy & Hgy & Hgyr).
  exists gr, l, gx, gy. repeat (split; [assumption|]).
  destruct (Hgrr _ Hqy) as [rg Hrg]. destruct (Hlr _ Hqy) as [rl Hrl].
  unfold dist, Scissors_gradDirection.
  rewrite Hgr, Hl, Hgx, Hgy, Htr. cbn [defined].
  rewrite !bind_Ok, (mat_get_Ok gr _ (px q) rg Hrg), !bind_Ok.
  rewrite (mat_get_Ok l _ (px q) rl Hrl), !bind_Ok.
  rewrite gradDirection_Ok by auto. rewrite bind_Ok.
  destruct q as [qx qy]. rewrite !cell_Some. simpl in Hrg, Hrl |- *.
  rewrite Hrg, Hrl. reflexivity.
Qed.

(** The cost of an edge between two pixels of the image is computed, on a
    trained object as on one that is not: every field, side and table that
    [dist] reads is there. *)
Lemma dist_total (H W : Z) (s : Scissors num) p q :
  searching H W s -> in_image H W p -> in_image H W q ->
  exists d, dist s (px p) (py p) (px q) (py q) = Ok d.
Proof.
  intros Hs Hp Hq.
  destruct (trained s) eqn:Htr.
  2:{ destruct (dist_untrained H W s p q (searching_fields H W s Hs) Htr Hp Hq)
        as (gr & l & gx & gy & _ & _ & _ & _ & Hd). eauto. }
  destruct Hp as [Hpx Hpy], Hq as [Hqx Hqy].
  destruct (sr_greyscale _ _ _ Hs) as (g & Hg & Hgr' & _).
  destruct (sr_gradient _ _ _ Hs) as (gr & Hgr & Hgrr).
  destruct (sr_laplace _ _ _ Hs) as (l & Hl & Hlr).
  destruct (sr_gradX _ _ _ Hs) as (gx & Hgx & Hgxr).
  destruct (sr_gradY _ _ _ Hs) as (gy & Hgy & Hgyr).
  destruct (sr_inside _ _ _ Hs) as (i & Hi & Hir).
  destruct (sr_outside _ _ _ Hs) as (o & Ho & Hor).
  destruct (sr_edgeTraining _ _ _ Hs) as [te Hte].
  destruct (sr_gradTraining _ _ _ Hs) as [tg Htg].
  destruct (sr_insideTraining _ _ _ Hs) as [ti Hti].
  destruct (sr_outsideTraining _ _ _ Hs) as [to Hto].
  destruct (Hgrr _ Hqy) as [rg Hrg]. destruct (Hlr _ Hqy) as [rl Hrl].
  destruct (Hgr' _ Hpy) as [re Hre]. destruct (Hir _ Hpy) as [ri Hri].
  destruct (Hor _ Hpy) as [ro Hro].
  unfold dist, Scissors_gradDirection, getTrainedGrad, getTrainedEdge,
    getTrainedInside, getTrainedOutside, getTrained.
  rewrite Hgr, Hl, Hgx, Hgy, Htr, Hg, Hi, Ho, Hte, Htg, Hti, Hto. cbn [defined].
  rewrite !bind_Ok, (mat_get_Ok gr _ (px q) rg Hrg), !bind_Ok.
  rewrite (mat_get_Ok l _ (px q) rl Hrl), !bind_Ok.
  rewrite gradDirection_Ok by auto. rewrite !bind_Ok.
  rewrite (mat_get_Ok g _ (px p) re Hre), !bind_Ok.
  rewrite (mat_get_Ok i _ (px p) ri Hri), !bind_Ok.
  rewrite (mat_get_Ok o _ (px p) ro Hro), !bind_Ok.
  eauto.
Qed.

End SearchFacts.

(** ** Running a method *)

(** Evaluation of a method on a state, one bind at a time. *)
Ltac run_M :=
  unfold mbind, M_bind, mret, M_ret, get, lift, modify, throw;
  cbn beta iota zeta delta
    [defined fst snd set_width set_height set_curPoint set_greyscale
     set_laplace set_gradient set_gradX set_gradY set_parents set_working
     set_trained set_trainingPoints set_edgeTraining set_gradTraining
     set_insideTraining set_outsideTraining set_inside set_outside
     set_visited set_cost set_pq set_timeout width height curPoint
     searchGranBits searchGran pointsPerPost greyscale laplace gradient gradX
     gradY parents working trained trainingPoints edgeWidth trainingLength
     edgeGran edgeTraining gradPointsNeeded gradGran gradTraining insideGran
     insideTraining outsideGran outsideTraining inside outside visited cost
     pq timeout].

Ltac run_M_in H :=
  unfold mbind, M_bind, mret, M_ret, get, lift, modify, throw in H;
  cbn beta iota zeta delta
    [defined fst snd set_width set_height set_curPoint set_greyscale
     set_laplace set_gradient set_gradX set_gradY set_parents set_working
     set_trained set_trainingPoints set_edgeTraining set_gradTraining
     set_insideTraining set_outsideTraining set_inside set_outside
     set_visited set_cost set_pq set_timeout width height curPoint
     searchGranBits searchGran pointsPerPost greyscale laplace gradient gradX
     gradY parents working trained trainingPoints edgeWidth trainingLength
     edgeGran edgeTraining gradPointsNeeded gradGran gradTraining insideGran
     insideTraining outsideGran outsideTraining inside outside visited cost
     pq timeout] in H.

(** ** One relaxation *)

Section Relax.
Context {num : Type} {N : JSNumber num}.

(** What [relax p q] does: nothing when the path through [p] is no
    cheaper, and else it writes the cost and the parent of [q] and queues [q]
    (again). *)
Lemma relax_cases (H W : Z) (s : Scissors num) p q :
  searching H W s -> in_image H W p -> in_image H W q ->
  exists c rp rq d,
    cost s = Some c /\ arr_get c (py p) = Some rp /\ arr_get c (py q) = Some rq /\
    dist s (px p) (py p) (px q) (py q) = Ok d /\
    let pqCost := ToNumber (arr_get rp (px p)) ⊕ d in
    ((pqCost <# ToNumber (arr_get rq (px q))) = false /\ relax p q s = (Ok tt, s)) \/
    ((pqCost <# ToNumber (arr_get rq (px q))) = true /\
     exists par rpar q0 q1 q2,
       parents s = Some par /\ arr_get par (py q) = Some rpar /\ pq s = Some q0 /\
       (forall x, x ∈ items q1 -> x ∈ items q0) /\
       items q2 ≡ₚ q :: items q1 /\ queue_ok q2 /\
       relax p q s
       = (Ok tt,
          set_pq (Some q2)
            (set_parents (Some (arr_put par (py q) (Some (arr_put rpar (px q) (Some p)))))
               (set_cost (Some (arr_put c (py q)
                                  (Some (arr_put rq (px q) (Some pqCost))))) s)))).
Proof.
  intros Hs Hp Hq.
  destruct (sr_cost _ _ _ Hs) as (c & Hc & Hcr).
  destruct (sr_parents _ _ _ Hs) as (par & Hpar & Hparr).
  destruct (sr_pq _ _ _ Hs) as (q0 & Hq0 & Hq0ok & Hq0in).
  destruct (Hcr (py p) (proj2 Hp)) as [rp Hrp].
  destruct (Hcr (py q) (proj2 Hq)) as [rq Hrq].
  destruct (Hparr (py q) (proj2 Hq)) as [rpar Hrpar].
  destruct (dist_total H W s p q Hs Hp Hq) as (d & Hd).
  exists c, rp, rq, d. split; [exact Hc|]. split; [exact Hrp|].
  split; [exact Hrq|]. split; [exact Hd|]. cbv zeta.
  set (pqCost := ToNumber (arr_get rp (px p)) ⊕ d).
  unfold relax. run_M. rewrite Hc. run_M.
  rewrite (mat_get_Ok c _ (px p) rp Hrp), Hd, (mat_get_Ok c _ (px q) rq Hrq).
  run_M. fold pqCost.
  destruct (pqCost <# ToNumber (arr_get rq (px q))) eqn:Hlt; [right|left; auto].
  split; [reflexivity|].
  set (c' := arr_put c (py q) (Some (arr_put rq (px q) (Some pqCost)))).
  assert (Hc'row : is_Some (arr_get c' (py q))).
  { unfold c'. rewrite arr_get_put_eq. eauto. }
  destruct (strict_neq (arr_get rq (px q)) MAX_VALUE).
  - rewrite Hq0. run_M.
    destruct (pq_remove_total q0 c q Hq0ok ltac:(eauto)) as (q1 & Hq1 & Hsub & Hq1ok).
    destruct (pq_push_total q1 c' q Hq1ok Hc'row) as (q2 & Hq2 & Hperm & Hq2ok).
    rewrite Hq1. run_M. rewrite (mat_put_Ok c _ (px q) _ rq Hrq). run_M.
    rewrite Hpar. run_M. rewrite (mat_put_Ok par _ (px q) _ rpar Hrpar). run_M.
    fold c'. rewrite Hq2. run_M.
    exists par, rpar, q0, q1, q2.
    repeat (split; [first [assumption|reflexivity]|]). reflexivity.
  - destruct (pq_push_total q0 c' q Hq0ok Hc'row) as (q2 & Hq2 & Hperm & Hq2ok).
    run_M. rewrite (mat_put_Ok c _ (px q) _ rq Hrq). run_M.
    rewrite Hpar. run_M. rewrite (mat_put_Ok par _ (px q) _ rpar Hrpar). run_M.
    rewrite Hq0. run_M. fold c'. rewrite Hq2. run_M.
    exists par, rpar, q0, q0, q2.
    repeat (split; [first [assumption|reflexivity|auto]|]). reflexivity.
Qed.

End Relax.

(** ** Invariants of the loop of [doWork] *)

Section Loop.
Context {num : Type} {N : JSNumber num}.

Lemma adj_in_image (H W : Z) (s : Scissors num) p :
  searching H W s -> in_image H W p ->
  exists l, adj s p = Ok l /\ Forall (in_image H W) l.
Proof.
  intros Hs [Hx Hy].
  destruct (sr_greyscale _ _ _ Hs) as (g & Hg & Hrows & Hlen & Hw).
  destruct (Hrows 0 ltac:(lia)) as [r0 Hr0].
  unfold adj. rewrite Hg. cbn [defined]. rewrite bind_Ok.
  rewrite (row_length_Ok g 0 r0 Hr0), bind_Ok.
  rewrite (row_of_Some g 0 r0 Hr0) in Hw. rewrite Hw, Hlen.
  eexists. split; [reflexivity|].
  set (sx := Z.max (px p - 1) 0). set (sy := Z.max (py p - 1) 0).
  set (ex := Z.min (px p + 1) (W - 1)). set (ey := Z.min (py p + 1) (H - 1)).
  refine (for_pure_inv (fun _ l => Forall (in_image H W) l) sy (ey + 1) _ [] _ _ _);
    [lia|constructor|].
  intros y l Hy' Hl.
  refine (for_pure_inv (fun _ l => Forall (in_image H W) l) sx (ex + 1) _ l _ _ _);
    [lia|exact Hl|].
  intros x l' Hx' Hl'.
  destruct (negb (x =? px p) || negb (y =? py p)); [|exact Hl'].
  apply Forall_app. split; [exact Hl'|]. constructor; [|constructor].
  split; simpl; lia.
Qed.

(** An invariant of the search: kept by a pop and by a relaxation. *)
Section Invariant.
Variables (H W : Z) (J0 J : Scissors num -> Prop).
Hypothesis J0_searching : forall s, J0 s -> searching H W s.
Hypothesis J_searching : forall s, J s -> searching H W s.
Hypothesis J0_pop : forall s q0 p q1 vis rv,
  J0 s -> pq s = Some q0 -> pq_pop q0 = Ok (p, q1) ->
  items q0 ≡ₚ p :: items q1 -> queue_ok q1 ->
  visited s = Some vis -> arr_get vis (py p) = Some rv ->
  J (set_visited (Some (arr_put vis (py p) (Some (arr_put rv (px p) (Some true)))))
       (set_pq (Some q1) s)).
Hypothesis J_relax : forall s p q s',
  J s -> in_image H W p -> in_image H W q -> relax p q s = (Ok tt, s') -> J s'.

Lemma for_each_relax p l s :
  J s -> in_image H W p -> Forall (in_image H W) l ->
  exists s', for_each l (relax p) s = (Ok tt, s') /\ J s'.
Proof.
  intros HJ Hp Hl. revert s HJ. induction Hl as [|q l Hq Hl IH]; intros s HJ.
  - exists s. split; [reflexivity|exact HJ].
  - assert (Hr : exists s1, relax p q s = (Ok tt, s1)).
    { destruct (relax_cases H W s p q (J_searching s HJ) Hp Hq)
        as (c & rp & rq & d & _ & _ & _ & _ & [[_ Hr]|[_ Hr]]).
      - eauto.
      - destruct Hr as (par & rpar & q0 & q1 & q2 & _ & _ & _ & _ & _ & _ & Hr). eauto. }
    destruct Hr as [s1 Hr].
    destruct (IH s1 (J_relax s p q s1 HJ Hp Hq Hr)) as (s2 & Hs2 & HJ2).
    exists s2. split; [|exact HJ2].
    simpl. unfold mbind, M_bind. rewrite Hr. exact Hs2.
Qed.

Lemma doWork_step_total newPoints s q0 :
  J0 s -> pq s = Some q0 -> pq_isEmpty q0 = false ->
  exists p q1 s',
    pq_pop q0 = Ok (p, q1) /\ items q0 ≡ₚ p :: items q1 /\
    doWork_step newPoints s = (Ok (newPoints ++ [(p, cell (parents s) p)]), s') /\
    J s'.
Proof.
  intros HJ Hq0 Hne. pose proof (J0_searching s HJ) as Hs.
  destruct (sr_pq _ _ _ Hs) as (q0' & Hq0' & Hok & Hin).
  rewrite Hq0 in Hq0'. injection Hq0' as <-.
  destruct (pq_pop_total q0 Hok Hne) as (p & q1 & Hpop & Hperm & Hok1).
  assert (Hp : in_image H W p).
  { rewrite Forall_forall in Hin. apply Hin. rewrite Hperm. left. }
  destruct (sr_parents _ _ _ Hs) as (par & Hpar & Hparr).
  destruct (sr_visited _ _ _ Hs) as (vis & Hvis & Hvisr).
  destruct (Hparr (py p) (proj2 Hp)) as [rpar Hrpar].
  destruct (Hvisr (py p) (proj2 Hp)) as [rv Hrv].
  pose proof (J0_pop s q0 p q1 vis rv HJ Hq0 Hpop Hperm Hok1 Hvis Hrv) as HJ1.
  set (s1 := set_visited _ _) in HJ1.
  destruct (adj_in_image H W s1 p (J_searching s1 HJ1) Hp) as (l & Hadj & Hl).
  destruct (for_each_relax p l s1 HJ1 Hp Hl) as (s2 & Hs2 & HJ2).
  exists p, q1, s2. split; [exact Hpop|]. split; [exact Hperm|]. split; [|exact HJ2].
  unfold doWork_step. run_M. rewrite Hq0. run_M. rewrite Hpop. run_M.
  rewrite Hpar. run_M. rewrite (mat_get_Ok par _ (px p) rpar Hrpar). run_M.
  rewrite Hvis. run_M. rewrite (mat_put_Ok vis _ (px p) _ rv Hrv). run_M.
  match goal with |- context [adj ?t p] => change t with s1 end.
  rewrite Hadj. run_M. rewrite Hs2.
  destruct p as [x y]. rewrite cell_Some. simpl in Hrpar |- *. rewrite Hrpar.
  reflexivity.
Qed.

End Invariant.

Section InvariantLoop.
Variables (H W : Z) (J : Scissors num -> Prop).
Variable B : Point * option Point -> Prop.
Hypothesis J_searching : forall s, J s -> searching H W s.
Hypothesis J_pop : forall s q0 p q1 vis rv,
  J s -> pq s = Some q0 -> pq_pop q0 = Ok (p, q1) ->
  items q0 ≡ₚ p :: items q1 -> queue_ok q1 ->
  visited s = Some vis -> arr_get vis (py p) = Some rv ->
  J (set_visited (Some (arr_put vis (py p) (Some (arr_put rv (px p) (Some true)))))
       (set_pq (Some q1) s)).
Hypothesis J_relax : forall s p q s',
  J s -> in_image H W p -> in_image H W q -> relax p q s = (Ok tt, s') -> J s'.
Hypothesis J_timeout : forall s, J s -> J (set_timeout (Some tt) s).
Hypothesis J_batch : forall s q0 p q1,
  J s -> pq s = Some q0 -> pq_pop q0 = Ok (p, q1) -> B (p, cell (parents s) p).

Lemma doWork_loop_total fuel :
  forall pointCount newPoints s,
    J s ->
    exists ext s',
      doWork_loop fuel pointCount newPoints s = (Ok (newPoints ++ ext), s') /\
      J s' /\ Forall B ext.
Proof.
  induction fuel as [|fuel IH]; intros pc np s HJ.
  - exists [], s. rewrite app_nil_r. repeat split; [exact HJ|constructor].
  - destruct (sr_pq _ _ _ (J_searching s HJ)) as (q0 & Hq0 & Hok & Hin).
    simpl. run_M. rewrite Hq0. run_M.
    destruct (negb (pq_isEmpty q0) && (pc <? pointsPerPost s)) eqn:Hcond.
    + apply andb_true_iff in Hcond as [Hne _]. apply negb_true_iff in Hne.
      destruct (doWork_step_total H W J J J_searching J_searching J_pop J_relax
                  np s q0 HJ Hq0 Hne) as (p & q1 & s1 & Hpop & _ & Hstep & HJ1).
      rewrite Hstep.
      destruct (IH (pc + 1) (np ++ [(p, cell (parents s) p)]) s1 HJ1)
        as (ext & s2 & Hloop & HJ2 & Hext).
      rewrite Hloop. exists ((p, cell (parents s) p) :: ext), s2.
      rewrite <- app_assoc. split; [reflexivity|]. split; [exact HJ2|].
      constructor; [|exact Hext]. eapply J_batch; eauto.
    + exists [], s. rewrite app_nil_r. repeat split; [exact HJ|constructor].
Qed.

Lemma doWork_total s :
  J s ->
  exists batch s', doWork s = (Ok (Some batch), s') /\ J s' /\ Forall B batch.
Proof.
  intros HJ. unfold doWork. run_M.
  rewrite (sr_working _ _ _ (J_searching s HJ)). cbn [negb].
  destruct (doWork_loop_total (S (Z.to_nat (pointsPerPost (set_timeout (Some tt) s))))
              0 [] (set_timeout (Some tt) s) (J_timeout s HJ))
    as (ext & s' & Hloop & HJ' & Hext).
  run_M.
  match goal with
  | |- context [doWork_loop ?f 0 [] ?t] =>
      change (doWork_loop f 0 [] t)
        with (doWork_loop (S (Z.to_nat (pointsPerPost (set_timeout (Some tt) s))))
                0 [] (set_timeout (Some tt) s))
  end.
  rewrite Hloop. exists ext, s'. auto.
Qed.

Lemma repeat_doWork_total n :
  forall s, J s ->
    exists rs s', repeat_doWork n s = (rs, s') /\ J s' /\
      Forall (fun r => exists batch, r = Ok (Some batch) /\ Forall B batch) rs.
Proof.
  induction n as [|n IH]; intros s HJ.
  - exists [], s. repeat split; [exact HJ|constructor].
  - destruct (doWork_total s HJ) as (batch & s1 & Hw & HJ1 & Hb).
    destruct (IH s1 HJ1) as (rs & s2 & Hrs & HJ2 & Hall).
    exists (Ok (Some batch) :: rs), s2. simpl. rewrite Hw, Hrs.
    repeat split; [exact HJ2|]. constructor; eauto.
Qed.

End InvariantLoop.

End Loop.

(** ** What the search keeps, and what [setData] leaves *)

Section Protocol.
Context {num : Type} {N : JSNumber num}.

Lemma Forall_perm_cons {A} (P : A -> Prop) l l' x :
  l' ≡ₚ x :: l -> P x -> Forall P l -> Forall P l'.
Proof. intros Hp Hx Hl. rewrite Hp. constructor; assumption. Qed.

Lemma searching_relax (H W : Z) (s s' : Scissors num) p q :
  searching H W s -> in_image H W p -> in_image H W q ->
  relax p q s = (Ok tt, s') -> searching H W s'.
Proof.
  intros Hs Hp Hq Hr.
  destruct (relax_cases H W s p q Hs Hp Hq)
    as (c & rp & rq & d & Hc & Hrp & Hrq & Hd & [[_ Hr']|[_ Hr']]).
  - rewrite Hr' in Hr. injection Hr as <-. exact Hs.
  - destruct Hr' as (par & rpar & q0 & q1 & q2 & Hpar & Hrpar & Hq0 & Hsub & Hperm & Hok & Hr').
    rewrite Hr' in Hr. injection Hr as <-.
    destruct Hs as [Hw Hg Hgr Hl Hgx Hgy Hi Ho Hte Htg Hti Hto Hcost Hparents Hvis Hpq].
    constructor; simpl; try assumption.
    + eexists. split; [reflexivity|]. apply has_rows_put.
      destruct Hcost as (c0 & Hc0 & Hrows).
      assert (c0 = c) as -> by congruence. exact Hrows.
    + eexists. split; [reflexivity|]. apply has_rows_put.
      destruct Hparents as (p0 & Hp0 & Hrows).
      assert (p0 = par) as -> by congruence. exact Hrows.
    + exists q2. split; [reflexivity|]. split; [exact Hok|].
      destruct Hpq as (q0' & Hq0' & _ & Hin). assert (q0' = q0) as -> by congruence.
      apply (Forall_perm_cons _ (items q1) _ q Hperm Hq).
      rewrite Forall_forall in *. auto.
Qed.

Lemma searching_pop (H W : Z) (s : Scissors num) q0 p q1 vis rv :
  searching H W s -> pq s = Some q0 ->
  items q0 ≡ₚ p :: items q1 -> queue_ok q1 ->
  visited s = Some vis ->
  searching H W
    (set_visited (Some (arr_put vis (py p) (Some (arr_put rv (px p) (Some true)))))
       (set_pq (Some q1) s)).
Proof.
  intros Hs Hq0 Hperm Hok Hvis.
  destruct Hs as [Hw Hg Hgr Hl Hgx Hgy Hi Ho Hte Htg Hti Hto Hcost Hparents Hvisited Hpq].
  constructor; simpl; try assumption.
  - eexists. split; [reflexivity|]. apply has_rows_put.
    destruct Hvisited as (v0 & Hv0 & Hrows).
    assert (v0 = vis) as -> by congruence. exact Hrows.
  - exists q1. split; [reflexivity|]. split; [exact Hok|].
    destruct Hpq as (q0' & Hq0' & _ & Hin). assert (q0' = q0) as -> by congruence.
    rewrite Hperm in Hin. inversion Hin. assumption.
Qed.

Lemma searching_timeout (H W : Z) (s : Scissors num) :
  searching H W s -> searching H W (set_timeout (Some tt) s).
Proof. intros [Hw Hg Hgr Hl Hgx Hgy Hi Ho Hte Htg Hti Hto Hcost Hparents Hvisited Hpq]. constructor; assumption. Qed.

Lemma computeGradY_one_row (g : field num) :
  has_rows g (alen g) -> alen g = 1 -> 1 <= alen (row_of g 0) ->
  computeGradY g = Throw TypeError.
Proof.
  intros Hrows Hlen Hw. destruct (Hrows 0 ltac:(lia)) as [r0 Hr0].
  rewrite (row_of_Some g 0 r0 Hr0) in Hw.
  unfold computeGradY. rewrite Hlen. cbn -[for_range]. rewrite for_range_empty by lia.
  rewrite bind_Ok, (row_length_Ok g 0 r0 Hr0), bind_Ok.
  unfold for_range. replace (Z.to_nat (alen r0 - 0)) with (S (Z.to_nat (alen r0 - 1))) by lia.
  reflexivity.
Qed.

(** What a successful [setData] leaves. *)
Lemma setData_fields (data : list Z) (s s0 : Scissors num) :
  setData data s = (Ok tt, s0) ->
  1 <= width s -> 1 <= height s ->
  let g := greyscale_of data (width s) (height s) in
  2 <= height s /\
  greyscale s0 = Some g /\ gradient s0 = Some (gradient_of g) /\
  laplace s0 = Some (laplace_of g) /\ gradX s0 = Some (gradX_of g) /\
  gradY s0 = Some (gradY_of g) /\
  width s0 = width s /\ height s0 = height s /\ working s0 = working s /\
  trained s0 = trained s /\ searchGranBits s0 = searchGranBits s /\
  searchGran s0 = searchGran s /\ pointsPerPost s0 = pointsPerPost s.
Proof.
  intros Hload Hw Hh g.
  pose proof (greyscale_of_has_rows (num := num) data (width s) (height s)) as Hrows.
  pose proof (greyscale_of_alen (num := num) data (width s) (height s)) as Hlen.
  fold g in Hrows, Hlen.
  unfold setData in Hload. run_M_in Hload.
  destruct ((width s =? -1) || (height s =? -1)) eqn:Hdim; [discriminate|].
  rewrite computeGreyscale_eq in Hload. fold g in Hload. run_M_in Hload.
  rewrite (computeLaplace_eq g Hrows) in Hload. run_M_in Hload.
  rewrite (computeGradient_eq g Hrows ltac:(lia)) in Hload. run_M_in Hload.
  rewrite (computeGradX_eq g Hrows) in Hload. run_M_in Hload.
  assert (Hw0 : alen (row_of g 0) = Z.max 0 (width s)).
  { apply greyscale_of_row_alen. lia. }
  destruct (Z_le_gt_dec 2 (height s)) as [Hh2|Hh1].
  2:{ rewrite (computeGradY_one_row g Hrows) in Hload by lia. discriminate. }
  rewrite (computeGradY_eq g Hrows ltac:(lia)) in Hload. run_M_in Hload.
  destruct (computeSides _ _ _ _) as [[i o]|e]; [|discriminate].
  run_M_in Hload. injection Hload as <-. simpl. repeat split; auto.
Qed.

End Protocol.

(** ** What [setData] leaves *)

Section Loading.
Context {num : Type} {N : JSNumber num}.

Lemma setData_image_fields (data : list Z) (s s0 : Scissors num) :
  setData data s = (Ok tt, s0) -> 1 <= width s -> 1 <= height s ->
  image_fields (height s) s0.
Proof.
  intros Hload Hw Hh.
  destruct (setData_fields data s s0 Hload Hw Hh)
    as (Hh2 & Hg & Hgr & Hl & Hgx & Hgy & _).
  set (g := greyscale_of data (width s) (height s)) in *.
  pose proof (greyscale_of_alen (num := num) data (width s) (height s)) as Hlen.
  fold g in Hlen. replace (Z.max 0 (height s)) with (height s) in Hlen by lia.
  constructor.
  - exists (gradient_of g). split; [exact Hgr|].
    unfold gradient_of. cbv zeta. intros y Hy. rewrite tabulate_get.
    rewrite raw_gradient_alen by lia. rewrite Hlen. case_decide; [eauto|lia].
  - exists (laplace_of g). split; [exact Hl|].
    intros y Hy. unfold laplace_of. cbv zeta. rewrite Hlen.
    rewrite !arr_get_put, tabulate_get, !arr_get_put.
    repeat case_decide; eauto; lia.
  - exists (gradX_of g). split; [exact Hgx|].
    intros y Hy. unfold gradX_of. rewrite tabulate_get, Hlen. case_decide; [eauto|lia].
  - exists (gradY_of g). split; [exact Hgy|].
    intros y Hy. unfold gradY_of. cbv zeta. rewrite arr_get_put, tabulate_get, Hlen.
    repeat case_decide; eauto; lia.
Qed.

Lemma for_range_post_any {T} (P : T -> Prop) lo hi (body : Z -> T -> res T) s s' :
  P s ->
  (forall i s s', lo <= i < hi -> P s -> body i s = Ok s' -> P s') ->
  for_range lo hi body s = Ok s' -> P s'.
Proof.
  intros HP Hbody Hrun. destruct (Z_le_gt_dec lo hi) as [Hle|Hgt].
  - exact (for_range_post (fun _ => P) lo hi body s s' Hle HP Hbody Hrun).
  - rewrite for_range_empty in Hrun by lia. injection Hrun as <-. exact HP.
Qed.

Lemma arr_get_num_sample (g : field num) (ky kx : num) row v :
  arr_get_num g ky = Some row -> arr_get_num row kx = Some v -> sample_of g v.
Proof.
  unfold arr_get_num. intros Hrow Hv.
  destruct (to_index ky) as [y|]; [|discriminate].
  destruct (to_index kx) as [x|]; [|discriminate].
  exists (mkPoint x y). rewrite cell_Some, Hrow. exact Hv.
Qed.

Lemma samples_put_row (g : field num) h m y :
  samples g h m -> samples g h (arr_put m y (Some arr_empty)) /\
                   is_Some (arr_get (arr_put m y (Some arr_empty)) y).
Proof.
  intros [Hrows Hcells]. split; [split|].
  - intros y' Hy'. rewrite arr_get_put. case_decide; [eauto|apply Hrows, Hy'].
  - intros y' row x v. rewrite arr_get_put. case_decide.
    + intros [= <-]. rewrite arr_get_empty. discriminate.
    + apply Hcells.
  - rewrite arr_get_put_eq. eauto.
Qed.

Lemma samples_put_cell (g : field num) h m m' y x (c : option num) :
  samples g h m -> (forall v, c = Some v -> sample_of g v) ->
  mat_put m y x c = Ok m' ->
  samples g h m' /\ is_Some (arr_get m' y).
Proof.
  intros [Hrows Hcells] Hc Hput. unfold mat_put in Hput.
  destruct (arr_get m y) as [row|] eqn:Hrow; [|discriminate].
  simpl in Hput. injection Hput as <-. split; [split|].
  - intros y' Hy'. rewrite arr_get_put. case_decide; [eauto|apply Hrows, Hy'].
  - intros y' row' x' v. rewrite arr_get_put. case_decide as Hy.
    + intros [= <-]. rewrite arr_get_put. case_decide.
      * apply Hc.
      * subst y'. apply (Hcells y row x' v Hrow).
    + apply Hcells.
  - rewrite arr_get_put_eq. eauto.
Qed.

(** What [computeSides] returns when it returns. *)
Lemma computeSides_samples (d : Z) (gx gy g i o : field num) :
  computeSides d gx gy g = Ok (i, o) ->
  samples g (alen gx) i /\ samples g (alen gx) o.
Proof.
  unfold computeSides. intros Hrun.
  assert (Hinit : (fun y (io : field num * field num) =>
            samples g y (fst io) /\ samples g y (snd io)) 0 (arr_empty, arr_empty)).
  { simpl. split; (split; [intros y Hy; lia|]);
      intros y row x v; rewrite arr_get_empty; discriminate. }
  destruct (Z_le_gt_dec 0 (alen gx)) as [Hle|Hgt].
  2:{ rewrite for_range_empty in Hrun by lia. injection Hrun as <- <-.
      split; (split; [intros y Hy; lia|]);
        intros y row x v; rewrite arr_get_empty; discriminate. }
  refine (for_range_post (fun y (io : field num * field num) =>
            samples g y (fst io) /\ samples g y (snd io)) 0 (alen gx) _ _ (i, o)
            Hle Hinit _ Hrun).
  clear Hrun Hinit i o. intros y [i o] [i' o'] Hy [Hi Ho] Hbody. simpl in Hi, Ho.
  cbv beta iota zeta in Hbody.
  apply bind_Ok_inv in Hbody as (w & _ & Hbody).
  destruct (samples_put_row g y i y Hi) as [Hi1 Hiy].
  destruct (samples_put_row g y o y Ho) as [Ho1 Hoy].
  set (Q := fun io : field num * field num =>
    (samples g y (fst io) /\ is_Some (arr_get (fst io) y)) /\
    (samples g y (snd io) /\ is_Some (arr_get (snd io) y))).
  assert (HQ : Q (i', o')).
  { refine (for_range_post_any Q 0 w _ _ (i', o') _ _ Hbody).
    - split; split; assumption.
    - clear. intros x [i o] [i' o'] Hx [[Hi _] [Ho _]] Hstep. simpl in Hi, Ho.
      cbv beta iota zeta in Hstep.
      apply bind_Ok_inv in Hstep as ([ux uy] & _ & Hstep). cbv beta iota zeta in Hstep.
      apply bind_Ok_inv in Hstep as (w' & _ & Hstep).
      apply bind_Ok_inv in Hstep as (irow & Hirow & Hstep).
      apply defined_Ok_inv in Hirow.
      apply bind_Ok_inv in Hstep as (i1 & Hi1 & Hstep).
      apply bind_Ok_inv in Hstep as (orow & Horow & Hstep).
      apply defined_Ok_inv in Horow.
      apply bind_Ok_inv in Hstep as (o1 & Ho1 & Hstep).
      injection Hstep as <- <-. split.
      + eapply samples_put_cell; [exact Hi| |exact Hi1].
        intros v Hv. exact (arr_get_num_sample g _ _ irow v Hirow Hv).
      + eapply samples_put_cell; [exact Ho| |exact Ho1].
        intros v Hv. exact (arr_get_num_sample g _ _ orow v Horow Hv). }
  destruct HQ as [[[Hri Hci] Hyi] [[Hro Hco] Hyo]]. simpl in *.
  split; (split; [|assumption]); intros y' Hy';
    (destruct (decide (y' = y)) as [->|]; [assumption|]);
    [apply Hri|apply Hro]; lia.
Qed.

(** The sides and the tables a successful [setData] leaves. *)
Lemma setData_sides (data : list Z) (s s0 : Scissors num) :
  setData data s = (Ok tt, s0) ->
  1 <= width s -> 1 <= height s ->
  let g := greyscale_of data (width s) (height s) in
  (exists i o, inside s0 = Some i /\ outside s0 = Some o /\
     computeSides (edgeWidth s) (gradX_of g) (gradY_of g) g = Ok (i, o)) /\
  edgeTraining s0 = Some arr_empty /\ gradTraining s0 = Some arr_empty /\
  insideTraining s0 = Some arr_empty /\ outsideTraining s0 = Some arr_empty.
Proof.
  intros Hload Hw Hh g.
  pose proof (greyscale_of_has_rows (num := num) data (width s) (height s)) as Hrows.
  pose proof (greyscale_of_alen (num := num) data (width s) (height s)) as Hlen.
  fold g in Hrows, Hlen.
  unfold setData in Hload. run_M_in Hload.
  destruct ((width s =? -1) || (height s =? -1)) eqn:Hdim; [discriminate|].
  rewrite computeGreyscale_eq in Hload. fold g in Hload. run_M_in Hload.
  rewrite (computeLaplace_eq g Hrows) in Hload. run_M_in Hload.
  rewrite (computeGradient_eq g Hrows ltac:(lia)) in Hload. run_M_in Hload.
  rewrite (computeGradX_eq g Hrows) in Hload. run_M_in Hload.
  assert (Hw0 : alen (row_of g 0) = Z.max 0 (width s)).
  { apply greyscale_of_row_alen. lia. }
  destruct (Z_le_gt_dec 2 (height s)) as [Hh2|Hh1].
  2:{ rewrite (computeGradY_one_row g Hrows) in Hload by lia. discriminate. }
  rewrite (computeGradY_eq g Hrows ltac:(lia)) in Hload. run_M_in Hload.
  destruct (computeSides _ _ _ _) as [[i o]|e] eqn:Hsides; [|discriminate].
  run_M_in Hload. injection Hload as <-. simpl. split; [|auto].
  exists i, o. auto.
Qed.

Lemma arr_get_num_empty {V} (k : num) : arr_get_num (@arr_empty V) k = None.
Proof. unfold arr_get_num. destruct (to_index k); [apply arr_get_empty|reflexivity]. Qed.

Lemma trainable_view (H : Z) (s s' : Scissors num) :
  training_view s' = training_view s -> trainable H s -> trainable H s'.
Proof.
  unfold training_view. intros E Ht. injection E as E1 E2 E3 E4 E5 E6 E7 E8.
  destruct Ht. constructor; rewrite ?E1, ?E2, ?E3, ?E4, ?E5, ?E6, ?E7, ?E8; assumption.
Qed.

(** A successful [setData] leaves what [doTraining] reads. *)
Lemma setData_trainable (data : list Z) (s s0 : Scissors num) :
  setData data s = (Ok tt, s0) -> 1 <= width s -> 1 <= height s ->
  trainable (height s) s0.
Proof.
  intros Hload Hw Hh.
  pose proof (setData_image_fields data s s0 Hload Hw Hh) as Hf.
  destruct (setData_fields data s s0 Hload Hw Hh)
    as (_ & Hg & _ & _ & Hgx & _).
  destruct (setData_sides data s s0 Hload Hw Hh)
    as ((i & o & Hi & Ho & Hsides) & He & Hgt & Hit & Hot).
  destruct (computeSides_samples _ _ _ _ i o Hsides) as [[Hri _] [Hro _]].
  assert (Hax : alen (gradX_of (greyscale_of data (width s) (height s))) = height s).
  { unfold gradX_of. rewrite tabulate_alen, greyscale_of_alen by lia.
    destruct (Z.ltb_spec 0 (Z.max 0 (height s))); simpl; lia. }
  rewrite Hax in Hri, Hro.
  constructor; eauto.
  - eexists. split; [exact Hg|].
    pose proof (greyscale_of_has_rows (num := num) data (width s) (height s)) as Hrows.
    rewrite greyscale_of_alen in Hrows. intros y Hy. apply Hrows. lia.
  - exact (if_gradient _ _ Hf).
Qed.

(** A successful [setData] on an object with the settings of the
    constructor leaves a loaded object, trained or not. *)
Lemma setData_loaded (data : list Z) (s s0 : Scissors num) :
  setData data s = (Ok tt, s0) -> 1 <= width s -> 1 <= height s ->
  searchGranBits s = 8 -> pointsPerPost s = 500 ->
  loaded (height s) (width s) s0.
Proof.
  intros Hload Hw Hh Hbits Hppp.
  pose proof (setData_image_fields data s s0 Hload Hw Hh) as Hf.
  pose proof (setData_trainable data s s0 Hload Hw Hh) as Ht.
  destruct (setData_fields data s s0 Hload Hw Hh)
    as (Hh2 & Hg & _ & _ & _ & _ & Hw0 & Hh0 & _ & _ & Ebits & _ & Eppp).
  pose proof (greyscale_of_has_rows (num := num) data (width s) (height s)) as Hrows.
  pose proof (greyscale_of_alen (num := num) data (width s) (height s)) as Hlen.
  replace (Z.max 0 (height s)) with (height s) in Hlen by lia.
  rewrite Hlen in Hrows.
  constructor; try congruence; try apply Hf; try apply Ht.
  eexists. split; [exact Hg|]. split; [exact Hrows|]. split; [exact Hlen|].
  rewrite greyscale_of_row_alen by lia. lia.
Qed.

(** The first image a new object loads. *)
Lemma loaded_new (w h : Z) (data : list Z) (s0 : Scissors num) :
  (setDimensions w h;; setData data) Scissors_new = (Ok tt, s0) ->
  1 <= w -> 1 <= h -> loaded h w s0.
Proof.
  intros Hload Hw Hh. unfold setDimensions in Hload. run_M_in Hload.
  set (sd := set_height h (set_width w Scissors_new)) in *.
  change (setData data sd = (Ok tt, s0)) in Hload.
  exact (setData_loaded data sd s0 Hload Hw Hh eq_refl eq_refl).
Qed.

Lemma loaded_trainable (H W : Z) (s : Scissors num) : loaded H W s -> trainable H s.
Proof.
  intros Hs. constructor; try apply Hs.
  destruct (ld_greyscale _ _ _ Hs) as (g & Hg & Hr & _). eauto.
Qed.

Lemma loaded_image_fields (H W : Z) (s : Scissors num) : loaded H W s -> image_fields H s.
Proof. intros Hs. constructor; apply Hs. Qed.

End Loading.

(** ** The start of a search *)

Section Start.
Context {num : Type} {N : JSNumber num}.

Lemma constant_matrix_has_rows {V} h w (v : V) : has_rows (constant_matrix h w v) h.
Proof.
  intros y Hy. unfold constant_matrix. rewrite tabulate_get.
  case_decide; [eauto|lia].
Qed.

Lemma empty_rows_has_rows {V} h : has_rows (@empty_rows V h) h.
Proof.
  intros y Hy. unfold empty_rows. rewrite tabulate_get. case_decide; [eauto|lia].
Qed.

Lemma empty_rows_cell {V} h p : cell (Some (@empty_rows V h)) p = None.
Proof.
  destruct p as [x y]. rewrite cell_Some. unfold empty_rows. rewrite tabulate_get.
  case_decide; [simpl; apply arr_get_empty|rewrite arr_get_empty; reflexivity].
Qed.

Lemma concat_replicate_nil {A} n : concat (replicate n (@nil A)) = [].
Proof. induction n; simpl; auto. Qed.

(** What [setPoint] leaves on an object that holds an image. *)
Lemma setPoint_fields (s0 : Scissors num) (sp : Point) :
  searchGranBits s0 = 8 ->
  in_image (height s0) (width s0) sp ->
  exists s1 q row,
    setPoint sp s0 = (Ok tt, s1) /\
    working s1 = true /\
    visited s1 = Some (constant_matrix (height s0) (width s0) false) /\
    parents s1 = Some (empty_rows (height s0)) /\
    arr_get (constant_matrix (height s0) (width s0) MAX_VALUE) (py sp) = Some row /\
    cost s1 = Some (arr_put (constant_matrix (height s0) (width s0) MAX_VALUE) (py sp)
                      (Some (arr_put row (px sp) (Some (of_Z 0))))) /\
    pq s1 = Some q /\ items q ≡ₚ [sp] /\ queue_ok q /\
    greyscale s1 = greyscale s0 /\ gradient s1 = gradient s0 /\
    laplace s1 = laplace s0 /\ gradX s1 = gradX s0 /\ gradY s1 = gradY s0 /\
    trained s1 = trained s0 /\ pointsPerPost s1 = pointsPerPost s0 /\
    training_view s1 = training_view s0 /\ curPoint s1 = Some sp.
Proof.
  intros Hbits [Hx Hy].
  set (c0 := constant_matrix (height s0) (width s0) (MAX_VALUE (num := num))).
  destruct (constant_matrix_has_rows (height s0) (width s0) (MAX_VALUE (num := num))
              (py sp) Hy) as [row Hrow]. fold c0 in Hrow.
  set (q0 := mkBucketQueue (searchGranBits s0)
               (replicate (Z.to_nat (2 ^ searchGranBits s0)) [])
               O (Some (searchGran s0))).
  assert (Hq0 : queue_ok q0).
  { unfold queue_ok, q0. simpl. rewrite length_replicate, Hbits. split; [reflexivity|].
    vm_compute. lia. }
  destruct (pq_push_total q0 c0 sp Hq0 ltac:(eauto)) as (q & Hpush & Hperm & Hq).
  exists (set_cost (Some (arr_put c0 (py sp) (Some (arr_put row (px sp) (Some (of_Z 0))))))
            (set_pq (Some q)
               (set_parents (Some (empty_rows (height s0)))
                  (set_visited (Some (constant_matrix (height s0) (width s0) false))
                     (set_curPoint (Some sp) (set_working true s0)))))),
    q, row.
  split.
  - unfold setPoint, setWorking. run_M.
    match goal with
    | |- context [pq_push ?a ?b sp] => change (pq_push a b sp) with (pq_push q0 c0 sp)
    end.
    rewrite Hpush. run_M.
    match goal with
    | |- context [mat_put ?a (py sp) (px sp) ?v] =>
        change (mat_put a (py sp) (px sp) v) with (mat_put c0 (py sp) (px sp) v)
    end.
    rewrite (mat_put_Ok c0 _ (px sp) _ row Hrow). run_M.
    reflexivity.
  - simpl. repeat split; auto; try apply Hq.
    rewrite Hperm. unfold items, q0. simpl. rewrite concat_replicate_nil. reflexivity.
Qed.

End Start.

(** ** Parents (C10) *)

Section Parents.
Context {num : Type} {N : JSNumber num}.

Lemma cell_put {V} (m : matrix V) row x y v p :
  arr_get m y = Some row ->
  cell (Some (arr_put m y (Some (arr_put row x v)))) p
  = if decide (p = mkPoint x y) then v else cell (Some m) p.
Proof.
  intros Hrow. destruct p as [x' y']. unfold cell. cbn [px py mbind option_bind].
  rewrite arr_get_put.
  destruct (decide (y = y')) as [->|Hy]; simpl.
  - rewrite arr_get_put, Hrow. simpl.
    destruct (decide (x = x')) as [->|Hx].
    + destruct (decide (_ = _)); [reflexivity|congruence].
    + destruct (decide (_ = _)) as [E|E]; [congruence|reflexivity].
  - destruct (decide (_ = _)) as [E|E]; [congruence|reflexivity].
Qed.

Lemma pq_pop_Ok_inv (q q' : BucketQueue) p :
  pq_pop q = Ok (p, q') -> items q ≡ₚ p :: items q'.
Proof.
  unfold pq_pop. destruct (pq_scan _ _ _) as [i|]; [|discriminate].
  destruct (buckets q !! i) as [[|p' l]|] eqn:E; try discriminate.
  intros Hpop. injection Hpop as <- <-. unfold items. simpl.
  apply concat_insert_cons. exact E.
Qed.

Lemma parents_relax (H W : Z) (s s' : Scissors num) p q :
  searching H W s -> queued_have_parents s ->
  in_image H W p -> in_image H W q ->
  relax p q s = (Ok tt, s') -> queued_have_parents s'.
Proof.
  intros Hs (par & q0 & Hpar & Hq0 & Hall) Hp Hq Hr.
  destruct (relax_cases H W s p q Hs Hp Hq)
    as (c & rp & rq & d & Hc & Hrp & Hrq & Hd & [[_ Hr']|[_ Hr']]).
  - rewrite Hr' in Hr. injection Hr as <-. exists par, q0. auto.
  - destruct Hr' as (par' & rpar & q0' & q1 & q2 & Hpar' & Hrpar & Hq0' & Hsub & Hperm & Hok & Hr').
    rewrite Hr' in Hr. injection Hr as <-.
    assert (par' = par) as -> by congruence. assert (q0' = q0) as -> by congruence.
    eexists _, q2. split; [reflexivity|]. split; [reflexivity|].
    intros x Hx. rewrite (cell_put par rpar _ _ _ x Hrpar).
    destruct (decide (x = {| px := px q; py := py q |})); [eauto|].
    apply Hall, Hsub. rewrite Hperm in Hx. apply elem_of_cons in Hx as [->|Hx]; [|exact Hx].
    destruct q. contradiction.
Qed.

(** The start of a search: an object that holds an image, trained or not,
    is given a seed inside the image. *)
Lemma search_start (h w : Z) (seed : Point) (s0 : Scissors num) :
  loaded h w s0 -> in_image h w seed ->
  exists s1 q row,
    setPoint seed s0 = (Ok tt, s1) /\ searching h w s1 /\
    visited s1 = Some (constant_matrix h w false) /\
    parents s1 = Some (empty_rows h) /\
    arr_get (constant_matrix h w MAX_VALUE) (py seed) = Some row /\
    cost s1 = Some (arr_put (constant_matrix h w MAX_VALUE) (py seed)
                      (Some (arr_put row (px seed) (Some (of_Z 0))))) /\
    pq s1 = Some q /\ items q ≡ₚ [seed] /\ pointsPerPost s1 = 500 /\
    trained s1 = trained s0.
Proof.
  intros Hs0 Hseed.
  pose proof (ld_width _ _ _ Hs0) as Hw0. pose proof (ld_height _ _ _ Hs0) as Hh0.
  pose proof (ld_pointsPerPost _ _ _ Hs0) as Hppp.
  destruct (setPoint_fields s0 seed (ld_searchGranBits _ _ _ Hs0)
              ltac:(rewrite Hw0, Hh0; exact Hseed))
    as (s1 & q & row & Hsp & Hwork & Hvis & Hpar & Hrow & Hcost & Hq & Hitems & Hqok
        & Eg & Egr & El & Egx & Egy & Etr & Eppp & Eview & _).
  rewrite Hh0, Hw0 in *.
  unfold training_view in Eview. injection Eview as _ _ Ei Eo Ete Etg Eti Eto.
  assert (Hs1 : searching h w s1).
  { destruct Hs0 as [_ _ _ _ Hg Hgr Hl Hgx Hgy Hi Ho Hte Htg Hti Hto].
    constructor;
      rewrite ?Eg, ?Egr, ?El, ?Egx, ?Egy, ?Ei, ?Eo, ?Ete, ?Etg, ?Eti, ?Eto;
      try assumption.
    - eexists. split; [exact Hcost|]. apply has_rows_put, constant_matrix_has_rows.
    - eexists. split; [exact Hpar|]. apply empty_rows_has_rows.
    - eexists. split; [exact Hvis|]. apply constant_matrix_has_rows.
    - exists q. split; [exact Hq|]. split; [exact Hqok|].
      rewrite Hitems. constructor; [exact Hseed|constructor]. }
  exists s1, q, row. split; [exact Hsp|]. split; [exact Hs1|].
  split; [exact Hvis|]. split; [exact Hpar|]. split; [exact Hrow|].
  split; [exact Hcost|]. split; [exact Hq|]. split; [exact Hitems|].
  split; [congruence|exact Etr].
Qed.

(** C10. On every object that holds an image, trained or not and
    whatever it has searched before, after [setPoint(seed)] with the seed
    inside the image: the first call of [doWork] finalizes the seed first and
    pairs it with no parent, [parents] having no entry for the seed; every
    other pair of this batch and of every later batch has a parent. *)
Theorem C10_seed_is_first_and_has_no_parent
    (h w : Z) (seed : Point) (s0 : Scissors num) :
  loaded h w s0 ->
  in_image h w seed ->
  exists s1,
    setPoint seed s0 = (Ok tt, s1) /\ cell (parents s1) seed = None /\
    exists batch s2,
      doWork s1 = (Ok (Some ((seed, None) :: batch)), s2) /\
      Forall (fun e => is_Some (snd e)) batch /\
      forall n,
        Forall (fun r => exists b, r = Ok (Some b) /\ Forall (fun e => is_Some (snd e)) b)
          (fst (repeat_doWork n s2)).
Proof.
  intros Hload Hseed.
  destruct (search_start h w seed s0 Hload Hseed)
    as (s1 & q & row & Hsp & Hs1 & _ & Hpar & _ & _ & Hq & Hitems & Eppp & _).
  exists s1. split; [exact Hsp|]. split; [rewrite Hpar; apply empty_rows_cell|].
  (* the invariants before and after the first pass *)
  set (J0 := fun s : Scissors num =>
    searching h w s /\ parents s = Some (empty_rows h) /\
    exists q, pq s = Some q /\ items q ≡ₚ [seed]).
  set (J := fun s : Scissors num => searching h w s /\ queued_have_parents s).
  assert (HJpop : forall s q0 p q1 vis rv,
    J s -> pq s = Some q0 -> pq_pop q0 = Ok (p, q1) ->
    items q0 ≡ₚ p :: items q1 -> queue_ok q1 ->
    visited s = Some vis -> arr_get vis (py p) = Some rv ->
    J (set_visited (Some (arr_put vis (py p) (Some (arr_put rv (px p) (Some true)))))
         (set_pq (Some q1) s))).
  { intros s q0 p q1 vis rv [Hs (par & q0' & Hp' & Hq0' & Hall)] Hq0 _ Hperm Hok Hv _.
    split; [eapply searching_pop; eauto|].
    exists par, q1. split; [exact Hp'|]. split; [reflexivity|].
    intros x Hx. apply Hall. assert (q0' = q0) as -> by congruence.
    rewrite Hperm. right. exact Hx. }
  assert (HJrelax : forall s p q s',
    J s -> in_image h w p -> in_image h w q -> relax p q s = (Ok tt, s') -> J s').
  { intros s p q0 s' [Hs Hq'] Hp Hq0 Hr. split.
    - exact (searching_relax h w s s' p q0 Hs Hp Hq0 Hr).
    - exact (parents_relax h w s s' p q0 Hs Hq' Hp Hq0 Hr). }
  assert (HJ0pop : forall s q0 p q1 vis rv,
    J0 s -> pq s = Some q0 -> pq_pop q0 = Ok (p, q1) ->
    items q0 ≡ₚ p :: items q1 -> queue_ok q1 ->
    visited s = Some vis -> arr_get vis (py p) = Some rv ->
    J (set_visited (Some (arr_put vis (py p) (Some (arr_put rv (px p) (Some true)))))
         (set_pq (Some q1) s))).
  { intros s q0 p q1 vis rv (Hs & Hp' & q0' & Hq0' & Hit) Hq0 _ Hperm Hok Hv _.
    split; [eapply searching_pop; eauto|].
    eexists _, q1. split; [exact Hp'|]. split; [reflexivity|].
    intros x Hx. assert (q0' = q0) as -> by congruence.
    rewrite Hperm in Hit. apply Permutation_length in Hit. simpl in Hit.
    destruct (items q1); [inversion Hx|simpl in Hit; lia]. }
  (* the first pass pops the seed *)
  assert (HJ0 : J0 (set_timeout (Some tt) s1)).
  { split; [apply searching_timeout; exact Hs1|]. split; [exact Hpar|]. eauto. }
  assert (Hne : pq_isEmpty q = false).
  { destruct (pq_isEmpty q) eqn:E; [|reflexivity].
    apply pq_isEmpty_true in E. rewrite E in Hitems.
    apply Permutation_length in Hitems. discriminate. }
  destruct (doWork_step_total h w J0 J (fun s HJ => proj1 HJ) (fun s HJ => proj1 HJ)
              HJ0pop HJrelax [] (set_timeout (Some tt) s1) q HJ0 Hq Hne)
    as (p & q1 & s1' & Hpop & Hperm & Hstep & HJ1).
  assert (p = seed) as ->.
  { rewrite Hitems in Hperm. symmetry in Hperm.
    apply Permutation_singleton_r in Hperm. congruence. }
  change (parents (set_timeout (Some tt) s1)) with (parents s1) in Hstep.
  rewrite Hpar, empty_rows_cell in Hstep. simpl in Hstep.
  (* the rest of the loop *)
  set (B := fun e : Point * option Point => is_Some (snd e)).
  assert (HB : forall s q0 p q1,
    J s -> pq s = Some q0 -> pq_pop q0 = Ok (p, q1) -> B (p, cell (parents s) p)).
  { intros s q0 p q1' [_ (par & q0' & Hp' & Hq0' & Hall)] Hq0 Hpop'.
    unfold B. simpl. rewrite Hp'. apply Hall.
    assert (q0' = q0) as -> by congruence.
    rewrite (pq_pop_Ok_inv _ _ _ Hpop'). left. }
  assert (HJt : forall s, J s -> J (set_timeout (Some tt) s)).
  { intros s [Hs Hq']. split; [apply searching_timeout; exact Hs|exact Hq']. }
  destruct (doWork_loop_total h w J B (fun s HJ => proj1 HJ) HJpop HJrelax HB
              (Z.to_nat (pointsPerPost s1)) 1 [(seed, None)] s1' HJ1)
    as (ext & s2 & Hloop & HJ2 & Hext).
  exists ext, s2. split.
  - unfold doWork. run_M. rewrite (sr_working _ _ _ Hs1). cbn [negb]. run_M.
    match goal with
    | |- context [doWork_loop ?f 0 [] ?t] =>
        change (doWork_loop f 0 [] t)
          with (doWork_loop (S (Z.to_nat (pointsPerPost s1))) 0 []
                  (set_timeout (Some tt) s1))
    end.
    cbn [doWork_loop]. run_M. rewrite Hq. run_M. rewrite Hne.
    rewrite Eppp. cbn [negb andb Z.ltb Z.compare].
    change (doWork_step [] _) with (doWork_step [] (set_timeout (Some tt) s1)).
    rewrite Hstep. rewrite Eppp in Hloop.
    change (0 + 1) with 1. rewrite Hloop. reflexivity.
  - split; [exact Hext|]. intros n.
    destruct (repeat_doWork_total h w J B (fun s HJ => proj1 HJ) HJpop HJrelax HJt HB
                n s2 HJ2) as (rs & s3 & Hrs & _ & Hall).
    rewrite Hrs. exact Hall.
Qed.

End Parents.

(** ** The untrained cost (C4) *)

Section Dist.
Context {num : Type} {N : JSNumber num}.

(** C4. On an object that is not trained and whose fields [setData] has
    built, the cost of the edge between two pixels p and q of the image is
    0.43 g + 0.43 laplace[q] + 0.11 direction(p, q), where g is gradient[q]
    times SQRT1_2 when p and q share a coordinate and gradient[q] otherwise. *)
Theorem C4_untrained_dist (data : list Z) (s s0 : Scissors num) (p q : Point) :
  setData data s = (Ok tt, s0) ->
  trained s = false ->
  in_image (height s) (width s) p -> in_image (height s) (width s) q ->
  exists dir,
    Scissors_gradDirection s0 (px p) (py p) (px q) (py q) = Ok dir /\
    dist s0 (px p) (py p) (px q) (py q)
    = Ok (let g := ToNumber (cell (gradient s0) q) in
          let g := if (px p =? px q) || (py p =? py q) then g ⊗ SQRT1_2 else g in
          ratio 43 100 ⊗ g ⊕ ratio 43 100 ⊗ ToNumber (cell (laplace s0) q)
          ⊕ ratio 11 100 ⊗ dir).
Proof.
  intros Hload Htr Hp Hq.
  assert (Hw : 1 <= width s) by (destruct Hp; lia).
  assert (Hh : 1 <= height s) by (destruct Hp; lia).
  pose proof (setData_image_fields data s s0 Hload Hw Hh) as Hf.
  destruct (setData_fields data s s0 Hload Hw Hh)
    as (_ & _ & _ & _ & _ & _ & _ & _ & _ & Htr0 & _).
  rewrite Htr in Htr0.
  destruct (dist_untrained (height s) (width s) s0 p q Hf Htr0 Hp Hq)
    as (gr & l & gx & gy & Hgr & Hl & Hgx & Hgy & Hd).
  exists (direction gx gy (px p) (py p) (px q) (py q)). split.
  - unfold Scissors_gradDirection. rewrite Hgx, Hgy. cbn [defined]. rewrite !bind_Ok.
    destruct Hp as [_ Hpy], Hq as [_ Hqy].
    destruct (if_gradX _ _ Hf) as (gx' & Hgx' & Hgxr).
    destruct (if_gradY _ _ Hf) as (gy' & Hgy' & Hgyr).
    assert (gx' = gx) as -> by congruence. assert (gy' = gy) as -> by congruence.
    apply gradDirection_Ok; auto.
  - rewrite Hd, Hgr, Hl. reflexivity.
Qed.

End Dist.

(** ** Training on few points (C6) *)

Section Training.
Context {num : Type} {N : JSNumber num}.

(** C6. When the walk along the parent pointers from [p] gives fewer than 8
    points, [doTraining(p)] returns normally, records the points and changes
    nothing else: the four training tables and the flag [trained] are as
    before the call. *)
Theorem C6_doTraining_with_few_points
    (s : Scissors num) (p : option Point) (pts : list Point) :
  findTrainingPoints s p = Ok pts -> (length pts < 8)%nat ->
  doTraining p s = (Ok tt, set_trainingPoints (Some pts) s) /\
  let s' := snd (doTraining p s) in
  edgeTraining s' = edgeTraining s /\ gradTraining s' = gradTraining s /\
  insideTraining s' = insideTraining s /\ outsideTraining s' = outsideTraining s /\
  trained s' = trained s.
Proof.
  intros Hpts Hlen.
  assert (doTraining p s = (Ok tt, set_trainingPoints (Some pts) s)) as Hrun.
  { unfold doTraining. run_M. rewrite Hpts. run_M.
    destruct (Z.ltb_spec (Z.of_nat (length pts)) 8) as [_|]; [reflexivity|lia]. }
  split; [exact Hrun|]. rewrite Hrun. cbn. repeat split.
Qed.

End Training.

(** ** The theorems at work on the step edge *)

Section OnStepEdge.
Import Float64 Examples.

(** The cost of the step from (3, 2) to (4, 3) on the step edge. *)
Lemma C4_untrained_dist_witness :
  setData step_edge (sized 6 6) = (Ok tt, step_edge_loaded) /\
  trained (sized 6 6) = false /\
  exists dir,
    Scissors_gradDirection step_edge_loaded 3 2 4 3 = Ok dir /\
    dist step_edge_loaded 3 2 4 3 =
      Ok (ratio 43 100 ⊗ ToNumber (cell (gradient step_edge_loaded) (mkPoint 4 3))
          ⊕ ratio 43 100 ⊗ ToNumber (cell (laplace step_edge_loaded) (mkPoint 4 3))
          ⊕ ratio 11 100 ⊗ dir).
Proof.
  assert (setData step_edge (sized 6 6) = (Ok tt, step_edge_loaded)) as Hload
    by (vm_compute; reflexivity).
  split; [exact Hload|]. split; [reflexivity|].
  apply (C4_untrained_dist step_edge (sized 6 6) step_edge_loaded
           (mkPoint 3 2) (mkPoint 4 3) Hload).
  - reflexivity.
  - vm_compute; intuition congruence.
  - vm_compute; intuition congruence.
Defined.

(** Training from the seed, whose walk has one point. *)
Lemma C6_doTraining_with_few_points_witness :
  findTrainingPoints step_edge_paused (Some (mkPoint 3 2)) = Ok [mkPoint 3 2] /\
  doTraining (Some (mkPoint 3 2)) step_edge_paused
    = (Ok tt, set_trainingPoints (Some [mkPoint 3 2]) step_edge_paused).
Proof.
  assert (findTrainingPoints step_edge_paused (Some (mkPoint 3 2)) = Ok [mkPoint 3 2])
    as Hpts by (vm_compute; reflexivity).
  split; [exact Hpts|].
  apply (C6_doTraining_with_few_points step_edge_paused (Some (mkPoint 3 2))
           [mkPoint 3 2] Hpts).
  simpl; lia.
Defined.

End OnStepEdge.

(** ** Cells of the matrices of a search *)

Section Cells.
Context {V : Type}.

Lemma constant_matrix_cell h w (v : V) p :
  cell (Some (constant_matrix h w v)) p = if decide (in_image h w p) then Some v else None.
Proof.
  destruct p as [x y]. rewrite cell_Some. unfold constant_matrix, in_image. simpl.
  rewrite tabulate_get. case_decide.
  - simpl. rewrite tabulate_get. repeat case_decide; first [reflexivity|lia|apply arr_get_empty].
  - rewrite arr_get_empty. simpl. case_decide; [lia|reflexivity].
Qed.

Lemma cell_row (m : matrix V) row p :
  arr_get m (py p) = Some row -> cell (Some m) p = arr_get row (px p).
Proof.
  intros Hrow. destruct p as [x y]. rewrite cell_Some. simpl in Hrow.
  rewrite Hrow. reflexivity.
Qed.

End Cells.

(** ** Visited pixels and relaxations (C1) *)

Section Visited.
Context {num : Type} {N : JSNumber num}.

(** What a relaxation changes: nothing when the path through [p] is no
    cheaper; else the cost and the parent of [q], and [q] is queued.  The
    entry of [q] in [visited] is not read, and [visited] is not written. *)
Lemma relax_effect (H W : Z) (s : Scissors num) p q :
  searching H W s -> in_image H W p -> in_image H W q ->
  exists d s',
    dist s (px p) (py p) (px q) (py q) = Ok d /\
    relax p q s = (Ok tt, s') /\ visited s' = visited s /\
    (let pqCost := ToNumber (cell (cost s) p) ⊕ d in
     if pqCost <# ToNumber (cell (cost s) q)
     then cell (cost s') q = Some pqCost /\ cell (parents s') q = Some p /\
          exists q2, pq s' = Some q2 /\ q ∈ items q2
     else s' = s) /\
    forall x, x <> q ->
      cell (cost s') x = cell (cost s) x /\ cell (parents s') x = cell (parents s) x.
Proof.
  intros Hs Hp Hq.
  destruct (relax_cases H W s p q Hs Hp Hq)
    as (c & rp & rq & d & Hc & Hrp & Hrq & Hd & Hcases).
  assert (Ecp : cell (cost s) p = arr_get rp (px p)).
  { rewrite Hc. apply cell_row. exact Hrp. }
  assert (Ecq : cell (cost s) q = arr_get rq (px q)).
  { rewrite Hc. apply cell_row. exact Hrq. }
  exists d. cbv zeta in Hcases |- *. rewrite Ecp, Ecq.
  destruct Hcases as [[Hlt Hr]|[Hlt Hr]]; rewrite Hlt.
  - exists s. repeat split; auto.
  - destruct Hr as (par & rpar & q0 & q1 & q2 & Hpar & Hrpar & _ & _ & Hperm & _ & Hr).
    eexists. split; [exact Hd|]. split; [exact Hr|]. split; [reflexivity|].
    assert (Eq : q = mkPoint (px q) (py q)) by (destruct q; reflexivity).
    split; [split; [|split]|].
    + change (cost (set_pq _ (set_parents _ (set_cost ?v _)))) with v.
      rewrite (cell_put c rq _ _ _ q Hrq). case_decide; [reflexivity|contradiction].
    + change (parents (set_pq _ (set_parents ?v _))) with v.
      rewrite (cell_put par rpar _ _ _ q Hrpar). case_decide; [reflexivity|contradiction].
    + exists q2. split; [reflexivity|]. rewrite Hperm. left.
    + intros x Hx. split.
      * change (cost (set_pq _ (set_parents _ (set_cost ?v _)))) with v.
        rewrite (cell_put c rq _ _ _ x Hrq), Hc. case_decide; [congruence|reflexivity].
      * change (parents (set_pq _ (set_parents ?v _))) with v.
        rewrite (cell_put par rpar _ _ _ x Hrpar), Hpar.
        case_decide; [congruence|reflexivity].
Qed.

Lemma relax_visited (H W : Z) (s s' : Scissors num) p q :
  searching H W s -> in_image H W p -> in_image H W q ->
  relax p q s = (Ok tt, s') -> visited s' = visited s.
Proof.
  intros Hs Hp Hq Hr.
  destruct (relax_effect H W s p q Hs Hp Hq) as (d & s'' & _ & Hr' & Hv & _).
  congruence.
Qed.

Lemma visited_grows_refl (s : Scissors num) : visited_grows s s.
Proof. intros x Hx. exact Hx. Qed.

Lemma visited_grows_trans (s1 s2 s3 : Scissors num) :
  visited_grows s1 s2 -> visited_grows s2 s3 -> visited_grows s1 s3.
Proof. intros H12 H23 x Hx. apply H23, H12, Hx. Qed.

(** One pass of the loop marks the pixel it pops, and unmarks none. *)
Lemma doWork_step_visited (H W : Z) newPoints (s : Scissors num) q0 :
  searching H W s -> pq s = Some q0 -> pq_isEmpty q0 = false ->
  exists p s',
    doWork_step newPoints s = (Ok (newPoints ++ [(p, cell (parents s) p)]), s') /\
    searching H W s' /\ visited_grows s s' /\ is_visited s' p.
Proof.
  intros Hs Hq0 Hne.
  set (J0 := fun t : Scissors num => t = s).
  set (J := fun t : Scissors num =>
    searching H W t /\ visited_grows s t /\
    exists p q1, pq_pop q0 = Ok (p, q1) /\ is_visited t p).
  assert (HJ0 : forall t, J0 t -> searching H W t) by (intros t ->; exact Hs).
  assert (HJ : forall t, J t -> searching H W t) by (intros t Ht; apply Ht).
  assert (Hpop : forall t q0' p q1 vis rv,
    J0 t -> pq t = Some q0' -> pq_pop q0' = Ok (p, q1) ->
    items q0' ≡ₚ p :: items q1 -> queue_ok q1 ->
    visited t = Some vis -> arr_get vis (py p) = Some rv ->
    J (set_visited (Some (arr_put vis (py p) (Some (arr_put rv (px p) (Some true)))))
         (set_pq (Some q1) t))).
  { intros t q0' p q1 vis rv -> Hq Hp Hperm Hok Hv Hrv.
    assert (q0' = q0) as -> by congruence.
    split; [eapply searching_pop; eauto|]. split.
    - intros x Hx. unfold is_visited in *.
      change (visited (set_visited ?v _)) with v.
      rewrite (cell_put vis rv _ _ _ x Hrv). case_decide; [reflexivity|].
      rewrite <- Hv. exact Hx.
    - exists p, q1. split; [exact Hp|]. unfold is_visited.
      change (visited (set_visited ?v _)) with v.
      rewrite (cell_put vis rv _ _ _ p Hrv).
      case_decide as Hx; [reflexivity|]. destruct p; contradiction. }
  assert (Hrelax : forall t p q t',
    J t -> in_image H W p -> in_image H W q -> relax p q t = (Ok tt, t') -> J t').
  { intros t p q t' (Ht & Hg & p0 & q1 & Hp0 & Hv0) Hp Hq Hr.
    pose proof (relax_visited H W t t' p q Ht Hp Hq Hr) as Hv.
    split; [exact (searching_relax H W t t' p q Ht Hp Hq Hr)|]. split.
    - intros x Hx. unfold is_visited. rewrite Hv. apply Hg, Hx.
    - exists p0, q1. split; [exact Hp0|]. unfold is_visited. rewrite Hv. exact Hv0. }
  destruct (doWork_step_total H W J0 J HJ0 HJ Hpop Hrelax newPoints s q0
              eq_refl Hq0 Hne)
    as (p & q1 & s' & Hp & _ & Hstep & Ht & Hg & p0 & q1' & Hp0 & Hv0).
  assert (p0 = p) as -> by congruence.
  exists p, s'. auto.
Qed.

Lemma doWork_loop_visited (H W : Z) fuel :
  forall pointCount newPoints (s : Scissors num),
    searching H W s ->
    exists ext s',
      doWork_loop fuel pointCount newPoints s = (Ok (newPoints ++ ext), s') /\
      searching H W s' /\ visited_grows s s' /\
      Forall (fun e => is_visited s' (fst e)) ext.
Proof.
  induction fuel as [|fuel IH]; intros pc np s Hs.
  - exists [], s. rewrite app_nil_r. split; [reflexivity|]. split; [exact Hs|].
    split; [apply visited_grows_refl|constructor].
  - destruct (sr_pq _ _ _ Hs) as (q0 & Hq0 & Hok & Hin).
    simpl. run_M. rewrite Hq0. run_M.
    destruct (negb (pq_isEmpty q0) && (pc <? pointsPerPost s)) eqn:Hcond.
    + apply andb_true_iff in Hcond as [Hne _]. apply negb_true_iff in Hne.
      destruct (doWork_step_visited H W np s q0 Hs Hq0 Hne)
        as (p & s1 & Hstep & Hs1 & Hg1 & Hv1).
      rewrite Hstep.
      destruct (IH (pc + 1) (np ++ [(p, cell (parents s) p)]) s1 Hs1)
        as (ext & s2 & Hloop & Hs2 & Hg2 & Hext).
      rewrite Hloop. exists ((p, cell (parents s) p) :: ext), s2.
      rewrite <- app_assoc. split; [reflexivity|]. split; [exact Hs2|].
      split; [eapply visited_grows_trans; eauto|].
      constructor; [apply Hg2, Hv1|exact Hext].
    + exists [], s. rewrite app_nil_r. split; [reflexivity|]. split; [exact Hs|].
      split; [apply visited_grows_refl|constructor].
Qed.

Lemma doWork_visited (H W : Z) (s : Scissors num) :
  searching H W s ->
  exists batch s',
    doWork s = (Ok (Some batch), s') /\ searching H W s' /\ visited_grows s s' /\
    Forall (fun e => is_visited s' (fst e)) batch.
Proof.
  intros Hs. unfold doWork. run_M.
  rewrite (sr_working _ _ _ Hs). cbn [negb].
  destruct (doWork_loop_visited H W (S (Z.to_nat (pointsPerPost (set_timeout (Some tt) s))))
              0 [] (set_timeout (Some tt) s) (searching_timeout H W s Hs))
    as (ext & s' & Hloop & Hs' & Hg & Hext).
  run_M.
  match goal with
  | |- context [doWork_loop ?f 0 [] ?t] =>
      change (doWork_loop f 0 [] t)
        with (doWork_loop (S (Z.to_nat (pointsPerPost (set_timeout (Some tt) s))))
                0 [] (set_timeout (Some tt) s))
  end.
  rewrite Hloop. exists ext, s'. auto.
Qed.

Lemma repeat_doWork_visited (H W : Z) n :
  forall s : Scissors num, searching H W s ->
    exists rs s',
      repeat_doWork n s = (rs, s') /\ searching H W s' /\ visited_grows s s' /\
      Forall (fun r => exists batch,
                r = Ok (Some batch) /\ Forall (fun e => is_visited s' (fst e)) batch) rs.
Proof.
  induction n as [|n IH]; intros s Hs.
  - exists [], s. split; [reflexivity|]. split; [exact Hs|].
    split; [apply visited_grows_refl|constructor].
  - destruct (doWork_visited H W s Hs) as (batch & s1 & Hw & Hs1 & Hg1 & Hb).
    destruct (IH s1 Hs1) as (rs & s2 & Hrs & Hs2 & Hg2 & Hall).
    exists (Ok (Some batch) :: rs), s2. simpl. rewrite Hw, Hrs.
    split; [reflexivity|]. split; [exact Hs2|].
    split; [eapply visited_grows_trans; eauto|].
    constructor; [|exact Hall].
    exists batch. split; [reflexivity|].
    eapply Forall_impl; [exact Hb|]. intros e He. apply Hg2, He.
Qed.

(** C1, amended.  In a search, on a trained object as on one that is not
    ([setPoint] starts one on every object that holds an image,
    [search_start], and [doWork] keeps it), every pixel that [doWork] pops is
    marked visited and stays so through every later call.  Its cost and its parent
    are not final: [visited] is never read, and the relaxation of a neighbour
    [q], visited or not, writes the cost and the parent of [q] and queues [q]
    exactly when the path through the popped pixel is strictly cheaper than
    the cost [q] has; it writes no other entry of [cost] and [parents]. *)
Theorem C1_visited_and_relaxation (H W : Z) (s : Scissors num) :
  searching H W s ->
  (forall n, exists rs s',
     repeat_doWork n s = (rs, s') /\ searching H W s' /\ visited_grows s s' /\
     Forall (fun r => exists batch,
               r = Ok (Some batch) /\ Forall (fun e => is_visited s' (fst e)) batch) rs) /\
  (forall p q, in_image H W p -> in_image H W q ->
     exists d s',
       dist s (px p) (py p) (px q) (py q) = Ok d /\
       relax p q s = (Ok tt, s') /\ visited s' = visited s /\
       (let pqCost := ToNumber (cell (cost s) p) ⊕ d in
        if pqCost <# ToNumber (cell (cost s) q)
        then cell (cost s') q = Some pqCost /\ cell (parents s') q = Some p /\
             exists q2, pq s' = Some q2 /\ q ∈ items q2
        else s' = s) /\
       forall x, x <> q ->
         cell (cost s') x = cell (cost s) x /\ cell (parents s') x = cell (parents s) x).
Proof.
  intros Hs. split.
  - intros n. apply repeat_doWork_visited. exact Hs.
  - intros p q. apply relax_effect. exact Hs.
Qed.

End Visited.

(** * More properties of the engine *)

(** ** The neighbours of a pixel *)

Section Neighbours.
Context {num : Type} {N : JSNumber num}.

(** The two nested loops of [adj] list the window around [p], without [p]. *)
Lemma adj_window (p : Point) (sx ex sy ey : Z) :
  let l := for_pure sy (ey + 1) (fun y list =>
             for_pure sx (ex + 1) (fun x list =>
               if negb (x =? px p) || negb (y =? py p)
               then list ++ [mkPoint x y] else list) list) [] in
  NoDup l /\
  forall q, q ∈ l <-> (sx <= px q <= ex /\ sy <= py q <= ey /\ q <> p).
Proof.
  cbv zeta.
  destruct (Z_le_gt_dec sy (ey + 1)) as [Hy|Hy].
  2:{ rewrite for_pure_empty by lia. split; [constructor|].
      intros q. split; [intros Hq; inversion Hq|lia]. }
  destruct (Z_le_gt_dec sx (ex + 1)) as [Hx|Hx].
  2:{ replace (for_pure sy (ey + 1) _ []) with (@nil Point).
      - split; [constructor|]. intros q. split; [intros Hq; inversion Hq|lia].
      - symmetry.
        refine (for_pure_inv (fun _ l => l = []) sy (ey + 1) _ [] Hy eq_refl _).
        intros y l _ ->. apply for_pure_empty. lia. }
  cut (NoDup (for_pure sy (ey + 1) (fun y list =>
             for_pure sx (ex + 1) (fun x list =>
               if negb (x =? px p) || negb (y =? py p)
               then list ++ [mkPoint x y] else list) list) []) /\
       forall q, q ∈ for_pure sy (ey + 1) (fun y list =>
             for_pure sx (ex + 1) (fun x list =>
               if negb (x =? px p) || negb (y =? py p)
               then list ++ [mkPoint x y] else list) list) [] <->
         (sx <= px q <= ex /\ sy <= py q < ey + 1 /\ q <> p)).
  { intros [Hnd Hl]. split; [exact Hnd|]. intros q. rewrite Hl. intuition lia. }
  refine (for_pure_inv (fun i l =>
    NoDup l /\
    forall q, q ∈ l <-> (sx <= px q <= ex /\ sy <= py q < i /\ q <> p))
    sy (ey + 1) _ [] Hy _ _).
  - split; [constructor|]. intros q. split; [intros Hq; inversion Hq|lia].
  - intros y l Hyr [Hnd Hl].
    assert (Hrow :
      NoDup (for_pure sx (ex + 1) (fun x list =>
               if negb (x =? px p) || negb (y =? py p)
               then list ++ [mkPoint x y] else list) l) /\
      forall q, q ∈ for_pure sx (ex + 1) (fun x list =>
               if negb (x =? px p) || negb (y =? py p)
               then list ++ [mkPoint x y] else list) l <->
        ((sx <= px q <= ex /\ sy <= py q < y /\ q <> p) \/
         (py q = y /\ sx <= px q < ex + 1 /\ q <> p))).
    { refine (for_pure_inv (fun j l' =>
        NoDup l' /\
        forall q, q ∈ l' <->
          ((sx <= px q <= ex /\ sy <= py q < y /\ q <> p) \/
           (py q = y /\ sx <= px q < j /\ q <> p)))
        sx (ex + 1) _ l Hx _ _).
      - split; [exact Hnd|]. intros q. rewrite Hl. split; [auto|].
        intros [Hq|Hq]; [exact Hq|exfalso; lia].
      - intros x l' Hxr [Hnd' Hl'].
        destruct (negb (x =? px p) || negb (y =? py p)) eqn:E.
        + assert (Hne : mkPoint x y <> p).
          { intros <-. simpl in E. rewrite !Z.eqb_refl in E. discriminate. }
          split.
          * apply NoDup_app. split; [exact Hnd'|]. split; [|apply NoDup_singleton].
            intros q Hq Hq'. apply list_elem_of_singleton in Hq'. subst q.
            apply Hl' in Hq. simpl in Hq. lia.
          * intros q. rewrite elem_of_app, list_elem_of_singleton, Hl'.
            split.
            -- intros [[Hq|Hq]| ->]; [left; exact Hq|right; intuition lia|].
               right. simpl. split; [reflexivity|]. split; [lia|exact Hne].
            -- intros [Hq|(Hqy & Hqx & Hqp)]; [left; left; exact Hq|].
               destruct (decide (px q = x)) as [Hqx'|Hqx'].
               ++ right. destruct q; simpl in *; subst; reflexivity.
               ++ left. right. intuition lia.
        + apply orb_false_iff in E as [E1 E2].
          apply negb_false_iff, Z.eqb_eq in E1, E2.
          split; [exact Hnd'|]. intros q. rewrite Hl'. split.
          * intros [Hq|Hq]; [left; exact Hq|right; intuition lia].
          * intros [Hq|(Hqy & Hqx & Hqp)]; [left; exact Hq|].
            right. split; [exact Hqy|]. split; [|exact Hqp].
            assert (px q <> x); [|lia].
            intros Hqx'. apply Hqp. destruct q, p; simpl in *; congruence. }
    destruct Hrow as [Hnd' Hl']. split; [exact Hnd'|].
    intros q. rewrite Hl'. split.
    + intros [Hq|Hq]; intuition lia.
    + intros Hq. destruct (decide (py q = y)); [right|left]; intuition lia.
Qed.

(** The neighbours of a pixel are at most eight. *)
Lemma adjacent_at_most_8 (p : Point) (l : list Point) :
  NoDup l -> (forall q, q ∈ l -> adjacent p q) -> (length l <= 8)%nat.
Proof.
  intros Hnd Hl.
  set (k := [mkPoint (px p - 1) (py p - 1); mkPoint (px p) (py p - 1);
             mkPoint (px p + 1) (py p - 1); mkPoint (px p - 1) (py p);
             mkPoint (px p + 1) (py p); mkPoint (px p - 1) (py p + 1);
             mkPoint (px p) (py p + 1); mkPoint (px p + 1) (py p + 1)]).
  change 8%nat with (length k). apply submseteq_length, NoDup_submseteq; [exact Hnd|].
  intros q Hq. destruct (Hl q Hq) as (Hne & Hx & Hy).
  assert (Hqx : px q = px p - 1 \/ px q = px p \/ px q = px p + 1) by lia.
  assert (Hqy : py q = py p - 1 \/ py q = py p \/ py q = py p + 1) by lia.
  destruct q as [x y], p as [a b]. simpl in *. unfold k. simpl.
  destruct Hqx as [->|[->| ->]], Hqy as [->|[->| ->]];
    try (exfalso; apply Hne; reflexivity);
    repeat first [apply list_elem_of_here|apply list_elem_of_further].
Qed.

(** What [adj] returns on an object that holds an image. *)
Lemma adj_spec (H W : Z) (s : Scissors num) (p : Point) :
  image_size H W s ->
  exists l, adj s p = Ok l /\ NoDup l /\
    forall q, q ∈ l <-> (in_image H W q /\ adjacent p q).
Proof.
  intros (g & r0 & Hg & Hlen & Hr0 & Hw).
  unfold adj. rewrite Hg. cbn [defined]. rewrite bind_Ok.
  rewrite (row_length_Ok g 0 r0 Hr0), bind_Ok, Hw, Hlen.
  eexists. split; [reflexivity|].
  destruct (adj_window p (Z.max (px p - 1) 0) (Z.min (px p + 1) (W - 1))
              (Z.max (py p - 1) 0) (Z.min (py p + 1) (H - 1))) as [Hnd Hl].
  split; [exact Hnd|]. intros q. rewrite Hl. unfold in_image, adjacent.
  intuition lia.
Qed.

(** X1. On an object that holds an image of height [H] and width [W],
    [adj(p)] returns, without repetition, exactly the pixels of the image that
    are among the eight neighbours of [p]: never [p] itself, never a pixel
    outside the image, and at most eight pixels. *)
Theorem X1_adj_lists_the_neighbours (H W : Z) (s : Scissors num) (p : Point) :
  image_size H W s ->
  exists l, adj s p = Ok l /\ NoDup l /\ (length l <= 8)%nat /\
    forall q, q ∈ l <-> (in_image H W q /\ adjacent p q).
Proof.
  intros Hs. destruct (adj_spec H W s p Hs) as (l & Hadj & Hnd & Hl).
  exists l. split; [exact Hadj|]. split; [exact Hnd|]. split; [|exact Hl].
  apply (adjacent_at_most_8 p l Hnd). intros q Hq. apply Hl, Hq.
Qed.

End Neighbours.

(** ** The batches of [doWork] *)

Section Batches.
Context {num : Type} {N : JSNumber num}.

Lemma M_bind_Ok_inv {A B} (m : M num A) (k : A -> M num B) s b s' :
  (m ≫= k) s = (Ok b, s') ->
  exists a s1, m s = (Ok a, s1) /\ k a s1 = (Ok b, s').
Proof.
  unfold mbind, M_bind. destruct (m s) as [[a|e] s1]; [eauto|discriminate].
Qed.

Lemma relax_preserves_pointsPerPost p q :
  preserves pointsPerPost (relax (num := num) p q).
Proof. unfold relax. frame. Qed.

Lemma doWork_step_preserves_pointsPerPost np :
  preserves pointsPerPost (doWork_step (num := num) np).
Proof. unfold doWork_step. frame. Qed.

(** A pass of the loop that returns has added one pair to the batch. *)
Lemma doWork_step_one_more np (s s' : Scissors num) l :
  doWork_step np s = (Ok l, s') -> exists e, l = np ++ [e].
Proof.
  unfold doWork_step. intros H.
  repeat match type of H with
  | (_ ≫= _) _ = (Ok _, _) =>
      let a := fresh "a" in
      let t := fresh "t" in
      let Ha := fresh "Ha" in
      apply M_bind_Ok_inv in H as (a & t & Ha & H); cbv beta in H
  | (let '(_, _) := ?x in _) _ = _ => destruct x
  end.
  injection H as <- _. eauto.
Qed.

Lemma doWork_loop_length fuel :
  forall pc np (s s' : Scissors num) l,
    doWork_loop fuel pc np s = (Ok l, s') ->
    (length l <= length np + Z.to_nat (pointsPerPost s - pc))%nat.
Proof.
  induction fuel as [|fuel IH]; intros pc np s s' l H.
  - injection H as <- _. lia.
  - simpl in H. apply M_bind_Ok_inv in H as (s0 & t & Hget & H).
    injection Hget as <- <-.
    apply M_bind_Ok_inv in H as (q0 & t & Hq & H).
    assert (t = s) as ->.
    { unfold lift in Hq. injection Hq as _ <-. reflexivity. }
    destruct (negb (pq_isEmpty q0) && (pc <? pointsPerPost s)) eqn:Hc.
    + apply andb_true_iff in Hc as [_ Hlt]. apply Z.ltb_lt in Hlt.
      apply M_bind_Ok_inv in H as (np' & s1 & Hstep & H).
      destruct (doWork_step_one_more np s s1 np' Hstep) as [e ->].
      pose proof (doWork_step_preserves_pointsPerPost np s) as Hp.
      rewrite Hstep in Hp. simpl in Hp.
      apply IH in H. rewrite Hp in H. rewrite length_app in H. simpl in H. lia.
    + injection H as <- _. lia.
Qed.

(** A call of [doWork] that returns a batch returns at most [pointsPerPost]
    pairs. *)
Lemma doWork_batch_length (s s' : Scissors num) batch :
  doWork s = (Ok (Some batch), s') ->
  (length batch <= Z.to_nat (pointsPerPost s))%nat.
Proof.
  intros H. unfold doWork in H.
  apply M_bind_Ok_inv in H as (s0 & t & Hget & H). injection Hget as <- <-.
  destruct (negb (working s)); [discriminate|].
  apply M_bind_Ok_inv in H as ([] & t & Hmod & H).
  injection Hmod as <-.
  apply M_bind_Ok_inv in H as (s0 & t & Hget & H). injection Hget as <- <-.
  apply M_bind_Ok_inv in H as (l & t & Hloop & H).
  injection H as <- _.
  apply doWork_loop_length in Hloop. simpl in Hloop.
  change (pointsPerPost (set_timeout (Some tt) s)) with (pointsPerPost s) in Hloop.
  lia.
Qed.

(** X16. [doWork] on an object whose flag [working] is set: with no queue,
    as after [setWorking(true)] and before any [setPoint], it throws a
    TypeError; with an empty queue it returns the empty batch.  In both cases
    it has set [timeout] and nothing else. *)
Theorem X16_doWork_without_work (s : Scissors num) :
  working s = true ->
  (pq s = None -> doWork s = (Throw TypeError, set_timeout (Some tt) s)) /\
  (forall q, pq s = Some q -> pq_isEmpty q = true ->
     doWork s = (Ok (Some []), set_timeout (Some tt) s)).
Proof.
  intros Hw. split.
  - intros Hq. unfold doWork. run_M. rewrite Hw. cbn [negb]. run_M.
    cbn [doWork_loop]. run_M. rewrite Hq. reflexivity.
  - intros q Hq He. unfold doWork. run_M. rewrite Hw. cbn [negb]. run_M.
    cbn [doWork_loop]. run_M. rewrite Hq. run_M. rewrite He. reflexivity.
Qed.

End Batches.

(** ** A new search on an object that has searched *)

(** Frames for a part of the object that is itself an object: the setters
    are compared on the fields of the record. *)
Ltac frame_fields_step :=
  first
    [ apply preserves_ret
    | apply preserves_get
    | apply preserves_lift
    | apply preserves_throw
    | apply preserves_modify; intros []; reflexivity
    | apply preserves_bind; [|intros]
    | apply preserves_for_each; intros
    | match goal with
      | |- preserves _ (if ?b then _ else _) => destruct b
      | |- preserves _ (let '(_, _) := ?x in _) => destruct x
      | |- preserves _ (match ?x with _ => _ end) => destruct x
      end ].

Ltac frame_fields := repeat frame_fields_step.

Section Reset.
Context {num : Type} {N : JSNumber num}.

(** [setPoint] reads nothing of a previous search. *)
Lemma setPoint_forget_search sp (s : Scissors num) :
  fst (setPoint sp s) = fst (setPoint sp (forget_search s)) /\
  set_timeout None (snd (setPoint sp s)) = snd (setPoint sp (forget_search s)).
Proof.
  destruct s. unfold forget_search, setPoint, setWorking. run_M.
  destruct (pq_push _ _ _) as [q|e]; run_M; [|split; reflexivity].
  destruct (mat_put _ _ _ _) as [c|e]; split; reflexivity.
Qed.

Lemma doWork_loop_keeps_the_rest fuel :
  forall pc np,
    preserves (fun s => forget_search s) (doWork_loop (num := num) fuel pc np).
Proof.
  induction fuel as [|fuel IH]; intros pc np; simpl.
  - apply preserves_ret.
  - frame_fields. apply IH.
Qed.

(** [doWork] writes [timeout] and the search, nothing else. *)
Lemma doWork_keeps_the_rest :
  preserves (fun s => forget_search s) (doWork (num := num)).
Proof. unfold doWork. frame_fields. all: apply doWork_loop_keeps_the_rest. Qed.

Lemma repeat_doWork_keeps_the_rest n :
  forall s : Scissors num, forget_search (snd (repeat_doWork n s)) = forget_search s.
Proof.
  induction n as [|n IH]; intros s; simpl; [reflexivity|].
  pose proof (doWork_keeps_the_rest s) as Hs. cbv beta in Hs.
  destruct (doWork s) as [r s1]. simpl in Hs.
  specialize (IH s1). destruct (repeat_doWork n s1) as [rs s2]. simpl in *.
  congruence.
Qed.

(** X3. [setPoint] starts afresh: after any number of calls of [doWork],
    on any object, [setPoint(sp)] returns or throws as it does before these
    calls and leaves the same object, up to the property [timeout] that
    [doWork] has set. *)
Theorem X3_setPoint_starts_afresh (s : Scissors num) (sp : Point) (n : nat) :
  let s2 := snd (repeat_doWork n s) in
  fst (setPoint sp s2) = fst (setPoint sp s) /\
  set_timeout None (snd (setPoint sp s2)) = set_timeout None (snd (setPoint sp s)).
Proof.
  cbv zeta.
  destruct (setPoint_forget_search sp (snd (repeat_doWork n s))) as [E1 E2].
  destruct (setPoint_forget_search sp s) as [E3 E4].
  rewrite repeat_doWork_keeps_the_rest in E1, E2.
  split; congruence.
Qed.

End Reset.

(** ** The end of a pause (C8) *)

Section PauseEnds.
Context {num : Type} {N : JSNumber num}.

(** C8. While [working] is false, any number of [doWork] calls return no
    batch and leave the whole object, so [visited], [cost], [parents] and the
    queue, as it was.  A call that ends the pause is [setWorking(true)], which
    changes nothing but the flag, or [setPoint].  [setPoint] sets the flag and
    resets the search in full: what it returns and the object it leaves are
    those it gives on the object with the paused search erased ([working],
    [curPoint], [visited], [parents], [cost], the queue and [timeout]); and
    for a seed inside the image it returns and leaves [visited] false and
    [cost] at [MAX_VALUE] everywhere but 0 at the seed, [parents] with no
    entry, and a queue that holds the seed and nothing else.  ([searchGranBits]
    is 8 on every object: the constructor sets it and no method writes it.) *)
Theorem C8_paused_doWork_changes_nothing (s : Scissors num) :
  working s = false ->
  (forall n, repeat_doWork n s = (replicate n (Ok None), s)) /\
  (forall c, working (invoke c s) = true ->
     c = SetWorking true \/ exists sp, c = SetPoint sp) /\
  (let s' := invoke (SetWorking true) s in
   working s' = true /\ visited s' = visited s /\ cost s' = cost s /\
   parents s' = parents s /\ pq s' = pq s) /\
  (forall sp, working (invoke (SetPoint sp) s) = true) /\
  (forall sp,
     fst (setPoint sp s) = fst (setPoint sp (forget_search s)) /\
     set_timeout None (snd (setPoint sp s)) = snd (setPoint sp (forget_search s))) /\
  (forall sp, searchGranBits s = 8 -> in_image (height s) (width s) sp ->
     exists s1 q row,
       setPoint sp s = (Ok tt, s1) /\ working s1 = true /\ curPoint s1 = Some sp /\
       visited s1 = Some (constant_matrix (height s) (width s) false) /\
       parents s1 = Some (empty_rows (height s)) /\
       arr_get (constant_matrix (height s) (width s) MAX_VALUE) (py sp) = Some row /\
       cost s1 = Some (arr_put (constant_matrix (height s) (width s) MAX_VALUE) (py sp)
                         (Some (arr_put row (px sp) (Some (of_Z 0))))) /\
       pq s1 = Some q /\ items q ≡ₚ [sp]).
Proof.
  intros H. split; [|split; [|split; [|split; [|split]]]].
  - intros n. apply repeat_doWork_paused. exact H.
  - intros c Hc. destruct c as [w|w h|data| |p|sp|]; simpl in Hc.
    + left. destruct w; [reflexivity|discriminate].
    + unfold setDimensions, modify, mbind, M_bind in Hc. simpl in Hc. congruence.
    + rewrite setData_preserves_working in Hc. congruence.
    + unfold resetTraining, modify in Hc. simpl in Hc. congruence.
    + rewrite doTraining_preserves_working in Hc. congruence.
    + right. eauto.
    + rewrite (doWork_paused s H) in Hc. simpl in Hc. congruence.
  - simpl. repeat split.
  - intros sp. simpl.
    assert (Hw : forall (m : M num unit) (t : Scissors num), working t = true ->
              preserves working m -> working (snd (m t)) = true).
    { intros m t Ht Hm. rewrite Hm. exact Ht. }
    unfold setPoint. unfold mbind at 1. unfold M_bind, setWorking, modify at 1.
    apply Hw; [reflexivity|]. frame.
  - intros sp. apply setPoint_forget_search.
  - intros sp Hbits Hsp.
    destruct (setPoint_fields s sp Hbits Hsp)
      as (s1 & q & row & Hset & Hwork & Hvis & Hpar & Hrow & Hcost & Hq & Hitems & _
          & _ & _ & _ & _ & _ & _ & _ & _ & Hcur).
    exists s1, q, row. repeat (split; [assumption|]). assumption.
Qed.

End PauseEnds.

(** ** The tree of the parents *)

Section Passes.
Context {num : Type} {N : JSNumber num}.

Lemma searching_image_size (H W : Z) (s : Scissors num) :
  searching H W s -> 1 <= H -> image_size H W s.
Proof.
  intros Hs HH. destruct (sr_greyscale _ _ _ Hs) as (g & Hg & Hrows & Hlen & Hw).
  destruct (Hrows 0 ltac:(lia)) as [r0 Hr0].
  exists g, r0. rewrite (row_of_Some g 0 r0 Hr0) in Hw. auto.
Qed.

(** An invariant [I] of the search between two passes of the loop, and what
    holds while the neighbours of the popped pixel [p] are relaxed, [J p]. *)
Section PassInvariant.
Variables (H W : Z) (I : Scissors num -> Prop) (J : Point -> Scissors num -> Prop).
Hypothesis I_searching : forall s, I s -> searching H W s.
Hypothesis J_searching : forall p s, J p s -> searching H W s.
Hypothesis I_pop : forall s q0 p q1 vis rv,
  I s -> pq s = Some q0 -> pq_pop q0 = Ok (p, q1) ->
  items q0 ≡ₚ p :: items q1 -> queue_ok q1 ->
  visited s = Some vis -> arr_get vis (py p) = Some rv ->
  J p (set_visited (Some (arr_put vis (py p) (Some (arr_put rv (px p) (Some true)))))
         (set_pq (Some q1) s)).
Hypothesis J_relax : forall s p q s',
  J p s -> in_image H W p -> in_image H W q -> adjacent p q ->
  relax p q s = (Ok tt, s') -> J p s'.
Hypothesis J_done : forall p s, J p s -> I s.
Hypothesis I_timeout : forall s, I s -> I (set_timeout (Some tt) s).

Lemma for_each_neighbour p l s :
  J p s -> in_image H W p ->
  Forall (fun q => in_image H W q /\ adjacent p q) l ->
  exists s', for_each l (relax p) s = (Ok tt, s') /\ J p s'.
Proof.
  intros HJ Hp Hl. revert s HJ. induction Hl as [|q l [Hq Hpq] Hl IH]; intros s HJ.
  - exists s. split; [reflexivity|exact HJ].
  - destruct (relax_effect H W s p q (J_searching p s HJ) Hp Hq)
      as (d & s1 & _ & Hr & _).
    destruct (IH s1 (J_relax s p q s1 HJ Hp Hq Hpq Hr)) as (s2 & Hs2 & HJ2).
    exists s2. split; [|exact HJ2].
    simpl. unfold mbind, M_bind. rewrite Hr. exact Hs2.
Qed.

Lemma pass_total newPoints s q0 :
  I s -> pq s = Some q0 -> pq_isEmpty q0 = false ->
  exists p s',
    doWork_step newPoints s = (Ok (newPoints ++ [(p, cell (parents s) p)]), s') /\
    I s'.
Proof.
  intros HI Hq0 Hne. pose proof (I_searching s HI) as Hs.
  destruct (sr_pq _ _ _ Hs) as (q0' & Hq0' & Hok & Hin).
  rewrite Hq0 in Hq0'. injection Hq0' as <-.
  destruct (pq_pop_total q0 Hok Hne) as (p & q1 & Hpop & Hperm & Hok1).
  assert (Hp : in_image H W p).
  { rewrite Forall_forall in Hin. apply Hin. rewrite Hperm. left. }
  destruct (sr_parents _ _ _ Hs) as (par & Hpar & Hparr).
  destruct (sr_visited _ _ _ Hs) as (vis & Hvis & Hvisr).
  destruct (Hparr (py p) (proj2 Hp)) as [rpar Hrpar].
  destruct (Hvisr (py p) (proj2 Hp)) as [rv Hrv].
  pose proof (I_pop s q0 p q1 vis rv HI Hq0 Hpop Hperm Hok1 Hvis Hrv) as HJ1.
  set (s1 := set_visited _ _) in HJ1.
  assert (HH : 1 <= H) by (destruct Hp; lia).
  destruct (adj_spec H W s1 p (searching_image_size H W s1 (J_searching p s1 HJ1) HH))
    as (l & Hadj & _ & Hl).
  assert (Hall : Forall (fun q => in_image H W q /\ adjacent p q) l).
  { apply Forall_forall. intros q Hq. apply Hl, Hq. }
  destruct (for_each_neighbour p l s1 HJ1 Hp Hall) as (s2 & Hs2 & HJ2).
  exists p, s2. split; [|exact (J_done p s2 HJ2)].
  unfold doWork_step. run_M. rewrite Hq0. run_M. rewrite Hpop. run_M.
  rewrite Hpar. run_M. rewrite (mat_get_Ok par _ (px p) rpar Hrpar). run_M.
  rewrite Hvis. run_M. rewrite (mat_put_Ok vis _ (px p) _ rv Hrv). run_M.
  match goal with |- context [adj ?t p] => change t with s1 end.
  rewrite Hadj. run_M. rewrite Hs2.
  destruct p as [x y]. rewrite cell_Some. simpl in Hrpar |- *. rewrite Hrpar.
  reflexivity.
Qed.

Lemma passes_total fuel :
  forall pointCount newPoints s,
    I s ->
    exists l s', doWork_loop fuel pointCount newPoints s = (Ok l, s') /\ I s'.
Proof.
  induction fuel as [|fuel IH]; intros pc np s HI.
  - exists np, s. split; [reflexivity|exact HI].
  - destruct (sr_pq _ _ _ (I_searching s HI)) as (q0 & Hq0 & Hok & Hin).
    simpl. run_M. rewrite Hq0. run_M.
    destruct (negb (pq_isEmpty q0) && (pc <? pointsPerPost s)) eqn:Hcond.
    + apply andb_true_iff in Hcond as [Hne _]. apply negb_true_iff in Hne.
      destruct (pass_total np s q0 HI Hq0 Hne) as (p & s1 & Hstep & HI1).
      rewrite Hstep. apply IH. exact HI1.
    + exists np, s. split; [reflexivity|exact HI].
Qed.

Lemma doWork_keeps s :
  I s -> exists batch s', doWork s = (Ok (Some batch), s') /\ I s'.
Proof.
  intros HI. unfold doWork. run_M.
  rewrite (sr_working _ _ _ (I_searching s HI)). cbn [negb].
  destruct (passes_total (S (Z.to_nat (pointsPerPost (set_timeout (Some tt) s))))
              0 [] (set_timeout (Some tt) s) (I_timeout s HI))
    as (l & s' & Hloop & HI').
  run_M.
  match goal with
  | |- context [doWork_loop ?f 0 [] ?t] =>
      change (doWork_loop f 0 [] t)
        with (doWork_loop (S (Z.to_nat (pointsPerPost (set_timeout (Some tt) s))))
                0 [] (set_timeout (Some tt) s))
  end.
  rewrite Hloop. exists l, s'. auto.
Qed.

Lemma repeat_doWork_keeps n :
  forall s, I s ->
    exists rs s', repeat_doWork n s = (rs, s') /\ I s' /\
      Forall (fun r => exists batch, r = Ok (Some batch)) rs.
Proof.
  induction n as [|n IH]; intros s HI.
  - exists [], s. split; [reflexivity|]. split; [exact HI|constructor].
  - destruct (doWork_keeps s HI) as (batch & s1 & Hw & HI1).
    destruct (IH s1 HI1) as (rs & s2 & Hrs & HI2 & Hall).
    exists (Ok (Some batch) :: rs), s2. simpl. rewrite Hw, Hrs.
    split; [reflexivity|]. split; [exact HI2|]. constructor; eauto.
Qed.

End PassInvariant.

(** The links of [parents] join visited neighbours: kept by a pop and by a
    relaxation from the popped pixel. *)
Lemma parents_are_neighbours_pop (H W : Z) (s : Scissors num) q0 p q1 vis rv :
  searching H W s -> parents_are_neighbours H W s ->
  pq s = Some q0 -> items q0 ≡ₚ p :: items q1 -> queue_ok q1 ->
  visited s = Some vis -> arr_get vis (py p) = Some rv ->
  let s' := set_visited (Some (arr_put vis (py p) (Some (arr_put rv (px p) (Some true)))))
              (set_pq (Some q1) s) in
  searching H W s' /\ parents_are_neighbours H W s' /\ is_visited s' p.
Proof.
  intros Hs Hpar Hq0 Hperm Hok Hv Hrv s'.
  split; [eapply searching_pop; eauto|]. split.
  - intros q p0 Hq. destruct (Hpar q p0 Hq) as (H1 & H2 & H3 & H4).
    split; [exact H1|]. split; [exact H2|]. split; [exact H3|].
    unfold is_visited in *. change (visited s') with
      (Some (arr_put vis (py p) (Some (arr_put rv (px p) (Some true))))).
    rewrite (cell_put vis rv _ _ _ p0 Hrv). case_decide; [reflexivity|].
    rewrite <- Hv. exact H4.
  - unfold is_visited. change (visited s') with
      (Some (arr_put vis (py p) (Some (arr_put rv (px p) (Some true))))).
    rewrite (cell_put vis rv _ _ _ p Hrv).
    case_decide as Hx; [reflexivity|]. destruct p; contradiction.
Qed.

Lemma parents_are_neighbours_relax (H W : Z) (s s' : Scissors num) p q :
  searching H W s -> parents_are_neighbours H W s -> is_visited s p ->
  in_image H W p -> in_image H W q -> adjacent p q ->
  relax p q s = (Ok tt, s') ->
  searching H W s' /\ parents_are_neighbours H W s' /\ is_visited s' p.
Proof.
  intros Hs Hpar Hvp Hp Hq Hpq Hr.
  split; [exact (searching_relax H W s s' p q Hs Hp Hq Hr)|].
  destruct (relax_effect H W s p q Hs Hp Hq) as (d & s'' & _ & Hr' & Hv & Hif & Hrest).
  assert (s'' = s') as -> by congruence.
  assert (Hvis : forall x, is_visited s' x <-> is_visited s x)
    by (intros x; unfold is_visited; rewrite Hv; reflexivity).
  split; [|apply Hvis, Hvp].
  intros x p0 Hx. destruct (decide (x = q)) as [->|Hne].
  - cbv zeta in Hif. destruct (_ <# _).
    + destruct Hif as (_ & Hpq' & _). rewrite Hpq' in Hx. injection Hx as <-.
      split; [exact Hq|]. split; [exact Hp|]. split; [exact Hpq|]. apply Hvis, Hvp.
    + subst s'. apply Hpar, Hx.
  - destruct (Hrest x Hne) as [_ E]. rewrite E in Hx.
    destruct (Hpar x p0 Hx) as (H1 & H2 & H3 & H4).
    split; [exact H1|]. split; [exact H2|]. split; [exact H3|]. apply Hvis, H4.
Qed.

(** A search from a seed of the image, after any number of calls of
    [doWork]. *)
Lemma search_links (w h : Z) (data : list Z) (seed : Point) (s0 : Scissors num) (n : nat) :
  (setDimensions w h;; setData data) Scissors_new = (Ok tt, s0) ->
  in_image h w seed ->
  exists s1 rs s2,
    setPoint seed s0 = (Ok tt, s1) /\
    repeat_doWork n s1 = (rs, s2) /\
    Forall (fun r => exists batch, r = Ok (Some batch)) rs /\
    searching h w s2 /\ parents_are_neighbours h w s2.
Proof.
  intros Hload Hseed.
  assert (Hl : loaded h w s0).
  { destruct Hseed. apply (loaded_new w h data s0 Hload); lia. }
  destruct (search_start h w seed s0 Hl Hseed)
    as (s1 & q & row & Hsp & Hs1 & _ & Hpar & _).
  set (I := fun s : Scissors num => searching h w s /\ parents_are_neighbours h w s).
  set (J := fun (p : Point) (s : Scissors num) =>
    searching h w s /\ parents_are_neighbours h w s /\ is_visited s p).
  assert (HI1 : I s1).
  { split; [exact Hs1|]. intros x p Hx. rewrite Hpar, empty_rows_cell in Hx.
    discriminate. }
  destruct (repeat_doWork_keeps h w I J
              (fun s HI => proj1 HI) (fun p s HJ => proj1 HJ)) with (n := n) (s := s1)
    as (rs & s2 & Hrs & [Hs2 HI2] & Hall).
  - intros s q0 p q1 vis rv [Hs Hp] Hq0 _ Hperm Hok Hv Hrv.
    exact (parents_are_neighbours_pop h w s q0 p q1 vis rv Hs Hp Hq0 Hperm Hok Hv Hrv).
  - intros s p x s' (Hs & Hp & Hv) Hpi Hxi Hpx Hr.
    exact (parents_are_neighbours_relax h w s s' p x Hs Hp Hv Hpi Hxi Hpx Hr).
  - intros p s (Hs & Hp & _). split; assumption.
  - intros s [Hs Hp]. split; [apply searching_timeout; exact Hs|exact Hp].
  - exact HI1.
  - exists s1, rs, s2. auto.
Qed.

(** X4. On a new object that has loaded an image, after [setPoint(seed)]
    with the seed inside the image and any number of calls of [doWork]: every
    call returned a batch, and every entry [parents[q] = p] joins two pixels
    of the image, [p] one of the eight neighbours of [q] and [p] visited; so a
    walk along the parents moves from neighbour to neighbour through visited
    pixels. *)
Theorem X4_parents_link_visited_neighbours
    (w h : Z) (data : list Z) (seed : Point) (s0 : Scissors num) (n : nat) :
  (setDimensions w h;; setData data) Scissors_new = (Ok tt, s0) ->
  in_image h w seed ->
  exists s1 rs s2,
    setPoint seed s0 = (Ok tt, s1) /\
    repeat_doWork n s1 = (rs, s2) /\
    Forall (fun r => exists batch, r = Ok (Some batch)) rs /\
    forall q p, cell (parents s2) q = Some p ->
      in_image h w q /\ in_image h w p /\ adjacent p q /\ is_visited s2 p.
Proof.
  intros Hload Hseed.
  destruct (search_links w h data seed s0 n Hload Hseed)
    as (s1 & rs & s2 & Hsp & Hrs & Hall & _ & Hlinks).
  exists s1, rs, s2. auto.
Qed.

End Passes.

(** ** The settings, the walk along the parents, the size of a batch *)

Section Settings.
Context {num : Type} {N : JSNumber num}.

Lemma doWork_loop_preserves_settings fuel :
  forall pc np, preserves settings (doWork_loop (num := num) fuel pc np).
Proof.
  induction fuel as [|fuel IH]; intros pc np; simpl.
  - apply preserves_ret.
  - frame. apply IH.
Qed.

Lemma setData_preserves_settings data : preserves settings (setData (num := num) data).
Proof. unfold setData. frame. Qed.

Lemma doTraining_preserves_settings p : preserves settings (doTraining (num := num) p).
Proof. unfold doTraining. frame. Qed.

Lemma setPoint_preserves_settings sp : preserves settings (setPoint (num := num) sp).
Proof. unfold setPoint, setWorking. frame. Qed.

Lemma doWork_preserves_settings : preserves settings (doWork (num := num)).
Proof. unfold doWork. frame. all: apply doWork_loop_preserves_settings. Qed.

Lemma invoke_settings (c : call) (s : Scissors num) : settings (invoke c s) = settings s.
Proof.
  destruct c; simpl.
  - reflexivity.
  - reflexivity.
  - apply setData_preserves_settings.
  - reflexivity.
  - apply doTraining_preserves_settings.
  - apply setPoint_preserves_settings.
  - apply doWork_preserves_settings.
Qed.

Lemma invoke_all_settings (cs : list call) :
  forall s : Scissors num, settings (invoke_all cs s) = settings s.
Proof.
  induction cs as [|c cs IH]; intros s; [reflexivity|].
  unfold invoke_all. simpl. fold (invoke_all cs (invoke c s)).
  rewrite IH. apply invoke_settings.
Qed.

(** X5. No call changes what the constructor has set: after any sequence
    of calls on a new object, each returning or throwing, [searchGranBits] is
    8, [searchGran] 1, [pointsPerPost] 500, [edgeWidth] 2, [trainingLength]
    32, [edgeGran] 256, [gradPointsNeeded] 32, [gradGran] 1024, and
    [insideGran] and [outsideGran] 256. *)
Theorem X5_calls_keep_the_settings (cs : list call) :
  settings (invoke_all cs (Scissors_new (num := num)))
  = [8; 1; 500; 2; 32; 256; 32; 1024; 256; 256].
Proof. rewrite invoke_all_settings. vm_compute. reflexivity. Qed.

Lemma repeat_doWork_settings n :
  forall s : Scissors num, settings (snd (repeat_doWork n s)) = settings s.
Proof.
  induction n as [|n IH]; intros s; simpl; [reflexivity|].
  pose proof (doWork_preserves_settings s) as Hs.
  destruct (doWork s) as [r s1]. simpl in Hs.
  specialize (IH s1). destruct (repeat_doWork n s1) as [rs s2]. simpl in *.
  congruence.
Qed.

(** The settings during a search on a new object. *)
Lemma search_settings (w h : Z) (data : list Z) (seed : Point) (n : nat) :
  let s0 := snd ((setDimensions w h;; setData data) (Scissors_new (num := num))) in
  settings (snd (repeat_doWork n (snd (setPoint seed s0))))
  = [8; 1; 500; 2; 32; 256; 32; 1024; 256; 256].
Proof.
  cbv zeta. rewrite repeat_doWork_settings, setPoint_preserves_settings.
  change (settings (invoke (SetData data) (invoke (SetDimensions w h) Scissors_new))
          = [8; 1; 500; 2; 32; 256; 32; 1024; 256; 256]).
  rewrite !invoke_settings. vm_compute. reflexivity.
Qed.

End Settings.

Section Walk.
Context {num : Type} {N : JSNumber num}.

Lemma findTrainingPoints_loop_walk (H W : Z) (s : Scissors num) (par : matrix Point) :
  parents s = Some par -> has_rows par H -> parents_are_neighbours H W s ->
  forall fuel p acc,
    in_image H W p ->
    exists pts,
      findTrainingPoints_loop fuel par (Some p) acc = Ok (acc ++ pts) /\
      (length pts <= fuel)%nat /\
      (fuel <> O -> head pts = Some p) /\
      Forall (in_image H W) pts /\
      linked (parents s) pts /\
      ((length pts < fuel)%nat ->
       exists l, last pts = Some l /\ cell (parents s) l = None).
Proof.
  intros Hpar Hrows Hlinks.
  induction fuel as [|fuel IH]; intros p acc Hp.
  - exists []. rewrite app_nil_r. simpl. repeat split; auto; try lia; try contradiction.
  - destruct (Hrows (py p) (proj2 Hp)) as [row Hrow].
    simpl. rewrite (mat_get_Ok par _ (px p) row Hrow), bind_Ok.
    assert (Hcell : cell (parents s) p = arr_get row (px p)).
    { rewrite Hpar. apply cell_row. exact Hrow. }
    destruct (arr_get row (px p)) as [p'|] eqn:Hnext.
    + destruct (Hlinks p p' Hcell) as (_ & Hp' & Hadj & _).
      destruct (IH p' (acc ++ [p]) Hp') as (pts & Hrun & Hlen & Hhd & Hin & Hlk & Hlast).
      exists (p :: pts). rewrite Hrun, <- app_assoc. simpl.
      split; [reflexivity|]. split; [lia|]. split; [reflexivity|].
      split; [constructor; assumption|]. split.
      * split; [|exact Hlk]. destruct pts as [|b pts']; [exact I|].
        destruct fuel as [|fuel']; [simpl in Hlen; lia|].
        specialize (Hhd ltac:(lia)). simpl in Hhd. injection Hhd as ->.
        split; assumption.
      * intros Hlt. destruct Hlast as (l & Hl & Hnone); [lia|].
        exists l. split; [|exact Hnone].
        destruct pts as [|b pts']; [discriminate|]. rewrite last_cons, Hl. reflexivity.
    + exists [p].
      assert (findTrainingPoints_loop fuel par None (acc ++ [p]) = Ok (acc ++ [p])) as ->
        by (destruct fuel; reflexivity).
      split; [reflexivity|]. split; [simpl; lia|]. split; [reflexivity|].
      split; [constructor; [exact Hp|constructor]|].
      split; [simpl; auto|]. intros _. exists p. split; [reflexivity|exact Hcell].
Qed.

(** X6. On a new object that has loaded an image, after [setPoint(seed)]
    with the seed inside the image and any number of calls of [doWork],
    [findTrainingPoints(p)] for a pixel [p] of the image returns a walk that
    starts at [p], has at most 32 points, all in the image, each followed by
    its parent, which is one of its eight neighbours; a walk of fewer than 32
    points ends at a pixel without a parent. *)
Theorem X6_findTrainingPoints_walks_the_parents
    (w h : Z) (data : list Z) (seed p : Point) (s0 : Scissors num) (n : nat) :
  (setDimensions w h;; setData data) Scissors_new = (Ok tt, s0) ->
  in_image h w seed -> in_image h w p ->
  let s2 := snd (repeat_doWork n (snd (setPoint seed s0))) in
  exists pts,
    findTrainingPoints s2 (Some p) = Ok pts /\
    (length pts <= 32)%nat /\ head pts = Some p /\
    Forall (in_image h w) pts /\ linked (parents s2) pts /\
    ((length pts < 32)%nat -> exists l, last pts = Some l /\ cell (parents s2) l = None).
Proof.
  intros Hload Hseed Hp.
  pose proof (search_settings w h data seed n) as Hset. rewrite Hload in Hset.
  cbv zeta in Hset. cbn [snd] in Hset.
  destruct (search_links w h data seed s0 n Hload Hseed)
    as (s1 & rs & s2 & Hsp & Hrs & _ & Hs2 & Hlinks).
  rewrite Hsp in Hset |- *. cbn [snd] in Hset |- *. rewrite Hrs in Hset |- *.
  cbn [snd] in Hset |- *. cbv zeta.
  assert (Hlen : trainingLength s2 = 32) by (injection Hset; auto).
  destruct (sr_parents _ _ _ Hs2) as (par & Hpar & Hrows).
  destruct (findTrainingPoints_loop_walk h w s2 par Hpar Hrows Hlinks 32%nat p [] Hp)
    as (pts & Hrun & Hle & Hhd & Hin & Hlk & Hlast).
  exists pts. split.
  { unfold findTrainingPoints. rewrite Hpar, Hlen.
    change (Z.to_nat 32) with 32%nat. exact Hrun. }
  split; [exact Hle|]. split; [apply Hhd; lia|].
  split; [exact Hin|]. split; [exact Hlk|exact Hlast].
Qed.

End Walk.

Section BatchBound.
Context {num : Type} {N : JSNumber num}.

Lemma repeat_doWork_batch_length n :
  forall s : Scissors num,
    Forall (fun r => forall batch, r = Ok (Some batch) ->
              (length batch <= Z.to_nat (pointsPerPost s))%nat)
      (fst (repeat_doWork n s)).
Proof.
  induction n as [|n IH]; intros s; simpl; [constructor|].
  pose proof (doWork_preserves_settings s) as Hset.
  pose proof (doWork_batch_length s) as Hlen.
  destruct (doWork s) as [r s1]. simpl in Hset.
  specialize (IH s1). destruct (repeat_doWork n s1) as [rs s2]. simpl in *.
  constructor.
  - intros batch ->. exact (Hlen s1 batch eq_refl).
  - assert (pointsPerPost s1 = pointsPerPost s) as <- by (injection Hset; auto).
    exact IH.
Qed.

(** X2. On a new object that has loaded an image, after [setPoint(seed)]
    with the seed inside the image, every call of [doWork] returns a batch,
    and no batch has more than 500 pairs. *)
Theorem X2_doWork_batches_are_bounded
    (w h : Z) (data : list Z) (seed : Point) (s0 : Scissors num) (n : nat) :
  (setDimensions w h;; setData data) Scissors_new = (Ok tt, s0) ->
  in_image h w seed ->
  Forall (fun r => exists batch, r = Ok (Some batch) /\ (length batch <= 500)%nat)
    (fst (repeat_doWork n (snd (setPoint seed s0)))).
Proof.
  intros Hload Hseed.
  pose proof (search_settings w h data seed 0) as Hset. rewrite Hload in Hset.
  cbv zeta in Hset. cbn [snd repeat_doWork] in Hset.
  pose proof (repeat_doWork_batch_length n (snd (setPoint seed s0))) as Hlen.
  destruct (search_links w h data seed s0 n Hload Hseed)
    as (s1 & rs & s2 & Hsp & Hrs & Hall & _).
  rewrite Hsp in Hset, Hlen |- *. cbn [snd] in Hset, Hlen |- *.
  rewrite Hrs in Hlen |- *. cbn [fst] in Hlen |- *.
  assert (Hppp : pointsPerPost s1 = 500) by (injection Hset; auto).
  rewrite Hppp in Hlen. change (Z.to_nat 500) with 500%nat in Hlen.
  rewrite Forall_forall in Hall, Hlen |- *. intros r Hr.
  destruct (Hall r Hr) as [batch ->]. exists batch. split; [reflexivity|].
  exact (Hlen _ Hr batch eq_refl).
Qed.

End BatchBound.

(** ** The sides and the tables of an image *)

Section Sides.
Context {num : Type} {N : JSNumber num}.


(** X8. [setData] empties the four training tables and leaves the flag
    [trained] as it is.  So on a trained object that has loaded a new image,
    the cost of the edge between two pixels of the image is computed from
    table entries that are all [undefined]:
    0.3 NaN + 0.3 laplace[q] + 0.1 (direction + NaN + NaN + NaN). *)
Theorem X8_setData_on_a_trained_object
    (data : list Z) (s s0 : Scissors num) (p q : Point) :
  setData data s = (Ok tt, s0) ->
  trained s = true ->
  in_image (height s) (width s) p -> in_image (height s) (width s) q ->
  trained s0 = true /\
  edgeTraining s0 = Some arr_empty /\ gradTraining s0 = Some arr_empty /\
  insideTraining s0 = Some arr_empty /\ outsideTraining s0 = Some arr_empty /\
  exists dir,
    Scissors_gradDirection s0 (px p) (py p) (px q) (py q) = Ok dir /\
    dist s0 (px p) (py p) (px q) (py q)
    = Ok (ratio 3 10 ⊗ NaN ⊕ ratio 3 10 ⊗ ToNumber (cell (laplace s0) q)
          ⊕ ratio 1 10 ⊗ (dir ⊕ NaN ⊕ NaN ⊕ NaN)).
Proof.
  intros Hload Htr [Hpx Hpy] [Hqx Hqy].
  assert (Hw : 1 <= width s) by lia. assert (Hh : 1 <= height s) by lia.
  pose proof (setData_image_fields data s s0 Hload Hw Hh) as Hf.
  destruct (setData_fields data s s0 Hload Hw Hh)
    as (_ & Hg & _ & _ & _ & _ & _ & _ & _ & Htr0 & _).
  destruct (setData_sides data s s0 Hload Hw Hh)
    as ((i & o & Hi & Ho & Hsides) & He & Hgt & Hit & Hot).
  rewrite Htr in Htr0. repeat (split; [assumption|]).
  destruct (if_gradient _ _ Hf) as (gr & Hgr & Hgrr).
  destruct (if_laplace _ _ Hf) as (l & Hl & Hlr).
  destruct (if_gradX _ _ Hf) as (gx & Hgx & Hgxr).
  destruct (if_gradY _ _ Hf) as (gy & Hgy & Hgyr).
  exists (direction gx gy (px p) (py p) (px q) (py q)).
  assert (Hdir : Scissors_gradDirection s0 (px p) (py p) (px q) (py q)
                 = Ok (direction gx gy (px p) (py p) (px q) (py q))).
  { unfold Scissors_gradDirection. rewrite Hgx, Hgy. cbn [defined]. rewrite !bind_Ok.
    apply gradDirection_Ok; auto. }
  split; [exact Hdir|].
  destruct (computeSides_samples _ _ _ _ i o Hsides) as [[Hri _] [Hro _]].
  assert (Hax : alen gx = height s).
  { assert (gx = gradX_of (greyscale_of data (width s) (height s))) as ->.
    { destruct (setData_fields data s s0 Hload Hw Hh) as (_ & _ & _ & _ & E & _).
      congruence. }
    unfold gradX_of. rewrite tabulate_alen, greyscale_of_alen by lia.
    destruct (Z.ltb_spec 0 (Z.max 0 (height s))); simpl; lia. }
  assert (Hax' : alen (gradX_of (greyscale_of data (width s) (height s))) = height s).
  { destruct (setData_fields data s s0 Hload Hw Hh) as (_ & _ & _ & _ & E & _).
    rewrite <- Hax. congruence. }
  rewrite Hax' in Hri, Hro.
  destruct (Hgrr _ Hqy) as [rg Hrg]. destruct (Hlr _ Hqy) as [rl Hrl].
  destruct (Hri _ Hpy) as [ri Hrip]. destruct (Hro _ Hpy) as [ro Hrop].
  pose proof (greyscale_of_has_rows (num := num) data (width s) (height s)) as Hgrows.
  rewrite greyscale_of_alen in Hgrows.
  destruct (Hgrows (py p) ltac:(lia)) as [re Hre].
  unfold dist. rewrite Hdir. unfold getTrainedGrad, getTrainedEdge, getTrainedInside,
    getTrainedOutside, getTrained.
  rewrite Hgr, Hl, Htr0, Hg, Hi, Ho, He, Hgt, Hit, Hot. cbn [defined].
  rewrite !bind_Ok, (mat_get_Ok gr _ (px q) rg Hrg), !bind_Ok.
  rewrite (mat_get_Ok l _ (px q) rl Hrl), !bind_Ok.
  rewrite (mat_get_Ok _ _ (px p) re Hre), !bind_Ok.
  rewrite (mat_get_Ok i _ (px p) ri Hrip), !bind_Ok.
  rewrite (mat_get_Ok o _ (px p) ro Hrop), !bind_Ok.
  rewrite !arr_get_num_empty.
  destruct q as [qx qy]. rewrite !cell_Some. simpl in Hrl |- *. rewrite Hrl.
  reflexivity.
Qed.

End Sides.

(** ** Training during a search *)

Section TrainingRuns.
Context {num : Type} {N : JSNumber num}.

Lemma for_list_total {A T} (P : A -> Prop) (l : list A) (body : A -> T -> res T) :
  Forall P l -> (forall a t, P a -> exists t', body a t = Ok t') ->
  forall t, exists t', for_list l body t = Ok t'.
Proof.
  intros Hl Hbody. induction Hl as [|a l Ha Hl IH]; intros t; simpl.
  - eauto.
  - destruct (Hbody a t Ha) as [t1 ->]. rewrite bind_Ok. apply IH.
Qed.

Lemma calculateTraining_total (H W : Z) (pts : list Point) (buffer : jsarray num)
    (gran : Z) (m : field num) (t : jsarray num) :
  0 <= gran -> has_rows m H -> Forall (in_image H W) pts ->
  exists b t', calculateTraining pts buffer gran (Some m) (Some t) = Ok (b, t').
Proof.
  intros Hgran Hrows Hpts. unfold calculateTraining, arr_set_length.
  destruct (Z.ltb_spec gran 0) as [|_]; [lia|]. rewrite bind_Ok. cbv zeta.
  match goal with
  | |- context [for_list pts ?body ?init] =>
      destruct (for_list_total (in_image H W) pts body Hpts) with (t := init)
        as [[b mx] ->]
  end.
  - intros p [b mx] [_ Hp]. cbn [defined]. rewrite bind_Ok.
    destruct (Hrows _ Hp) as [row Hrow].
    rewrite (mat_get_Ok m _ (px p) row Hrow), bind_Ok. cbv zeta.
    destruct (to_index _); eauto.
  - rewrite bind_Ok. cbn [defined]. rewrite bind_Ok. eauto.
Qed.

Lemma doTraining_total (H W : Z) (s : Scissors num) (p : option Point) (pts : list Point) :
  trainable H s ->
  0 <= edgeGran s -> 0 <= gradGran s -> 0 <= insideGran s -> 0 <= outsideGran s ->
  findTrainingPoints s p = Ok pts -> Forall (in_image H W) pts ->
  exists s', doTraining p s = (Ok tt, s') /\
    trainingPoints s' = Some pts /\
    trained s' = (if Z.of_nat (length pts) <? 8 then trained s else true) /\
    trainable H s'.
Proof.
  intros Ht He Hg Hi Ho Hpts Hin.
  destruct (tr_greyscale _ _ Ht) as (mg & Hmg & Hrg).
  destruct (tr_gradient _ _ Ht) as (mgr & Hmgr & Hrgr).
  destruct (tr_inside _ _ Ht) as (mi & Hmi & Hri).
  destruct (tr_outside _ _ Ht) as (mo & Hmo & Hro).
  destruct (tr_edgeTraining _ _ Ht) as [te Hte].
  destruct (tr_gradTraining _ _ Ht) as [tg Htg].
  destruct (tr_insideTraining _ _ Ht) as [ti Hti].
  destruct (tr_outsideTraining _ _ Ht) as [to Hto].
  unfold doTraining. run_M. rewrite Hpts. run_M.
  destruct (Z.of_nat (length pts) <? 8) eqn:Hshort.
  { eexists. split; [reflexivity|]. simpl. split; [reflexivity|]. split; [reflexivity|].
    destruct Ht. constructor; assumption. }
  clear Ht Hpts. destruct s. simpl in *. subst.
  destruct (calculateTraining_total H W pts arr_empty _ mg te He Hrg Hin)
    as (b1 & t1 & ->). run_M.
  destruct (calculateTraining_total H W pts b1 _ mgr tg Hg Hrgr Hin)
    as (b2 & t2 & ->). run_M.
  destruct (calculateTraining_total H W pts b2 _ mi ti Hi Hri Hin)
    as (b3 & t3 & ->). run_M.
  destruct (calculateTraining_total H W pts b3 _ mo to Ho Hro Hin)
    as (b4 & t4 & ->). run_M.
  match goal with |- context [Z.of_nat (length pts) <? ?k] => destruct (Z.of_nat (length pts) <? k) end.
  - unfold addInStaticGrad. cbn [defined]. rewrite bind_Ok. run_M.
    eexists. split; [reflexivity|]. simpl. split; [reflexivity|]. split; [reflexivity|].
    constructor; simpl; eauto.
  - eexists. split; [reflexivity|]. simpl. split; [reflexivity|]. split; [reflexivity|].
    constructor; simpl; eauto.
Qed.

Lemma setPoint_preserves_training_view sp :
  preserves training_view (setPoint (num := num) sp).
Proof. unfold setPoint, setWorking. frame. Qed.

Lemma doWork_loop_preserves_training_view fuel :
  forall pc np, preserves training_view (doWork_loop (num := num) fuel pc np).
Proof.
  induction fuel as [|fuel IH]; intros pc np; simpl.
  - apply preserves_ret.
  - frame. apply IH.
Qed.

Lemma doWork_preserves_training_view : preserves training_view (doWork (num := num)).
Proof. unfold doWork. frame. all: apply doWork_loop_preserves_training_view. Qed.

Lemma repeat_doWork_training_view n :
  forall s : Scissors num, training_view (snd (repeat_doWork n s)) = training_view s.
Proof.
  induction n as [|n IH]; intros s; simpl; [reflexivity|].
  pose proof (doWork_preserves_training_view s) as Hs.
  destruct (doWork s) as [r s1]. simpl in Hs.
  specialize (IH s1). destruct (repeat_doWork n s1) as [rs s2]. simpl in *.
  congruence.
Qed.

(** X9. On a new object that has loaded an image, after [setPoint(seed)]
    with the seed inside the image and any number of calls of [doWork],
    [doTraining(p)] for a pixel [p] of the image returns: it records the walk
    from [p] along the parents, sets [trained] exactly when the walk has at
    least 8 points, and leaves the search ([working], [parents], [cost],
    [visited], the queue) as it is. *)
Theorem X9_doTraining_during_a_search
    (w h : Z) (data : list Z) (seed p : Point) (s0 : Scissors num) (n : nat) :
  (setDimensions w h;; setData data) Scissors_new = (Ok tt, s0) ->
  in_image h w seed -> in_image h w p ->
  let s2 := snd (repeat_doWork n (snd (setPoint seed s0))) in
  exists pts s3,
    findTrainingPoints s2 (Some p) = Ok pts /\
    doTraining (Some p) s2 = (Ok tt, s3) /\
    trainingPoints s3 = Some pts /\
    trained s3 = (8 <=? Z.of_nat (length pts)) /\
    working s3 = true /\ parents s3 = parents s2 /\ cost s3 = cost s2 /\
    visited s3 = visited s2 /\ pq s3 = pq s2.
Proof.
  intros Hload Hseed Hp.
  pose proof (search_settings w h data seed n) as Hset. rewrite Hload in Hset.
  cbv zeta in Hset. cbn [snd] in Hset.
  pose proof (repeat_doWork_training_view n (snd (setPoint seed s0))) as Hview.
  rewrite setPoint_preserves_training_view in Hview.
  destruct (search_links w h data seed s0 n Hload Hseed)
    as (s1 & rs & s2 & Hsp & Hrs & _ & Hs2 & Hlinks).
  rewrite Hsp in Hset, Hview |- *. cbn [snd] in Hset, Hview |- *.
  rewrite Hrs in Hset, Hview |- *. cbn [snd] in Hset, Hview |- *. cbv zeta.
  assert (Ht0 : trainable h s0).
  { unfold setDimensions in Hload. run_M_in Hload.
    change (setData data (set_height h (set_width w Scissors_new)) = (Ok tt, s0)) in Hload.
    destruct Hseed.
    exact (setData_trainable data _ s0 Hload ltac:(simpl; lia) ltac:(simpl; lia)). }
  pose proof (trainable_view h s0 s2 Hview Ht0) as Ht2.
  assert (Hlen : trainingLength s2 = 32) by (injection Hset; auto).
  destruct (sr_parents _ _ _ Hs2) as (par & Hpar & Hrows).
  destruct (findTrainingPoints_loop_walk h w s2 par Hpar Hrows Hlinks 32%nat p [] Hp)
    as (pts & Hrun & _ & _ & Hin & _).
  assert (Hpts : findTrainingPoints s2 (Some p) = Ok pts).
  { unfold findTrainingPoints. rewrite Hpar, Hlen. exact Hrun. }
  destruct (doTraining_total h w s2 (Some p) pts Ht2) as (s3 & Hdo & Htp & Htr & _);
    try assumption; try (injection Hset; intros; lia).
  exists pts, s3. split; [exact Hpts|]. split; [exact Hdo|]. split; [exact Htp|].
  split.
  { assert (Hu : trained s2 = false).
    { pose proof (repeat_doWork_keeps_the_rest n s1) as Hk.
      rewrite Hrs in Hk. cbn [snd] in Hk.
      apply (f_equal trained) in Hk.
      assert (Hf : forall s : Scissors num, trained (forget_search s) = trained s)
        by (intros []; reflexivity).
      rewrite !Hf in Hk. rewrite Hk.
      assert (Hsp1 : trained s1 = trained s0).
      { change s1 with (snd (Ok tt, s1)). rewrite <- Hsp.
        assert (Hpt : preserves trained (setPoint (num := num) seed))
          by (unfold setPoint, setWorking; frame).
        apply Hpt. }
      rewrite Hsp1.
      unfold setDimensions in Hload. run_M_in Hload.
      change (setData data (set_height h (set_width w Scissors_new)) = (Ok tt, s0))
        in Hload.
      destruct Hseed.
      destruct (setData_fields data _ s0 Hload ltac:(simpl; lia) ltac:(simpl; lia))
        as (_ & _ & _ & _ & _ & _ & _ & _ & _ & Et & _).
      rewrite Et. reflexivity. }
    rewrite Htr, Hu.
    destruct (Z.ltb_spec (Z.of_nat (length pts)) 8), (Z.leb_spec 8 (Z.of_nat (length pts)));
      auto; lia. }
  change s3 with (snd (Ok tt, s3)). rewrite <- Hdo.
  assert (Hfr : forall {B} (f : Scissors num -> B),
            preserves f (doTraining (Some p)) -> f (snd (doTraining (Some p) s2)) = f s2).
  { intros B f Hf. apply Hf. }
  rewrite (Hfr _ working), (Hfr _ parents), (Hfr _ cost), (Hfr _ visited), (Hfr _ pq);
    try (unfold doTraining; frame).
  split; [exact (sr_working _ _ _ Hs2)|]. auto.
Qed.

End TrainingRuns.

(** ** The differences of the greyscale *)

Section Differences.
Context {num : Type} {N : JSNumber num}.

Lemma greyscale_of_get data w h x y :
  0 <= y < h -> 0 <= x < w ->
  arr_get (row_of (greyscale_of (num := num) data w h) y) x = Some (grey_value data w x y).
Proof.
  intros Hy Hx. rewrite (row_of_Some _ _ _ (greyscale_of_row data w h y Hy)).
  rewrite tabulate_get. case_decide; [reflexivity|lia].
Qed.

(** X10. On the greyscale of an image at least two pixels wide,
    [computeGradX] returns the forward differences
    [greyscale[y][x + 1] - greyscale[y][x]] in the columns before the last,
    and the last column repeats the one before it. *)
Theorem X10_computeGradX_cells (data : list Z) (w h : Z) :
  2 <= w -> 1 <= h ->
  exists g gx,
    computeGreyscale (num := num) data w h = Ok g /\ computeGradX g = Ok gx /\
    forall x y, 0 <= y < h ->
      (0 <= x < w - 1 ->
       cell (Some gx) (mkPoint x y)
       = Some (grey_value data w (x + 1) y ⊖ grey_value data w x y)) /\
      cell (Some gx) (mkPoint (w - 1) y) = cell (Some gx) (mkPoint (w - 2) y).
Proof.
  intros Hw Hh. set (g := greyscale_of (num := num) data w h).
  exists g, (gradX_of g). split; [apply computeGreyscale_eq|].
  pose proof (greyscale_of_has_rows (num := num) data w h) as Hrows. fold g in Hrows.
  split; [apply computeGradX_eq; exact Hrows|].
  intros x y Hy.
  assert (Hlen : alen g = h) by (unfold g; rewrite greyscale_of_alen; lia).
  assert (Hrw : alen (row_of g y) = w)
    by (unfold g; rewrite greyscale_of_row_alen by lia; lia).
  assert (Hrow : arr_get (gradX_of g) y = Some (gradX_row g y)).
  { unfold gradX_of. rewrite tabulate_get, Hlen. case_decide; [reflexivity|lia]. }
  rewrite !cell_Some, Hrow. simpl. unfold gradX_row. cbv zeta. rewrite Hrw.
  split.
  - intros Hx. rewrite arr_get_put_ne by lia. rewrite tabulate_get.
    case_decide; [|lia]. unfold dx_value. cbv zeta. rewrite Hrw.
    destruct (Z.eqb_spec (x + 1) w); [lia|].
    unfold g. rewrite !greyscale_of_get by lia. reflexivity.
  - rewrite arr_get_put_eq, arr_get_put_ne by lia. reflexivity.
Qed.

(** X11. On the greyscale of an image at least two pixels high,
    [computeGradY] returns the differences
    [greyscale[y][x] - greyscale[y + 1][x]] in the rows before the last, and
    the last row repeats the one before it; on an image of one row it throws
    a TypeError. *)
Theorem X11_computeGradY_cells (data : list Z) (w h : Z) :
  1 <= w -> 1 <= h ->
  exists g,
    computeGreyscale (num := num) data w h = Ok g /\
    (h = 1 -> computeGradY g = Throw TypeError) /\
    (2 <= h ->
     exists gy, computeGradY g = Ok gy /\
       forall x y, 0 <= x < w ->
         (0 <= y < h - 1 ->
          cell (Some gy) (mkPoint x y)
          = Some (grey_value data w x y ⊖ grey_value data w x (y + 1))) /\
         cell (Some gy) (mkPoint x (h - 1)) = cell (Some gy) (mkPoint x (h - 2))).
Proof.
  intros Hw Hh. set (g := greyscale_of (num := num) data w h).
  exists g. split; [apply computeGreyscale_eq|].
  pose proof (greyscale_of_has_rows (num := num) data w h) as Hrows. fold g in Hrows.
  assert (Hlen : alen g = h) by (unfold g; rewrite greyscale_of_alen; lia).
  assert (Hrw : forall y, 0 <= y < h -> alen (row_of g y) = w).
  { intros y Hy. unfold g. rewrite greyscale_of_row_alen by lia. lia. }
  split.
  - intros ->. apply computeGradY_one_row; [exact Hrows|exact Hlen|].
    rewrite Hrw by lia. lia.
  - intros Hh2. exists (gradY_of g). split; [apply computeGradY_eq; [exact Hrows|lia]|].
    intros x y Hx.
    assert (Hrow : forall y, 0 <= y < h - 1 ->
              arr_get (tabulate 0 (h - 1) (fun y => Some (gradY_row g y)) arr_empty) y
              = Some (gradY_row g y)).
    { intros y' Hy'. rewrite tabulate_get. case_decide; [reflexivity|lia]. }
    rewrite !cell_Some. unfold gradY_of. cbv zeta. rewrite Hlen. split.
    + intros Hy. rewrite arr_get_put_ne by lia. rewrite Hrow by lia. simpl.
      unfold gradY_row. rewrite tabulate_get, Hrw by lia. case_decide; [|lia].
      unfold dy_value. cbv zeta. rewrite Hlen.
      destruct (Z.eqb_spec (y + 1) h); [lia|].
      unfold g. rewrite !greyscale_of_get by lia. reflexivity.
    + rewrite arr_get_put_eq, arr_get_put_ne by lia. rewrite Hrow by lia. simpl.
      rewrite tabulate_get, Hrw by lia. case_decide; [|lia].
      unfold row_of. rewrite Hrow by lia. reflexivity.
Qed.

End Differences.

(** ** The alpha samples of the buffer *)

Section Alpha.
Context {num : Type} {N : JSNumber num}.

Lemma data_get_with_alpha alpha data i :
  i mod 4 <> 3 -> data_get (with_alpha alpha data) i = data_get data i.
Proof.
  intros Hi. unfold data_get, with_alpha. destruct (Z.ltb_spec i 0); [reflexivity|].
  rewrite list_lookup_imap.
  destruct (data !! Z.to_nat i) as [v|]; [|reflexivity]. cbn -[Nat.modulo Nat.eqb].
  destruct (Nat.eqb_spec (Z.to_nat i mod 4) 3) as [E|]; [|reflexivity].
  exfalso. apply Hi. apply (f_equal Z.of_nat) in E.
  rewrite Nat2Z.inj_mod, Z2Nat.id in E by lia. exact E.
Qed.

Lemma tabulate_ext {V} lo hi (F G : Z -> option V) a :
  (forall i, lo <= i < hi -> F i = G i) -> tabulate lo hi F a = tabulate lo hi G a.
Proof.
  intros HFG. destruct (Z_le_gt_dec hi lo) as [Hle|Hgt].
  { rewrite !tabulate_empty by lia. reflexivity. }
  refine (for_pure_inv (fun i (_ : unit) => tabulate lo i F a = tabulate lo i G a)
            lo hi (fun _ u => u) tt _ _ _); [lia| |].
  - rewrite !tabulate_empty by lia. reflexivity.
  - intros i _ Hi IH. rewrite !tabulate_snoc by lia. rewrite IH, HFG by lia. reflexivity.
Qed.

(** X14. [computeGreyscale] reads the three colour samples of each pixel
    and never the alpha sample: whatever the alpha samples of the buffer are
    replaced by, it returns the same greyscale; and it returns, whatever the
    buffer, the width and the height. *)
Theorem X14_computeGreyscale_ignores_alpha (alpha : nat -> Z) (data : list Z) (w h : Z) :
  exists g : field num,
    computeGreyscale data w h = Ok g /\
    computeGreyscale (with_alpha alpha data) w h = Ok g.
Proof.
  exists (greyscale_of data w h). split; [apply computeGreyscale_eq|].
  rewrite computeGreyscale_eq. f_equal. unfold greyscale_of.
  apply tabulate_ext. intros y Hy. f_equal.
  apply tabulate_ext. intros x Hx. f_equal.
  unfold grey_value. cbv zeta.
  generalize (y * w + x). intros q.
  assert (H0 : (q * 4) mod 4 <> 3) by (rewrite Z_mod_mult; lia).
  assert (H1 : (q * 4 + 1) mod 4 <> 3)
    by (rewrite Z.add_comm, Z_mod_plus_full; vm_compute; discriminate).
  assert (H2 : (q * 4 + 2) mod 4 <> 3)
    by (rewrite Z.add_comm, Z_mod_plus_full; vm_compute; discriminate).
  rewrite !data_get_with_alpha by assumption. reflexivity.
Qed.

End Alpha.

(** ** The region of interest *)

Module ROIFacts.
Import ROI.
Section ROIFacts.
Context {P : Type}.

Lemma add_invoke_points (cs : list (add_call P)) :
  forall r : ROI P,
    points (fold_left (fun r c => add_invoke c r) cs r)
    = points r ++ concat (map given cs).
Proof.
  induction cs as [|c cs IH]; intros r; simpl.
  - rewrite app_nil_r. reflexivity.
  - rewrite IH. destruct c; simpl; rewrite <- app_assoc; reflexivity.
Qed.

(** X15. A region of interest keeps the points it is given, in the order
    of the calls: after any sequence of [addPoint] and [addPoints] on a new
    region, [getLength()] is the number of points given, [getPoint(i)] is the
    point of rank [i] for [0 <= i < getLength()], and [undefined] for any
    other index. *)
Theorem X15_roi_keeps_the_points_in_order (cs : list (add_call P)) (i : Z) :
  let r := fold_left (fun r c => add_invoke c r) cs ROI_new in
  let given_points := concat (map given cs) in
  getLength r = Z.of_nat (length given_points) /\
  (0 <= i < getLength r ->
   exists p, getPoint r i = Some p /\ given_points !! Z.to_nat i = Some p) /\
  (~ 0 <= i < getLength r -> getPoint r i = None).
Proof.
  cbv zeta. unfold getLength, getPoint. rewrite add_invoke_points. simpl.
  split; [reflexivity|]. split.
  - intros Hi. destruct (Z.ltb_spec i 0); [lia|].
    destruct (lookup_lt_is_Some_2 (concat (map given cs)) (Z.to_nat i)) as [p Hp]; [lia|].
    exists p. auto.
  - intros Hi. destruct (Z.ltb_spec i 0); [reflexivity|].
    apply lookup_ge_None_2. lia.
Qed.

End ROIFacts.
End ROIFacts.

(** ** More of the theorems at work *)

Section SizeFacts.
Context {num : Type} {N : JSNumber num}.

Lemma setData_image_size (data : list Z) (s s0 : Scissors num) :
  setData data s = (Ok tt, s0) -> 1 <= width s -> 1 <= height s ->
  image_size (height s) (width s) s0.
Proof.
  intros Hload Hw Hh.
  destruct (setData_fields data s s0 Hload Hw Hh) as (_ & Hg & _).
  exists (greyscale_of data (width s) (height s)).
  eexists. split; [exact Hg|]. split; [rewrite greyscale_of_alen; lia|].
  split; [apply greyscale_of_row; lia|].
  rewrite tabulate_alen by lia. destruct (Z.ltb_spec 0 (width s)); simpl; lia.
Qed.

End SizeFacts.

(** * Binary64 arithmetic

    What the loading of an image needs of the arithmetic, from the
    specification of the operations ([FloatAxioms]): which operations give a
    number from numbers, the order of the integers, and the indices
    [computeSides] computes. *)

Module Binary64.
Import SF Levels Float64.
#[local] Set Warnings "-inexact-float".

(** ** Signs and classes *)

Lemma signed_nonnan s x : signed s x = true -> nonnan x = true.
Proof. destruct x; simpl; congruence. Qed.

Lemma finite_nonnan x : finite x = true -> nonnan x = true.
Proof. destruct x; simpl; congruence. Qed.

Lemma shr_1_nonneg mrs : 0 <= shr_m mrs -> 0 <= shr_m (shr_1 mrs).
Proof.
  destruct mrs as [m r s]. simpl. intros Hm.
  destruct m as [|p|p]; [simpl; lia| |lia].
  destruct p; simpl; lia.
Qed.

Lemma iter_pos_shr_1_nonneg p :
  forall mrs, 0 <= shr_m mrs -> 0 <= shr_m (SpecFloat.iter_pos shr_1 p mrs).
Proof.
  induction p as [p IH|p IH|]; intros mrs Hm; simpl.
  - apply IH, IH, shr_1_nonneg, Hm.
  - apply IH, IH, Hm.
  - apply shr_1_nonneg, Hm.
Qed.

Lemma shr_nonneg mrs e n : 0 <= shr_m mrs -> 0 <= shr_m (fst (shr mrs e n)).
Proof.
  intros Hm. unfold shr. destruct n; simpl; try exact Hm.
  apply iter_pos_shr_1_nonneg, Hm.
Qed.

Lemma shr_record_of_loc_m m l : shr_m (shr_record_of_loc m l) = m.
Proof. destruct l as [|[]]; reflexivity. Qed.

Lemma shr_fexp_nonneg m e l : 0 <= m -> 0 <= shr_m (fst (shr_fexp prec emax m e l)).
Proof.
  intros Hm. unfold shr_fexp. apply shr_nonneg. rewrite shr_record_of_loc_m. exact Hm.
Qed.

Lemma round_nearest_even_nonneg m l : 0 <= m -> 0 <= round_nearest_even m l.
Proof.
  intros Hm. unfold round_nearest_even. destruct l as [|[]]; try lia.
  destruct (Z.even m); lia.
Qed.

(** Rounding a value of sign [s] gives a zero, a finite number or an
    infinity of sign [s]. *)
Lemma binary_round_aux_signed s m e l :
  0 <= m -> signed s (binary_round_aux prec emax s m e l) = true.
Proof.
  intros Hm. unfold binary_round_aux.
  pose proof (shr_fexp_nonneg m e l Hm) as H1.
  destruct (shr_fexp prec emax m e l) as [mrs' e']. simpl in H1.
  pose proof (shr_fexp_nonneg _ e' loc_Exact
                (round_nearest_even_nonneg _ (loc_of_shr_record mrs') H1)) as H2.
  destruct (shr_fexp prec emax _ e' loc_Exact) as [mrs'' e'']. simpl in H2.
  destruct (shr_m mrs'') as [|p|p]; [| |lia].
  - simpl. apply eqb_reflx.
  - destruct (e'' <=? emax - prec); simpl; apply eqb_reflx.
Qed.

Lemma binary_round_signed s m e : signed s (binary_round prec emax s m e) = true.
Proof.
  unfold binary_round. destruct (shl_align _ _ _) as [mz ez].
  apply binary_round_aux_signed. lia.
Qed.

Lemma binary_normalize_nonnan m e sz : nonnan (binary_normalize prec emax m e sz) = true.
Proof.
  destruct m; simpl; [reflexivity| |];
    apply (signed_nonnan _ _ (binary_round_signed _ _ _)).
Qed.

(** The sum and the difference of a finite number and a number. *)
Lemma SFadd_nonnan x y :
  finite x = true -> nonnan y = true -> nonnan (SFadd prec emax x y) = true.
Proof.
  destruct x as [sx| | |sx mx ex], y as [sy|sy| |sy my ey]; simpl; try congruence;
    intros _ _.
  - destruct sx, sy; reflexivity.
  - apply binary_normalize_nonnan.
Qed.

Lemma SFsub_nonnan x y :
  finite x = true -> nonnan y = true -> nonnan (SFsub prec emax x y) = true.
Proof.
  destruct x as [sx| | |sx mx ex], y as [sy|sy| |sy my ey]; simpl; try congruence;
    intros _ _.
  - destruct sx, sy; reflexivity.
  - apply binary_normalize_nonnan.
Qed.

(** The product of a finite number that is not zero and a number. *)
Lemma SFmul_nonnan x y :
  finite x = true -> nonzero x = true -> nonnan y = true ->
  nonnan (SFmul prec emax x y) = true.
Proof.
  destruct x as [sx| | |sx mx ex], y as [sy|sy| |sy my ey]; simpl; try congruence;
    intros _ _ _.
  apply (signed_nonnan (xorb sx sy)), binary_round_aux_signed. lia.
Qed.

(** A square is not negative. *)
Lemma SFmul_square x : finite x = true -> signed false (SFmul prec emax x x) = true.
Proof.
  destruct x as [sx| | |sx mx ex]; simpl; try congruence; intros _.
  - destruct sx; reflexivity.
  - replace (xorb sx sx) with false by (destruct sx; reflexivity).
    apply binary_round_aux_signed. lia.
Qed.

Lemma SFadd_signed x y :
  signed false x = true -> signed false y = true ->
  signed false (SFadd prec emax x y) = true.
Proof.
  destruct x as [sx|sx| |sx mx ex], y as [sy|sy| |sy my ey]; simpl; try congruence;
    destruct sx, sy; simpl; try congruence; intros _ _.
  apply binary_round_signed.
Qed.

Lemma sqrtrem_nonneg m : 0 <= fst (Z.sqrtrem m).
Proof.
  rewrite Z.sqrtrem_sqrt. apply Z.sqrt_nonneg.
Qed.

Lemma SFsqrt_signed x : signed false x = true -> signed false (SFsqrt prec emax x) = true.
Proof.
  destruct x as [sx|sx| |sx mx ex]; simpl; try congruence;
    destruct sx; simpl; try congruence; intros _.
  unfold SFsqrt_core_binary.
  match goal with |- context [Z.sqrtrem ?m] =>
    pose proof (sqrtrem_nonneg m) as Hq; destruct (Z.sqrtrem m) as [q r] end.
  simpl in Hq. apply binary_round_aux_signed. exact Hq.
Qed.

Lemma div_eucl_nonneg a b : 0 <= a -> 0 < b -> 0 <= fst (Z.div_eucl a b).
Proof.
  intros Ha Hb. change (fst (Z.div_eucl a b)) with (a / b). apply Z.div_pos; lia.
Qed.

(** The quotient of a finite number by a positive number or +Infinity. *)
Lemma SFdiv_nonnan x y :
  finite x = true -> nonnan y = true -> nonzero y = true ->
  nonnan (SFdiv prec emax x y) = true.
Proof.
  destruct x as [sx| | |sx mx ex], y as [sy|sy| |sy my ey]; simpl; try congruence;
    intros _ _ _.
  unfold SFdiv_core_binary. cbv zeta.
  match goal with |- context [Z.div_eucl ?a ?b] =>
    assert (Ha : 0 <= a);
      [|pose proof (div_eucl_nonneg a b Ha ltac:(lia)) as Hq;
        destruct (Z.div_eucl a b) as [q r]]
  end.
  { match goal with |- 0 <= match ?s with _ => _ end => destruct s end;
      try lia. apply Z.shiftl_nonneg. lia. }
  simpl in Hq. apply (signed_nonnan (xorb sx sy)), binary_round_aux_signed. exact Hq.
Qed.

(** ** The order *)

Lemma digits2_pos_bounds p :
  2 ^ (Z.pos (digits2_pos p) - 1) <= Z.pos p < 2 ^ Z.pos (digits2_pos p).
Proof.
  induction p as [p IH|p IH|]; simpl digits2_pos.
  - rewrite Pos2Z.inj_succ.
    replace (Z.succ (Z.pos (digits2_pos p)) - 1) with (Z.succ (Z.pos (digits2_pos p) - 1)) by lia.
    rewrite !Z.pow_succ_r by lia. lia.
  - rewrite Pos2Z.inj_succ.
    replace (Z.succ (Z.pos (digits2_pos p)) - 1) with (Z.succ (Z.pos (digits2_pos p) - 1)) by lia.
    rewrite !Z.pow_succ_r by lia. lia.
  - simpl. lia.
Qed.

(** A finite binary64 value in canonical form: at most 53 digits, and 53 of
    them unless the exponent is the least one. *)
Lemma valid_finite s m e :
  valid_binary (S754_finite s m e) = true ->
  -1074 <= e <= 971 /\ Z.pos m < 2 ^ 53 /\ (e = -1074 \/ 2 ^ 52 <= Z.pos m).
Proof.
  unfold valid_binary, bounded, canonical_mantissa, fexp, SpecFloat.emin.
  change prec with 53. change emax with 1024.
  intros H. apply andb_true_iff in H as [H1 H2].
  apply Z.eqb_eq in H1. apply Z.leb_le in H2.
  pose proof (digits2_pos_bounds m) as Hd.
  set (d := Z.pos (digits2_pos m)) in *.
  assert (Hd53 : d <= 53) by lia.
  split; [lia|]. split.
  - apply Z.lt_le_trans with (2 ^ d); [lia|]. apply Z.pow_le_mono_r; lia.
  - destruct (Z.eq_dec e (-1074)) as [|Hne]; [left; assumption|right].
    assert (d = 53) as Hd' by lia. rewrite Hd' in Hd. apply Hd.
Qed.

(** The order of two canonical positive numbers: by the exponents first. *)
Lemma canonical_lt m1 e1 m2 e2 :
  valid_binary (S754_finite false m1 e1) = true ->
  valid_binary (S754_finite false m2 e2) = true ->
  e1 < e2 -> Z.pos m1 * 2 ^ (e1 + 1074) < Z.pos m2 * 2 ^ (e2 + 1074).
Proof.
  intros H1 H2 He.
  destruct (valid_finite _ _ _ H1) as (He1 & Hm1 & _).
  destruct (valid_finite _ _ _ H2) as (He2 & _ & [Hmin|Hm2]); [lia|].
  replace (e2 + 1074) with ((e1 + 1074) + 1 + (e2 - e1 - 1)) by lia.
  rewrite (Z.pow_add_r 2 (e1 + 1074 + 1) (e2 - e1 - 1)) by lia.
  rewrite (Z.pow_add_r 2 (e1 + 1074) 1) by lia.
  assert (0 < 2 ^ (e1 + 1074)) by (apply Z.pow_pos_nonneg; lia).
  assert (1 <= 2 ^ (e2 - e1 - 1)).
  { change 1 with (2 ^ 0). apply Z.pow_le_mono_r; lia. }
  change (2 ^ 1) with 2. change (2 ^ 53) with (2 * 2 ^ 52) in Hm1.
  set (A := 2 ^ (e1 + 1074)) in *. set (Q := 2 ^ (e2 - e1 - 1)) in *.
  set (T := 2 ^ 52) in *.
  assert (Z.pos m1 * A < 2 * T * A) by (apply Z.mul_lt_mono_pos_r; lia).
  assert (T * (A * 2) <= Z.pos m2 * (A * 2)) by (apply Z.mul_le_mono_nonneg_r; lia).
  assert (Z.pos m2 * (A * 2) * 1 <= Z.pos m2 * (A * 2) * Q)
    by (apply Z.mul_le_mono_nonneg_l; lia).
  lia.
Qed.

Lemma compare_cont_Eq m1 m2 : Pos.compare_cont Eq m1 m2 = (Z.pos m1 ?= Z.pos m2).
Proof. reflexivity. Qed.

Lemma compare_scale a b c : 0 < c -> (a * c ?= b * c) = (a ?= b).
Proof.
  intros Hc. destruct (Z.compare_spec a b) as [->|Hlt|Hgt].
  - apply Z.compare_refl.
  - apply Z.compare_lt_iff. apply Z.mul_lt_mono_pos_r; assumption.
  - apply Z.compare_gt_iff. apply Z.mul_lt_mono_pos_r; assumption.
Qed.

Lemma compare_pos m1 e1 m2 e2 :
  valid_binary (S754_finite false m1 e1) = true ->
  valid_binary (S754_finite false m2 e2) = true ->
  match e1 ?= e2 with
  | Lt => Lt
  | Gt => Gt
  | Eq => Pos.compare_cont Eq m1 m2
  end = (Z.pos m1 * 2 ^ (e1 + 1074) ?= Z.pos m2 * 2 ^ (e2 + 1074)).
Proof.
  intros H1 H2. destruct (Z.compare_spec e1 e2) as [->|Hlt|Hgt].
  - rewrite compare_cont_Eq. symmetry. apply compare_scale.
    destruct (valid_finite _ _ _ H2) as (He2 & _). apply Z.pow_pos_nonneg; lia.
  - symmetry. apply Z.compare_lt_iff. apply canonical_lt; assumption.
  - symmetry. apply Z.compare_gt_iff. apply canonical_lt; assumption.
Qed.

(** The order of two zeros or finite numbers is the order of their values. *)
Lemma SFcompare_scaled x y :
  valid_binary x = true -> valid_binary y = true ->
  finite x = true -> finite y = true ->
  SFcompare x y = Some (scaled x ?= scaled y).
Proof.
  destruct x as [sx| | |sx mx ex], y as [sy| | |sy my ey];
    cbn [SFcompare finite scaled]; try congruence; intros Hx Hy _ _.
  - reflexivity.
  - destruct (valid_finite sy my ey Hy) as (He & _).
    assert (0 < 2 ^ (ey + 1074)) by (apply Z.pow_pos_nonneg; lia).
    destruct sy; f_equal; symmetry.
    + apply Z.compare_gt_iff. nia.
    + apply Z.compare_lt_iff. nia.
  - destruct (valid_finite sx mx ex Hx) as (He & _).
    assert (0 < 2 ^ (ex + 1074)) by (apply Z.pow_pos_nonneg; lia).
    destruct sx; f_equal; symmetry.
    + apply Z.compare_lt_iff. nia.
    + apply Z.compare_gt_iff. nia.
  - destruct (valid_finite sx mx ex Hx) as (Hex & _).
    destruct (valid_finite sy my ey Hy) as (Hey & _).
    assert (0 < 2 ^ (ex + 1074)) by (apply Z.pow_pos_nonneg; lia).
    assert (0 < 2 ^ (ey + 1074)) by (apply Z.pow_pos_nonneg; lia).
    f_equal. destruct sx, sy.
    + destruct (Z.compare_spec ex ey) as [->|Hlt|Hgt].
      * rewrite compare_scale by assumption. reflexivity.
      * symmetry. apply Z.compare_gt_iff.
        pose proof (canonical_lt mx ex my ey Hx Hy Hlt). lia.
      * symmetry. apply Z.compare_lt_iff.
        pose proof (canonical_lt my ey mx ex Hy Hx Hgt). lia.
    + symmetry. apply Z.compare_lt_iff. nia.
    + symmetry. apply Z.compare_gt_iff. nia.
    + apply (compare_pos mx ex my ey Hx Hy).
Qed.

(** An integer value, scaled. *)
Lemma sf_to_int_scaled x z :
  valid_binary x = true -> sf_to_int x = Some z ->
  finite x = true /\ scaled x = z * 2 ^ 1074.
Proof.
  destruct x as [sx| | |sx mx ex]; simpl; try congruence; intros Hx Hz.
  - injection Hz as <-. split; reflexivity.
  - split; [reflexivity|].
    destruct (valid_finite sx mx ex Hx) as (He & _).
    destruct (Z.leb_spec 0 ex).
    + injection Hz as <-. rewrite Z.pow_add_r by lia. ring.
    + destruct (Z.eqb_spec (Z.pos mx mod 2 ^ (- ex)) 0) as [Hmod|]; [|discriminate].
      injection Hz as <-.
      assert (Hp : 0 < 2 ^ (- ex)) by (apply Z.pow_pos_nonneg; lia).
      apply Z.mod_divide in Hmod; [|lia]. destruct Hmod as [c Hc].
      replace (2 ^ 1074) with (2 ^ (- ex) * 2 ^ (ex + 1074))
        by (rewrite <- Z.pow_add_r by lia; f_equal; lia).
      destruct sx.
      * replace (Z.neg mx) with (- c * 2 ^ (- ex)) by lia.
        rewrite Z.div_mul by lia. ring.
      * rewrite Hc, Z.div_mul by lia. ring.
Qed.

(** Two integer values compare as the integers do. *)
Lemma SFcompare_int x y zx zy :
  valid_binary x = true -> valid_binary y = true ->
  sf_to_int x = Some zx -> sf_to_int y = Some zy ->
  SFcompare x y = Some (zx ?= zy).
Proof.
  intros Hx Hy Hzx Hzy.
  destruct (sf_to_int_scaled x zx Hx Hzx) as [Fx Sx].
  destruct (sf_to_int_scaled y zy Hy Hzy) as [Fy Sy].
  rewrite (SFcompare_scaled x y Hx Hy Fx Fy), Sx, Sy.
  f_equal. apply compare_scale. reflexivity.
Qed.

(** An integer value is below 2^1024 in magnitude. *)
Lemma sf_to_int_bound x z :
  valid_binary x = true -> sf_to_int x = Some z -> - 2 ^ 1024 < z < 2 ^ 1024.
Proof.
  intros Hx Hz. destruct (sf_to_int_scaled x z Hx Hz) as [_ Hs].
  destruct x as [sx| | |sx mx ex]; simpl in *; try congruence.
  - assert (z = 0) by congruence. subst. split; reflexivity.
  - destruct (valid_finite sx mx ex Hx) as (He & Hm & _).
    assert (Hp : 0 < 2 ^ (ex + 1074)) by (apply Z.pow_pos_nonneg; lia).
    assert (Hq : 2 ^ (ex + 1074) <= 2 ^ 2045) by (apply Z.pow_le_mono_r; lia).
    assert (E : 2 ^ 1024 * 2 ^ 1074 = 2 ^ 53 * 2 ^ 2045)
      by (rewrite <- !Z.pow_add_r by lia; reflexivity).
    assert (Hc : 0 < 2 ^ 1074) by reflexivity.
    assert (H53 : 0 < 2 ^ 53) by reflexivity.
    set (A := 2 ^ 1074) in *. set (B := 2 ^ 2045) in *.
    set (C := 2 ^ 1024) in *. set (D := 2 ^ 53) in *.
    set (P := 2 ^ (ex + 1074)) in *.
    destruct sx.
    + assert (- (D * B) < Z.neg mx * P) by nia.
      assert (Z.neg mx * P <= 0) by nia. nia.
    + assert (Z.pos mx * P < D * B) by nia.
      assert (0 <= Z.pos mx * P) by nia. nia.
Qed.

(** ** Integers *)

Lemma to_int_sf x : to_int x = sf_to_int (Prim2SF x).
Proof. reflexivity. Qed.

(** A mantissa of 53 digits is not rounded. *)
Lemma binary_round_aux_exact s m e :
  Z.pos (digits2_pos m) = 53 -> -1074 <= e <= 971 ->
  binary_round_aux prec emax s (Z.pos m) e loc_Exact = S754_finite s m e.
Proof.
  intros Hd He.
  assert (Hshift : forall m', Z.pos (digits2_pos m') = 53 ->
            shr_fexp prec emax (Z.pos m') e loc_Exact
            = ({| shr_m := Z.pos m'; shr_r := false; shr_s := false |}, e)).
  { intros m' Hd'. unfold shr_fexp. cbn [Zdigits2]. rewrite Hd'.
    replace (fexp prec emax (53 + e) - e) with 0; [reflexivity|].
    unfold fexp, SpecFloat.emin. change prec with 53. change emax with 1024. lia. }
  unfold binary_round_aux. rewrite (Hshift m Hd).
  cbn [loc_of_shr_record round_nearest_even shr_m]. rewrite (Hshift m Hd).
  cbn [shr_m]. destruct (Z.leb_spec e (emax - prec)); [reflexivity|].
  change prec with 53 in *. change emax with 1024 in *. lia.
Qed.

Lemma iter_xO_digits p k :
  digits2_pos (Pos.iter xO p k) = (digits2_pos p + k)%positive.
Proof.
  induction k as [|k IH] using Pos.peano_ind.
  - simpl. lia.
  - rewrite Pos.iter_succ. simpl digits2_pos. rewrite IH. lia.
Qed.

Lemma iter_xO_value p k : Z.pos (Pos.iter xO p k) = Z.pos p * 2 ^ Z.pos k.
Proof.
  induction k as [|k IH] using Pos.peano_ind.
  - simpl. lia.
  - rewrite Pos.iter_succ, Pos2Z.inj_succ, Z.pow_succ_r by lia.
    rewrite Pos2Z.inj_xO, IH. ring.
Qed.

(** An integer below 2^53 in magnitude is a binary64 value. *)
Lemma binary_round_small s p :
  Z.pos p < 2 ^ 53 ->
  exists m e,
    binary_round prec emax s p 0 = S754_finite s m e /\
    valid_binary (S754_finite s m e) = true /\
    e <= 0 /\ Z.pos m = Z.pos p * 2 ^ (- e).
Proof.
  intros Hp. pose proof (digits2_pos_bounds p) as Hd.
  set (d := Z.pos (digits2_pos p)) in *.
  assert (Hd53 : d <= 53).
  { destruct (Z_le_gt_dec d 53) as [|Hgt]; [assumption|].
    assert (2 ^ 53 <= 2 ^ (d - 1)) by (apply Z.pow_le_mono_r; lia). lia. }
  assert (Hd1 : 1 <= d) by (unfold d; lia).
  unfold binary_round.
  replace (fexp prec emax (Z.pos (digits2_pos p) + 0)) with (d - 53).
  2:{ unfold fexp, SpecFloat.emin. change prec with 53. change emax with 1024.
      fold d. lia. }
  unfold shl_align.
  assert (Hvalid : forall m e, Z.pos (digits2_pos m) = 53 -> -52 <= e <= 0 ->
            valid_binary (S754_finite s m e) = true).
  { intros m e Hm He. unfold valid_binary, bounded, canonical_mantissa.
    rewrite Hm. unfold fexp, SpecFloat.emin. change prec with 53. change emax with 1024.
    apply andb_true_iff. split; [apply Z.eqb_eq|apply Z.leb_le]; lia. }
  destruct (d - 53 - 0) as [|k|k] eqn:Hk; [|lia|].
  - exists p, 0. assert (d = 53) as Hd' by lia.
    split; [apply binary_round_aux_exact; [exact Hd'|lia]|].
    split; [apply Hvalid; [exact Hd'|lia]|]. split; [lia|]. simpl. lia.
  - assert (Hk' : Z.pos k = 53 - d) by lia.
    assert (Hdk : Z.pos (digits2_pos (Pos.iter xO p k)) = 53).
    { rewrite iter_xO_digits, Pos2Z.inj_add. fold d. lia. }
    exists (Pos.iter xO p k), (d - 53).
    split; [apply binary_round_aux_exact; [exact Hdk|lia]|].
    split; [apply Hvalid; [exact Hdk|lia]|]. split; [lia|].
    rewrite iter_xO_value. f_equal. f_equal. lia.
Qed.

Lemma of_int_zero : Prim2SF (of_int 0) = S754_zero false.
Proof. reflexivity. Qed.

(** The binary64 value of an integer below 2^53 in magnitude. *)
Lemma of_int_small n :
  n <> 0 -> - 2 ^ 53 < n < 2 ^ 53 ->
  exists m e,
    Prim2SF (of_int n) = S754_finite (n <? 0) m e /\
    e <= 0 /\ Z.pos m = Z.abs n * 2 ^ (- e).
Proof.
  intros Hn Hb. unfold of_int. destruct n as [|p|p]; [lia| |].
  - destruct (binary_round_small false p ltac:(lia)) as (m & e & Hr & Hv & He & Hm).
    exists m, e. cbn [binary_normalize]. rewrite Hr, (Prim2SF_SF2Prim _ Hv).
    split; [reflexivity|]. split; [exact He|exact Hm].
  - destruct (binary_round_small true p ltac:(lia)) as (m & e & Hr & Hv & He & Hm).
    exists m, e. cbn [binary_normalize]. rewrite Hr, (Prim2SF_SF2Prim _ Hv).
    split; [reflexivity|]. split; [exact He|exact Hm].
Qed.

Lemma of_int_finite n : - 2 ^ 53 < n < 2 ^ 53 -> finite (Prim2SF (of_int n)) = true.
Proof.
  intros Hb. destruct (Z.eq_dec n 0) as [->|Hn]; [reflexivity|].
  destruct (of_int_small n Hn Hb) as (m & e & -> & _). reflexivity.
Qed.

Lemma of_int_nonzero n :
  n <> 0 -> - 2 ^ 53 < n < 2 ^ 53 -> nonzero (Prim2SF (of_int n)) = true.
Proof. intros Hn Hb. destruct (of_int_small n Hn Hb) as (m & e & -> & _). reflexivity. Qed.

(** [to_int] reads the integer back. *)
Lemma to_int_of_int n : - 2 ^ 53 < n < 2 ^ 53 -> to_int (of_int n) = Some n.
Proof.
  intros Hb. destruct (Z.eq_dec n 0) as [->|Hn]; [reflexivity|].
  destruct (of_int_small n Hn Hb) as (m & e & Hr & He & Hm).
  rewrite to_int_sf, Hr. cbn [sf_to_int].
  assert (Hp : 0 < 2 ^ (- e)) by (apply Z.pow_pos_nonneg; lia).
  destruct (Z.leb_spec 0 e).
  - assert (e = 0) as -> by lia. simpl in Hm. f_equal.
    destruct (Z.ltb_spec n 0); lia.
  - rewrite Hm, Z.mod_mul by lia. cbn [Z.eqb]. f_equal.
    destruct (Z.ltb_spec n 0); cbv iota.
    + replace (Z.neg m) with (n * 2 ^ (- e)) by lia. apply Z.div_mul. lia.
    + replace (Z.abs n) with n by lia. apply Z.div_mul. lia.
Qed.

(** ** Rounding and clamping *)

Lemma integral_nonnan x : integral x -> nonnan x = true.
Proof. destruct x; simpl; tauto. Qed.

Lemma SFcompare_refl x : nonnan x = true -> SFcompare x x = Some Eq.
Proof.
  destruct x as [s|s| |s m e]; simpl; try congruence; intros _.
  - destruct s; reflexivity.
  - rewrite Z.compare_refl, Pos.compare_cont_refl. destruct s; reflexivity.
Qed.

Lemma is_nan_false x : nonnan (Prim2SF x) = true -> is_nan x = false.
Proof.
  intros Hx. unfold is_nan. rewrite FloatAxioms.eqb_spec. unfold SFeqb.
  rewrite (SFcompare_refl _ Hx). reflexivity.
Qed.

Lemma integral_rank x z : sf_to_int x = Some z -> rank x = z.
Proof. destruct x as [s|s| |s m e]; simpl; try congruence; intros ->; reflexivity. Qed.

(** The order of integers and infinities is the order of their ranks. *)
Lemma SFltb_rank x y :
  valid_binary x = true -> valid_binary y = true ->
  integral x -> integral y -> SFltb x y = (rank x <? rank y).
Proof.
  intros Vx Vy Ix Iy.
  assert (Hfin : forall u, valid_binary u = true -> integral u ->
            (exists s, u = S754_infinity s) \/
            (exists z, sf_to_int u = Some z /\ rank u = z /\ - 2 ^ 1024 < z < 2 ^ 1024)).
  { intros u Vu Iu. destruct u as [s|s| |s m e]; simpl in Iu; try tauto.
    - right. exists 0. repeat split; reflexivity.
    - left. eauto.
    - right. destruct Iu as [z Hz]. exists z. split; [exact Hz|].
      split; [apply integral_rank, Hz|apply (sf_to_int_bound _ z Vu Hz)]. }
  assert (Hbig : - 2 ^ 1024 < 2 ^ 1024) by reflexivity.
  set (B := 2 ^ 1024) in *.
  destruct (Hfin x Vx Ix) as [[sx ->]|(zx & Hzx & Rx & Bx)],
           (Hfin y Vy Iy) as [[sy ->]|(zy & Hzy & Ry & By)].
  - destruct sx, sy; cbn [SFltb SFcompare rank]; fold B; symmetry;
      first [apply Z.ltb_lt; lia|apply Z.ltb_ge; lia].
  - rewrite Ry. cbn [rank]. fold B.
    assert (SFltb (S754_infinity sx) y = sx) as ->.
    { destruct y; try discriminate; destruct sx; reflexivity. }
    destruct sx; symmetry; [apply Z.ltb_lt; lia|apply Z.ltb_ge; lia].
  - rewrite Rx. cbn [rank]. fold B.
    assert (SFltb x (S754_infinity sy) = negb sy) as ->.
    { destruct x; try discriminate; destruct sy; reflexivity. }
    destruct sy; symmetry; [apply Z.ltb_ge; lia|apply Z.ltb_lt; lia].
  - rewrite Rx, Ry. unfold SFltb. rewrite (SFcompare_int x y zx zy Vx Vy Hzx Hzy).
    unfold Z.ltb. reflexivity.
Qed.

Lemma ltb_rank a b :
  integral (Prim2SF a) -> integral (Prim2SF b) ->
  PrimFloat.ltb a b = (rank (Prim2SF a) <? rank (Prim2SF b)).
Proof.
  intros Ia Ib. rewrite FloatAxioms.ltb_spec. apply SFltb_rank; auto using Prim2SF_valid.
Qed.

(** [Math.min] and [Math.max] on integers and infinities. *)
Lemma min_integral a b :
  integral (Prim2SF a) -> integral (Prim2SF b) ->
  integral (Prim2SF (min a b)) /\
  rank (Prim2SF (min a b)) = Z.min (rank (Prim2SF a)) (rank (Prim2SF b)).
Proof.
  intros Ia Ib. unfold min.
  rewrite (is_nan_false a (integral_nonnan _ Ia)), (is_nan_false b (integral_nonnan _ Ib)).
  cbn [orb]. rewrite (ltb_rank a b Ia Ib), (ltb_rank b a Ib Ia).
  destruct (Z.ltb_spec (rank (Prim2SF a)) (rank (Prim2SF b))); [split; [assumption|lia]|].
  destruct (Z.ltb_spec (rank (Prim2SF b)) (rank (Prim2SF a))); [split; [assumption|lia]|].
  destruct (classify a); (split; [assumption|lia]).
Qed.

Lemma max_integral a b :
  integral (Prim2SF a) -> integral (Prim2SF b) ->
  integral (Prim2SF (max a b)) /\
  rank (Prim2SF (max a b)) = Z.max (rank (Prim2SF a)) (rank (Prim2SF b)).
Proof.
  intros Ia Ib. unfold max.
  rewrite (is_nan_false a (integral_nonnan _ Ia)), (is_nan_false b (integral_nonnan _ Ib)).
  cbn [orb]. rewrite (ltb_rank a b Ia Ib), (ltb_rank b a Ib Ia).
  destruct (Z.ltb_spec (rank (Prim2SF a)) (rank (Prim2SF b))); [split; [assumption|lia]|].
  destruct (Z.ltb_spec (rank (Prim2SF b)) (rank (Prim2SF a))); [split; [assumption|lia]|].
  destruct (classify a); (split; [assumption|lia]).
Qed.

Lemma of_int_integral n :
  - 2 ^ 53 < n < 2 ^ 53 ->
  integral (Prim2SF (of_int n)) /\ rank (Prim2SF (of_int n)) = n.
Proof.
  intros Hb. pose proof (to_int_of_int n Hb) as Hz. rewrite to_int_sf in Hz.
  split; [|apply integral_rank, Hz].
  destruct (Prim2SF (of_int n)); simpl in *; try congruence; eauto.
Qed.

(** [Math.round] of a number is an integer or an infinity. *)
Lemma round_integral r : nonnan (Prim2SF r) = true -> integral (Prim2SF (round r)).
Proof.
  intros Hr. unfold round.
  pose proof (Prim2SF_valid r) as Vr.
  destruct (Prim2SF r) as [s|s| |s m e] eqn:Er; try discriminate.
  - rewrite Er. simpl. eauto.
  - rewrite Er. exact I.
  - destruct (Z.leb_spec 0 e) as [He|He].
    + rewrite Er. cbn [integral sf_to_int]. destruct (Z.leb_spec 0 e); [eauto|lia].
    + set (v := if s then Z.neg m else Z.pos m).
      set (n := (2 * v + 2 ^ (- e)) / 2 ^ (- e + 1)).
      destruct (Z.eqb_spec n 0) as [_|Hn].
      * destruct s; simpl; eauto.
      * apply of_int_integral.
        destruct (valid_finite s m e Vr) as (_ & Hm & _).
        assert (Hv : - 2 ^ 53 < v < 2 ^ 53) by (unfold v; destruct s; lia).
        assert (HP : 2 <= 2 ^ (- e)).
        { change 2 with (2 ^ 1) at 1. apply Z.pow_le_mono_r; lia. }
        unfold n. replace (- e + 1) with (Z.succ (- e)) by lia.
        rewrite Z.pow_succ_r by lia.
        set (P := 2 ^ (- e)) in *. set (T := 2 ^ 53) in *.
        assert (HT : 0 < T) by reflexivity.
        split.
        -- apply Z.lt_le_trans with (- T + 1); [lia|].
           apply Z.div_le_lower_bound; [lia|]. nia.
        -- apply Z.div_lt_upper_bound; [lia|]. nia.
Qed.

(** An index rounded and clamped to [0, k] is an integer of [0, k]. *)
Lemma clamp_index (r : float) (k : Z) :
  nonnan (Prim2SF r) = true -> 0 <= k < 2 ^ 53 ->
  exists z, to_int (max (min (round r) (of_int k)) (of_int 0)) = Some z /\ 0 <= z <= k.
Proof.
  intros Hr Hk.
  pose proof (round_integral r Hr) as It.
  destruct (of_int_integral k ltac:(lia)) as [Ik Rk].
  destruct (of_int_integral 0 ltac:(lia)) as [I0 R0].
  destruct (min_integral _ _ It Ik) as [Im Rm].
  destruct (max_integral _ _ Im I0) as [Iv Rv].
  rewrite Rm, Rk, R0 in Rv.
  set (v := max (min (round r) (of_int k)) (of_int 0)) in *.
  assert (Hbig : 2 ^ 53 < 2 ^ 1024) by reflexivity.
  rewrite to_int_sf.
  destruct (Prim2SF v) as [s|s| |s m e] eqn:Ev; cbn [integral] in Iv; try tauto.
  - exists 0. split; [reflexivity|lia].
  - exfalso. cbn [rank] in Rv. set (B := 2 ^ 1024) in *. set (T := 2 ^ 53) in *.
    destruct s; lia.
  - destruct Iv as [z Hz]. exists z. split; [exact Hz|].
    rewrite (integral_rank _ z Hz) in Rv. lia.
Qed.

(** ** Grey levels *)

Lemma In_below n i : 0 <= i < n -> In i (below n).
Proof. intros Hi. apply list_elem_of_In. unfold below. apply elem_of_seqZ. lia. Qed.

Lemma forallb2_In {A B} (f : A -> B -> bool) (l1 : list A) (l2 : list B) :
  forallb (fun a => forallb (f a) l2) l1 = true ->
  forall a b, In a l1 -> In b l2 -> f a b = true.
Proof.
  intros H a b Ha Hb. rewrite forallb_forall in H. specialize (H a Ha).
  rewrite forallb_forall in H. exact (H b Hb).
Qed.

(** The sums of two and of three colour levels are exact. *)
Lemma sums_exact :
  forallb (fun a => forallb (sum_is_exact a) (below 256)) (below 511) = true.
Proof. vm_compute. reflexivity. Qed.

Lemma of_int_add a b :
  0 <= a < 511 -> 0 <= b < 256 -> (of_int a + of_int b)%float = of_int (a + b).
Proof.
  intros Ha Hb. apply FloatAxioms.Leibniz.eqb_spec.
  exact (forallb2_In sum_is_exact _ _ sums_exact a b (In_below _ _ Ha) (In_below _ _ Hb)).
Qed.

Lemma grey_sum r g b :
  0 <= r <= 255 -> 0 <= g <= 255 -> 0 <= b <= 255 ->
  ((of_int r + of_int g + of_int b) / (of_int 3 * of_int 255))%float = grey (r + g + b).
Proof.
  intros Hr Hg Hb. rewrite (of_int_add r g), (of_int_add (r + g) b) by lia. reflexivity.
Qed.

Lemma diffs_finite : forallb (fun a => forallb (finite_diff a) greys) greys = true.
Proof. vm_compute. reflexivity. Qed.

(** The difference of two grey levels is finite. *)
Lemma grey_diff_finite s s' :
  0 <= s <= 765 -> 0 <= s' <= 765 -> finite (Prim2SF (grey s - grey s')%float) = true.
Proof.
  intros Hs Hs'.
  assert (Hin : forall i, 0 <= i <= 765 -> In (grey i) greys).
  { intros i Hi. unfold greys. apply in_map, In_below. lia. }
  exact (forallb2_In finite_diff _ _ diffs_finite _ _ (Hin s Hs) (Hin s' Hs')).
Qed.

(** ** The indices of [computeSides] *)

Lemma tiny_sf : exists m e, Prim2SF 1e-100%float = S754_finite false m e.
Proof. eexists _, _. vm_compute. reflexivity. Qed.

(** The norm of a gradient, kept above [1e-100]: a positive number or
    +Infinity. *)
Lemma max_tiny (sq : float) :
  signed false (Prim2SF sq) = true ->
  nonnan (Prim2SF (max sq 1e-100%float)) = true /\
  nonzero (Prim2SF (max sq 1e-100%float)) = true.
Proof.
  intros Hsq. destruct tiny_sf as (mt & et & Ht).
  unfold max. rewrite (is_nan_false sq (signed_nonnan _ _ Hsq)).
  rewrite (is_nan_false 1e-100%float) by (rewrite Ht; reflexivity). cbn [orb].
  rewrite !FloatAxioms.ltb_spec, Ht.
  destruct (Prim2SF sq) as [s|s| |s m e] eqn:Esq; try discriminate;
    destruct s; try discriminate.
  - cbn [SFltb SFcompare]. rewrite Ht. split; reflexivity.
  - cbn [SFltb SFcompare]. rewrite Esq. split; reflexivity.
  - destruct (SFltb _ _); [rewrite Ht; split; reflexivity|].
    destruct (SFltb _ _); [rewrite Esq; split; reflexivity|].
    destruct (classify sq); rewrite ?Ht, ?Esq; split; reflexivity.
Qed.

(** A component of the unit vector of a finite gradient is a number. *)
Lemma unit_component (ox oy o : float) :
  finite (Prim2SF ox) = true -> finite (Prim2SF oy) = true ->
  finite (Prim2SF o) = true ->
  nonnan (Prim2SF (o / max (sqrt (ox * ox + oy * oy)) 1e-100)%float) = true.
Proof.
  intros Hx Hy Ho.
  assert (Hsq : signed false (Prim2SF (sqrt (ox * ox + oy * oy))%float) = true).
  { rewrite sqrt_spec. apply SFsqrt_signed. rewrite add_spec. apply SFadd_signed;
      rewrite mul_spec; apply SFmul_square; assumption. }
  destruct (max_tiny _ Hsq) as [Hn Hz].
  rewrite div_spec. apply SFdiv_nonnan; assumption.
Qed.

(** The coordinate of a side pixel before rounding: a column or a row, plus
    or minus the width of the edge times a component of the unit vector. *)
Lemma side_coordinate (c d : Z) (u : float) :
  - 2 ^ 53 < c < 2 ^ 53 -> d <> 0 -> - 2 ^ 53 < d < 2 ^ 53 ->
  nonnan (Prim2SF u) = true ->
  nonnan (Prim2SF (of_int c + of_int d * u)%float) = true /\
  nonnan (Prim2SF (of_int c - of_int d * u)%float) = true.
Proof.
  intros Hc Hd0 Hd Hu.
  assert (Hm : nonnan (Prim2SF (of_int d * u)%float) = true).
  { rewrite mul_spec. apply SFmul_nonnan;
      [apply of_int_finite|apply of_int_nonzero|]; assumption. }
  split.
  - rewrite add_spec. apply SFadd_nonnan; [apply of_int_finite|]; assumption.
  - rewrite sub_spec. apply SFsub_nonnan; [apply of_int_finite|]; assumption.
Qed.

End Binary64.

(** ** Dense fields *)

Section Dense.
Context {num : Type} {N : JSNumber num}.

Lemma data_get_Some data i :
  0 <= i < Z.of_nat (length data) -> exists z, data_get data i = Some z /\ In z data.
Proof.
  intros Hi. unfold data_get. destruct (Z.ltb_spec i 0); [lia|].
  destruct (lookup_lt_is_Some_2 data (Z.to_nat i)) as [z Hz]; [lia|].
  exists z. split; [exact Hz|]. apply list_elem_of_In. eapply list_elem_of_lookup_2, Hz.
Qed.

Lemma dense_row_of P (m : field num) h w y :
  dense P m h w -> 0 <= y < h -> alen (row_of m y) = w.
Proof.
  intros Hm Hy. destruct (dn_row _ _ _ _ Hm y Hy) as (row & Hrow & Hw).
  rewrite (row_of_Some m y row Hrow). exact Hw.
Qed.

Lemma dense_has_rows P (m : field num) h w : dense P m h w -> has_rows m h.
Proof. intros Hm y Hy. destruct (dn_row _ _ _ _ Hm y Hy) as (row & Hrow & _). eauto. Qed.

(** The cells of [greyscale] where the buffer holds the samples. *)
Lemma greyscale_of_dense (P : num -> Prop) data w h :
  0 <= w -> 0 <= h ->
  (forall x y, 0 <= x < w -> 0 <= y < h -> P (grey_value data w x y)) ->
  dense P (greyscale_of data w h) h w.
Proof.
  intros Hw Hh HP. constructor.
  - rewrite greyscale_of_alen. lia.
  - intros y Hy. rewrite greyscale_of_row by exact Hy. eexists. split; [reflexivity|].
    rewrite tabulate_alen by lia. destruct (Z.ltb_spec 0 w); simpl; lia.
  - intros y x Hy Hx.
    rewrite (row_of_Some _ y _ (greyscale_of_row data w h y Hy)).
    rewrite tabulate_get. case_decide; [|lia]. eauto.
Qed.

(** The differences of a dense field are dense. *)
Lemma gradX_of_dense (P Q : num -> Prop) (g : field num) h w :
  dense P g h w -> (forall a b, P a -> P b -> Q (a ⊖ b)) ->
  2 <= w -> 1 <= h -> dense Q (gradX_of g) h w.
Proof.
  intros Hg HQ Hw Hh.
  assert (Hdx : forall x y, 0 <= y < h -> 0 <= x < w - 1 -> Q (dx_value g x y)).
  { intros x y Hy Hx. unfold dx_value. cbv zeta.
    rewrite (dense_row_of P g h w y Hg Hy).
    destruct (Z.eqb_spec (x + 1) w); [lia|].
    destruct (dn_cell _ _ _ _ Hg y (x + 1) Hy ltac:(lia)) as (a & -> & Ha).
    destruct (dn_cell _ _ _ _ Hg y x Hy ltac:(lia)) as (b & -> & Hb).
    apply HQ; assumption. }
  assert (Hrow : forall y, 0 <= y < h ->
            arr_get (gradX_of g) y = Some (gradX_row g y)).
  { intros y Hy. unfold gradX_of. rewrite tabulate_get, (dn_alen _ _ _ _ Hg).
    case_decide; [reflexivity|lia]. }
  constructor.
  - unfold gradX_of. rewrite tabulate_alen, (dn_alen _ _ _ _ Hg) by lia.
    destruct (Z.ltb_spec 0 h); simpl; lia.
  - intros y Hy. rewrite (Hrow y Hy). eexists. split; [reflexivity|].
    unfold gradX_row. cbv zeta. rewrite (dense_row_of P g h w y Hg Hy).
    rewrite alen_put, tabulate_alen by lia.
    destruct (Z.leb_spec 0 (w - 1)); [|lia].
    destruct (Z.ltb_spec 0 (w - 1)); simpl; lia.
  - intros y x Hy Hx. rewrite (row_of_Some _ y _ (Hrow y Hy)).
    unfold gradX_row. cbv zeta. rewrite (dense_row_of P g h w y Hg Hy).
    rewrite arr_get_put. case_decide.
    + rewrite tabulate_get. case_decide; [|lia]. eexists. split; [reflexivity|].
      apply Hdx; lia.
    + rewrite tabulate_get. case_decide; [|lia]. eexists. split; [reflexivity|].
      apply Hdx; lia.
Qed.

Lemma gradY_of_dense (P Q : num -> Prop) (g : field num) h w :
  dense P g h w -> (forall a b, P a -> P b -> Q (a ⊖ b)) ->
  1 <= w -> 2 <= h -> dense Q (gradY_of g) h w.
Proof.
  intros Hg HQ Hw Hh.
  set (gy := tabulate 0 (h - 1) (fun y => Some (gradY_row g y)) arr_empty).
  set (last := tabulate 0 w (fun i => arr_get (row_of gy (h - 2)) i) arr_empty).
  assert (Egy : gradY_of g = arr_put gy (h - 1) (Some last)).
  { unfold gradY_of. cbv zeta. rewrite (dn_alen _ _ _ _ Hg).
    rewrite (dense_row_of P g h w 0 Hg) by lia. reflexivity. }
  assert (Hinner : forall y, 0 <= y < h - 1 -> arr_get gy y = Some (gradY_row g y)).
  { intros y Hy. unfold gy. rewrite tabulate_get. case_decide; [reflexivity|lia]. }
  assert (Hcell : forall y x, 0 <= y < h - 1 -> 0 <= x < w ->
            exists v, arr_get (gradY_row g y) x = Some v /\ Q v).
  { intros y x Hy Hx. unfold gradY_row. rewrite (dense_row_of P g h w y Hg) by lia.
    rewrite tabulate_get. case_decide; [|lia]. eexists. split; [reflexivity|].
    unfold dy_value. cbv zeta. rewrite (dn_alen _ _ _ _ Hg).
    destruct (Z.eqb_spec (y + 1) h); [lia|].
    destruct (dn_cell _ _ _ _ Hg y x ltac:(lia) Hx) as (a & -> & Ha).
    destruct (dn_cell _ _ _ _ Hg (y + 1) x ltac:(lia) Hx) as (b & -> & Hb).
    apply HQ; assumption. }
  assert (Hrow : forall y, 0 <= y < h ->
            arr_get (gradY_of g) y
            = Some (if decide (y = h - 1) then last else gradY_row g y)).
  { intros y Hy. rewrite Egy, arr_get_put.
    destruct (decide (h - 1 = y)) as [<-|Hne].
    - case_decide; [reflexivity|lia].
    - case_decide; [lia|]. apply Hinner. lia. }
  constructor.
  - rewrite Egy, alen_put. unfold gy. rewrite tabulate_alen by lia.
    destruct (Z.leb_spec 0 (h - 1)); [|lia].
    destruct (Z.ltb_spec 0 (h - 1)); simpl; lia.
  - intros y Hy. rewrite (Hrow y Hy). eexists. split; [reflexivity|].
    case_decide.
    + unfold last. rewrite tabulate_alen by lia.
      destruct (Z.ltb_spec 0 w); simpl; lia.
    + unfold gradY_row. rewrite (dense_row_of P g h w y Hg Hy), tabulate_alen by lia.
      destruct (Z.ltb_spec 0 w); simpl; lia.
  - intros y x Hy Hx. rewrite (row_of_Some _ y _ (Hrow y Hy)). case_decide.
    + unfold last. rewrite tabulate_get. case_decide; [|lia].
      rewrite (row_of_Some gy (h - 2) _ (Hinner (h - 2) ltac:(lia))).
      apply Hcell; lia.
    + apply Hcell; lia.
Qed.

End Dense.

(** ** Loading an image on binary64 (C9) *)

Section Loading64.
Import SF Levels Float64 Binary64.

Lemma grey_value_level data w h x y :
  0 <= x < w -> 0 <= y < h ->
  Forall (fun v => 0 <= v <= 255) data -> 4 * w * h <= Z.of_nat (length data) ->
  grey_level (grey_value (num := float) data w x y).
Proof.
  intros Hx Hy Hdata Hlen. unfold grey_value. cbv zeta.
  assert (Hp : 0 <= (y * w + x) * 4 /\ (y * w + x) * 4 + 2 < Z.of_nat (length data)) by nia.
  rewrite Forall_forall in Hdata.
  destruct (data_get_Some data ((y * w + x) * 4)) as (z0 & -> & H0); [lia|].
  destruct (data_get_Some data ((y * w + x) * 4 + 1)) as (z1 & -> & H1); [lia|].
  destruct (data_get_Some data ((y * w + x) * 4 + 2)) as (z2 & -> & H2); [lia|].
  apply list_elem_of_In, Hdata in H0, H1, H2.
  exists (z0 + z1 + z2). split; [lia|].
  exact (grey_sum z0 z1 z2 H0 H1 H2).
Qed.

Lemma grey_level_diff a b : grey_level a -> grey_level b -> is_finite (a ⊖ b).
Proof.
  intros (s & Hs & ->) (s' & Hs' & ->). exact (grey_diff_finite s s' Hs Hs').
Qed.

(** The unit vector of a finite gradient: two numbers. *)
Lemma unit_vector_nonnan (gx gy : field float) x y a b :
  arr_get (row_of gx y) x = Some a -> is_finite a ->
  arr_get (row_of gy y) x = Some b -> is_finite b ->
  exists u v, unit_vector gx gy x y = (u, v) /\
    nonnan (Prim2SF u) = true /\ nonnan (Prim2SF v) = true.
Proof.
  intros Ha Fa Hb Fb. unfold unit_vector. rewrite Ha, Hb. cbv zeta.
  eexists _, _. split; [reflexivity|].
  split; [exact (unit_component a b a Fa Fb Fa)|exact (unit_component a b b Fa Fb Fb)].
Qed.

Lemma arr_get_num_int {V} (a : jsarray V) (k : float) (z : Z) :
  to_int k = Some z -> arr_get_num a k = arr_get a z.
Proof. intros Hk. unfold arr_get_num. change (to_index k) with (to_int k). rewrite Hk. reflexivity. Qed.

(** [computeSides] returns on finite gradients of a dense greyscale. *)
Lemma computeSides_total (d : Z) (P : float -> Prop) (g gx gy : field float) h w :
  dense P g h w -> dense is_finite gx h w -> dense is_finite gy h w ->
  1 <= h < 2 ^ 53 -> 1 <= w < 2 ^ 53 -> d <> 0 -> - 2 ^ 53 < d < 2 ^ 53 ->
  exists io, computeSides d gx gy g = Ok io.
Proof.
  intros Hg Hgx Hgy Hh Hw Hd0 Hd. unfold computeSides. rewrite (dn_alen _ _ _ _ Hgx).
  match goal with
  | |- exists io, for_range 0 h ?body ?init = Ok io =>
      destruct (for_range_inv (fun _ _ => True) 0 h body init) as (io & Hio & _);
        [lia|exact I| |eauto]
  end.
  intros y [i o] Hy _. cbv beta iota zeta.
  destruct (dn_row _ _ _ _ Hgx y Hy) as (rx & Hrx & Hrxw).
  destruct (dn_row _ _ _ _ Hgy y Hy) as (ry & Hry & _).
  rewrite (row_length_Ok gx y rx Hrx), !bind_Ok, Hrxw.
  match goal with
  | |- exists io, for_range 0 w ?body ?init = Ok io /\ True =>
      destruct (for_range_inv
        (fun _ io => is_Some (arr_get (fst io) y) /\ is_Some (arr_get (snd io) y))
        0 w body init) as (io & Hio & _);
        [lia|simpl; rewrite !arr_get_put_eq; eauto| |eauto]
  end.
  intros x [i1 o1] Hx [[ri Hri] [ro Hro]]. simpl in Hri, Hro. cbv beta iota zeta.
  rewrite (gradUnitVector_Ok gx gy x y) by eauto. rewrite bind_Ok.
  destruct (dn_cell _ _ _ _ Hgx y x Hy Hx) as (a & Ha & Fa).
  destruct (dn_cell _ _ _ _ Hgy y x Hy Hx) as (b & Hb & Fb).
  destruct (unit_vector_nonnan gx gy x y a b Ha Fa Hb Fb) as (u & v & -> & Hu & Hv).
  cbv beta iota zeta. rewrite bind_Ok.
  destruct (side_coordinate x d v ltac:(lia) Hd0 Hd Hv) as [Hxp Hxm].
  destruct (side_coordinate y d u ltac:(lia) Hd0 Hd Hu) as [Hyp Hym].
  destruct (clamp_index _ (w - 1) Hxp ltac:(lia)) as (zix & Eix & Hix).
  destruct (clamp_index _ (w - 1) Hxm ltac:(lia)) as (zox & Eox & Hox).
  destruct (clamp_index _ (h - 1) Hym ltac:(lia)) as (ziy & Eiy & Hiy).
  destruct (clamp_index _ (h - 1) Hyp ltac:(lia)) as (zoy & Eoy & Hoy).
  change (of_Z (num := float)) with of_int.
  change (nround (num := float)) with round.
  change (nmax (num := float)) with max. change (nmin (num := float)) with min.
  change (nadd (num := float)) with PrimFloat.add.
  change (nsub (num := float)) with PrimFloat.sub.
  change (nmul (num := float)) with PrimFloat.mul.
  rewrite (arr_get_num_int g _ ziy Eiy), (arr_get_num_int g _ zoy Eoy).
  destruct (dn_row _ _ _ _ Hg ziy ltac:(lia)) as (rgi & -> & _).
  destruct (dn_row _ _ _ _ Hg zoy ltac:(lia)) as (rgo & -> & _).
  cbn [defined]. rewrite !bind_Ok.
  rewrite (mat_put_Ok i1 y x _ ri Hri), !bind_Ok.
  rewrite (mat_put_Ok o1 y x _ ro Hro), !bind_Ok.
  eexists. split; [reflexivity|]. simpl. rewrite !arr_get_put_eq. eauto.
Qed.

(** [setData] on an object whose dimensions are at least 2 by 2, with a
    buffer that holds every sample of the image. *)
Lemma setData_total (data : list Z) (s : Scissors float) :
  2 <= width s < 2 ^ 53 -> 2 <= height s < 2 ^ 53 ->
  edgeWidth s <> 0 -> - 2 ^ 53 < edgeWidth s < 2 ^ 53 ->
  Forall (fun v => 0 <= v <= 255) data ->
  4 * width s * height s <= Z.of_nat (length data) ->
  exists s0, setData data s = (Ok tt, s0).
Proof.
  intros Hw Hh He0 He Hdata Hlen.
  set (g := greyscale_of (num := float) data (width s) (height s)).
  assert (Hg : dense grey_level g (height s) (width s)).
  { apply greyscale_of_dense; try lia. intros x y Hx Hy.
    apply (grey_value_level data (width s) (height s)); assumption. }
  pose proof (greyscale_of_has_rows (num := float) data (width s) (height s)) as Hrows.
  fold g in Hrows.
  pose proof (dn_alen _ _ _ _ Hg) as Halen.
  unfold setData. run_M.
  destruct (Z.eqb_spec (width s) (-1)); [lia|].
  destruct (Z.eqb_spec (height s) (-1)); [lia|]. cbn [orb].
  rewrite computeGreyscale_eq. fold g. run_M.
  rewrite (computeLaplace_eq g Hrows). run_M.
  rewrite (computeGradient_eq g Hrows ltac:(lia)). run_M.
  rewrite (computeGradX_eq g Hrows). run_M.
  rewrite (computeGradY_eq g Hrows ltac:(lia)). run_M.
  destruct (computeSides_total (edgeWidth s) grey_level g (gradX_of g) (gradY_of g)
              (height s) (width s) Hg
              (gradX_of_dense _ _ g _ _ Hg grey_level_diff ltac:(lia) ltac:(lia))
              (gradY_of_dense _ _ g _ _ Hg grey_level_diff ltac:(lia) ltac:(lia))
              ltac:(lia) ltac:(lia) He0 He) as ([i o] & Hio).
  rewrite Hio. run_M. eauto.
Qed.

(** C9, amended.  [setData] on an object whose width or height is still
    -1 throws the error "Dimensions have not been set." and leaves the object
    as it was.  After [setDimensions] with a width and a height of at least 2
    (and below 2^53), with a buffer that holds the 4 * width * height samples
    of the image, each a colour level of 0 to 255, [setData] returns normally,
    on binary64 numbers.  ([edgeWidth] is 2 on every object: the constructor
    sets it and no method writes it.) *)
Theorem C9_setData_and_dimensions (data : list Z) (s : Scissors float) :
  (width s = -1 \/ height s = -1 ->
   setData data s = (Throw (Error "Dimensions have not been set."), s)) /\
  (forall w h, 2 <= w < 2 ^ 53 -> 2 <= h < 2 ^ 53 -> edgeWidth s = 2 ->
   Forall (fun v => 0 <= v <= 255) data -> 4 * w * h <= Z.of_nat (length data) ->
   exists s0, (setDimensions w h;; setData data) s = (Ok tt, s0)).
Proof.
  split.
  - intros Hdim. unfold setData. run_M.
    assert ((width s =? -1) || (height s =? -1) = true) as ->; [|reflexivity].
    destruct Hdim as [-> | ->]; [reflexivity|apply orb_true_r].
  - intros w h Hw Hh He Hdata Hlen.
    destruct (setData_total data (set_height h (set_width w s))) as [s0 Hs0];
      try assumption.
    + change (edgeWidth (set_height h (set_width w s))) with (edgeWidth s). lia.
    + change (edgeWidth (set_height h (set_width w s))) with (edgeWidth s).
      rewrite He. split; reflexivity.
    + exists s0. rewrite <- Hs0. reflexivity.
Qed.

End Loading64.

(** ** The table indices of the grey levels *)

Section GreyIndices.
Import SF Levels Float64 Binary64.

Lemma greyscale_of_cell_inv {num} {N : JSNumber num} data w h p (v : num) :
  cell (Some (greyscale_of data w h)) p = Some v ->
  in_image h w p /\ v = grey_value data w (px p) (py p).
Proof.
  destruct p as [x y]. rewrite cell_Some. unfold greyscale_of.
  rewrite tabulate_get. case_decide as Hy; [|rewrite arr_get_empty; discriminate].
  simpl. rewrite tabulate_get. case_decide as Hx; [|rewrite arr_get_empty; discriminate].
  intros [= <-]. unfold in_image. simpl. auto.
Qed.

Lemma indices_in_table : forallb index_in_table (below 766) = true.
Proof. vm_compute. reflexivity. Qed.

Lemma grey_index s :
  0 <= s <= 765 ->
  exists i, to_index (getTrainingIdx 256 (grey s)) = Some i /\ 0 <= i <= 255.
Proof.
  intros Hs. pose proof indices_in_table as H. rewrite forallb_forall in H.
  specialize (H s (In_below 766 s ltac:(lia))). unfold index_in_table in H.
  change (to_index (getTrainingIdx 256 (grey s)))
    with (to_int (round (of_int (256 - 1) * grey s)%float)).
  destruct (to_int _) as [i|]; [|discriminate].
  apply andb_true_iff in H as [H1 H2]. apply Z.leb_le in H1, H2. eauto.
Qed.

(** X12. After [setData] with a buffer that holds the samples of the
    image, each a colour level of 0 to 255, every value that [greyscale],
    [inside] and [outside] hold is the grey level of three colour levels, and
    its index in a table of 256 entries, [getTrainingIdx(256, v)], is an
    integer of 0 to 255, on binary64 numbers. *)
Theorem X12_grey_levels_index_the_tables
    (w h : Z) (data : list Z) (s0 : Scissors float) (m : option (field float))
    (p : Point) (v : float) :
  2 <= w -> 2 <= h ->
  (setDimensions w h;; setData data) Scissors_new = (Ok tt, s0) ->
  Forall (fun v => 0 <= v <= 255) data -> 4 * w * h <= Z.of_nat (length data) ->
  m = greyscale s0 \/ m = inside s0 \/ m = outside s0 ->
  cell m p = Some v ->
  exists s i, 0 <= s <= 765 /\ v = grey s /\
    to_index (getTrainingIdx 256 v) = Some i /\ 0 <= i <= 255.
Proof.
  intros Hw Hh Hload Hall Hlen Hm Hv.
  unfold setDimensions in Hload. run_M_in Hload.
  set (sd := set_height h (set_width w Scissors_new)) in *.
  change (setData data sd = (Ok tt, s0)) in Hload.
  destruct (setData_fields data sd s0 Hload ltac:(simpl; lia) ltac:(simpl; lia))
    as (_ & Hg & _).
  destruct (setData_sides data sd s0 Hload ltac:(simpl; lia) ltac:(simpl; lia))
    as ((i & o & Hi & Ho & Hsides) & _).
  simpl in Hg, Hsides.
  assert (Hsample : exists q, cell (Some (greyscale_of data w h)) q = Some v).
  { destruct (computeSides_samples _ _ _ _ i o Hsides) as [[_ Hci] [_ Hco]].
    destruct Hm as [->|[->| ->]].
    - rewrite Hg in Hv. eauto.
    - rewrite Hi in Hv. destruct p as [x y]. rewrite cell_Some in Hv.
      destruct (arr_get i y) as [row|] eqn:Hrow; [|discriminate].
      exact (Hci y row x v Hrow Hv).
    - rewrite Ho in Hv. destruct p as [x y]. rewrite cell_Some in Hv.
      destruct (arr_get o y) as [row|] eqn:Hrow; [|discriminate].
      exact (Hco y row x v Hrow Hv). }
  destruct Hsample as [q Hq].
  destruct (greyscale_of_cell_inv data w h q v Hq) as [[Hqx Hqy] ->].
  destruct (grey_value_level data w h (px q) (py q) Hqx Hqy Hall Hlen) as (s & Hs & ->).
  destruct (grey_index s Hs) as (k & Hk & Hkb).
  exists s, k. auto.
Qed.

End GreyIndices.

(** ** What the calls keep *)

Section Keeps.
Context {num : Type} {N : JSNumber num}.

Lemma keeps_ret {A} (P : Scissors num -> Prop) (a : A) : keeps P (mret a).
Proof. intros s Hs. exact Hs. Qed.

Lemma keeps_get (P : Scissors num -> Prop) : keeps P get.
Proof. intros s Hs. exact Hs. Qed.

Lemma keeps_lift {A} (P : Scissors num -> Prop) (r : res A) : keeps P (lift r).
Proof. intros s Hs. exact Hs. Qed.

Lemma keeps_throw {A} (P : Scissors num -> Prop) (e : exn) : keeps P (throw (A := A) e).
Proof. intros s Hs. exact Hs. Qed.

Lemma keeps_modify (P : Scissors num -> Prop) (g : Scissors num -> Scissors num) :
  (forall s, P s -> P (g s)) -> keeps P (modify g).
Proof. intros H s Hs. apply H, Hs. Qed.

Lemma keeps_bind {A A'} (P : Scissors num -> Prop) (m : M num A) (k : A -> M num A') :
  keeps P m -> (forall a, keeps P (k a)) -> keeps P (m ≫= k).
Proof.
  intros Hm Hk s Hs. unfold mbind, M_bind. specialize (Hm s Hs).
  destruct (m s) as [[a|e] s1]; simpl in *.
  - apply Hk, Hm.
  - exact Hm.
Qed.

Lemma keeps_for_each {A} (P : Scissors num -> Prop) (l : list A) (body : A -> M num unit) :
  (forall a, keeps P (body a)) -> keeps P (for_each l body).
Proof.
  intros H. induction l as [|a l IH]; simpl.
  - apply keeps_ret.
  - apply keeps_bind; [apply H|intros _; exact IH].
Qed.

End Keeps.

(** A setter keeps [loaded] when it writes none of the fields [loaded]
    reads, or writes a table. *)
Ltac keeps_step :=
  lazymatch goal with
  | |- keeps _ (mret _) => apply keeps_ret
  | |- keeps _ get => apply keeps_get
  | |- keeps _ (lift _) => apply keeps_lift
  | |- keeps _ (throw _) => apply keeps_throw
  | |- keeps _ (modify _) =>
      apply keeps_modify; intros ? []; constructor; first [assumption|simpl; eauto]
  | |- keeps _ (_ ≫= _) => apply keeps_bind; [|intros]
  | |- keeps _ (for_each _ _) => apply keeps_for_each; intros
  | |- keeps _ (if ?b then _ else _) => destruct b
  | |- keeps _ (let '(_, _) := ?x in _) => destruct x
  | |- keeps _ (match ?x with _ => _ end) => destruct x
  | |- keeps _ (let _ := _ in _) => cbv zeta
  end.

Ltac keeps_all := repeat keeps_step.

Section Sessions.
Context {num : Type} {N : JSNumber num}.
Variables H W : Z.

Lemma setPoint_keeps_loaded sp : keeps (loaded H W) (setPoint (num := num) sp).
Proof. unfold setPoint, setWorking. keeps_all. Qed.

Lemma doWork_loop_keeps_loaded fuel :
  forall pc np, keeps (loaded H W) (doWork_loop (num := num) fuel pc np).
Proof.
  induction fuel as [|fuel IH]; intros pc np; simpl.
  - apply keeps_ret.
  - unfold doWork_step, relax. keeps_all. apply IH.
Qed.

Lemma doWork_keeps_loaded : keeps (loaded H W) (doWork (num := num)).
Proof. unfold doWork. keeps_all. all: apply doWork_loop_keeps_loaded. Qed.

Lemma doTraining_keeps_loaded p : keeps (loaded H W) (doTraining (num := num) p).
Proof. unfold doTraining. keeps_all. Qed.

(** Every call but [setDimensions] and [setData] keeps a loaded object
    loaded, whether it returns or throws. *)
Lemma invoke_keeps_loaded (c : call) (s : Scissors num) :
  loaded H W s ->
  match c with SetDimensions _ _ | SetData _ => False | _ => True end ->
  loaded H W (invoke c s).
Proof.
  intros Hs Hc. destruct c; try contradiction; cbn [invoke].
  - destruct Hs. constructor; assumption.
  - destruct Hs. constructor; assumption.
  - apply doTraining_keeps_loaded, Hs.
  - apply setPoint_keeps_loaded, Hs.
  - apply doWork_keeps_loaded, Hs.
Qed.

Lemma invoke_all_keeps_loaded (cs : list call) :
  forall s : Scissors num,
    loaded H W s ->
    Forall (fun c => match c with SetDimensions _ _ | SetData _ => False | _ => True end) cs ->
    loaded H W (invoke_all cs s).
Proof.
  induction cs as [|c cs IH]; intros s Hs Hcs; [exact Hs|].
  inversion Hcs; subst. apply IH; [apply invoke_keeps_loaded|]; assumption.
Qed.

End Sessions.

(** * The properties on test images *)

Section MoreOnStepEdge.
Import Float64 Examples MoreExamples.

Lemma step_edge_loads :
  (setDimensions 6 6;; setData step_edge) Scissors_new = (Ok tt, step_edge_loaded).
Proof. vm_compute; reflexivity. Qed.

(** The neighbours of (3, 2) on the step edge. *)
Lemma X1_adj_lists_the_neighbours_witness :
  image_size 6 6 step_edge_loaded /\
  exists l, adj step_edge_loaded (mkPoint 3 2) = Ok l /\ NoDup l /\ (length l <= 8)%nat /\
    forall q, q ∈ l <-> (in_image 6 6 q /\ adjacent (mkPoint 3 2) q).
Proof.
  assert (image_size 6 6 step_edge_loaded) as Hsz.
  { apply (setData_image_size step_edge (sized 6 6) step_edge_loaded).
    - vm_compute; reflexivity.
    - vm_compute; discriminate.
    - vm_compute; discriminate. }
  split; [exact Hsz|].
  apply (X1_adj_lists_the_neighbours 6 6 step_edge_loaded (mkPoint 3 2) Hsz).
Defined.

(** Two calls of [doWork] on the step edge. *)
Lemma X2_doWork_batches_are_bounded_witness :
  (setDimensions 6 6;; setData step_edge) Scissors_new = (Ok tt, step_edge_loaded) /\
  Forall (fun r => exists batch, r = Ok (Some batch) /\ (length batch <= 500)%nat)
    (fst (repeat_doWork 2 (snd (setPoint (mkPoint 3 2) step_edge_loaded)))).
Proof.
  pose proof step_edge_loads as Hload.
  split; [exact Hload|].
  apply (X2_doWork_batches_are_bounded 6 6 step_edge (mkPoint 3 2) step_edge_loaded 2 Hload).
  vm_compute; intuition congruence.
Defined.

(** The parents after two calls of [doWork] on the step edge. *)
Lemma X4_parents_link_visited_neighbours_witness :
  (setDimensions 6 6;; setData step_edge) Scissors_new = (Ok tt, step_edge_loaded) /\
  exists s1 rs s2,
    setPoint (mkPoint 3 2) step_edge_loaded = (Ok tt, s1) /\
    repeat_doWork 2 s1 = (rs, s2) /\
    Forall (fun r => exists batch, r = Ok (Some batch)) rs /\
    forall q p, cell (parents s2) q = Some p ->
      in_image 6 6 q /\ in_image 6 6 p /\ adjacent p q /\ is_visited s2 p.
Proof.
  pose proof step_edge_loads as Hload.
  split; [exact Hload|].
  apply (X4_parents_link_visited_neighbours 6 6 step_edge (mkPoint 3 2)
           step_edge_loaded 2 Hload).
  vm_compute; intuition congruence.
Defined.

(** The walk from (5, 5) after one call of [doWork] on the step edge. *)
Lemma X6_findTrainingPoints_walks_the_parents_witness :
  (setDimensions 6 6;; setData step_edge) Scissors_new = (Ok tt, step_edge_loaded) /\
  exists pts,
    findTrainingPoints
      (snd (repeat_doWork 1 (snd (setPoint (mkPoint 3 2) step_edge_loaded))))
      (Some (mkPoint 5 5)) = Ok pts /\
    (length pts <= 32)%nat /\ head pts = Some (mkPoint 5 5) /\
    Forall (in_image 6 6) pts /\
    linked (parents (snd (repeat_doWork 1 (snd (setPoint (mkPoint 3 2) step_edge_loaded)))))
      pts /\
    ((length pts < 32)%nat ->
     exists l, last pts = Some l /\
       cell (parents (snd (repeat_doWork 1 (snd (setPoint (mkPoint 3 2) step_edge_loaded)))))
         l = None).
Proof.
  pose proof step_edge_loads as Hload.
  split; [exact Hload|].
  apply (X6_findTrainingPoints_walks_the_parents 6 6 step_edge (mkPoint 3 2) (mkPoint 5 5)
           step_edge_loaded 1 Hload).
  - vm_compute; intuition congruence.
  - vm_compute; intuition congruence.
Defined.


(** The step edge loaded by an object that was trained. *)
Lemma X8_setData_on_a_trained_object_witness :
  setData step_edge step_edge_trained = (Ok tt, step_edge_reloaded) /\
  trained step_edge_trained = true /\
  trained step_edge_reloaded = true /\
  edgeTraining step_edge_reloaded = Some arr_empty /\
  gradTraining step_edge_reloaded = Some arr_empty /\
  insideTraining step_edge_reloaded = Some arr_empty /\
  outsideTraining step_edge_reloaded = Some arr_empty /\
  exists dir,
    Scissors_gradDirection step_edge_reloaded 3 2 4 3 = Ok dir /\
    dist step_edge_reloaded 3 2 4 3
    = Ok (ratio 3 10 ⊗ NaN
          ⊕ ratio 3 10 ⊗ ToNumber (cell (laplace step_edge_reloaded) (mkPoint 4 3))
          ⊕ ratio 1 10 ⊗ (dir ⊕ NaN ⊕ NaN ⊕ NaN)).
Proof.
  assert (setData step_edge step_edge_trained = (Ok tt, step_edge_reloaded)) as Hload
    by (vm_compute; reflexivity).
  split; [exact Hload|]. split; [reflexivity|].
  apply (X8_setData_on_a_trained_object step_edge step_edge_trained step_edge_reloaded
           (mkPoint 3 2) (mkPoint 4 3) Hload).
  - reflexivity.
  - vm_compute; intuition congruence.
  - vm_compute; intuition congruence.
Defined.

(** Training from (5, 5) after one call of [doWork] on the step edge. *)
Lemma X9_doTraining_during_a_search_witness :
  (setDimensions 6 6;; setData step_edge) Scissors_new = (Ok tt, step_edge_loaded) /\
  exists pts s3,
    findTrainingPoints
      (snd (repeat_doWork 1 (snd (setPoint (mkPoint 3 2) step_edge_loaded))))
      (Some (mkPoint 5 5)) = Ok pts /\
    doTraining (Some (mkPoint 5 5))
      (snd (repeat_doWork 1 (snd (setPoint (mkPoint 3 2) step_edge_loaded))))
    = (Ok tt, s3) /\
    trainingPoints s3 = Some pts /\
    trained s3 = (8 <=? Z.of_nat (length pts)).
Proof.
  pose proof step_edge_loads as Hload.
  split; [exact Hload|].
  destruct (X9_doTraining_during_a_search 6 6 step_edge (mkPoint 3 2) (mkPoint 5 5)
              step_edge_loaded 1 Hload)
    as (pts & s3 & Hpts & Hdo & Htp & Htr & _).
  - vm_compute; intuition congruence.
  - vm_compute; intuition congruence.
  - exists pts, s3. auto.
Defined.

(** The horizontal differences of the step edge. *)
Lemma X10_computeGradX_cells_witness :
  exists g gx : field float,
    computeGreyscale step_edge 6 6 = Ok g /\ computeGradX g = Ok gx /\
    forall x y, 0 <= y < 6 ->
      (0 <= x < 6 - 1 ->
       cell (Some gx) (mkPoint x y)
       = Some (grey_value step_edge 6 (x + 1) y ⊖ grey_value step_edge 6 x y)) /\
      cell (Some gx) (mkPoint (6 - 1) y) = cell (Some gx) (mkPoint (6 - 2) y).
Proof. apply (X10_computeGradX_cells step_edge 6 6); lia. Defined.

(** The vertical differences of the step edge. *)
Lemma X11_computeGradY_cells_witness :
  exists g : field float,
    computeGreyscale step_edge 6 6 = Ok g /\
    (6 = 1 -> computeGradY g = Throw TypeError) /\
    (2 <= 6 ->
     exists gy, computeGradY g = Ok gy /\
       forall x y, 0 <= x < 6 ->
         (0 <= y < 6 - 1 ->
          cell (Some gy) (mkPoint x y)
          = Some (grey_value step_edge 6 x y ⊖ grey_value step_edge 6 x (y + 1))) /\
         cell (Some gy) (mkPoint x (6 - 1)) = cell (Some gy) (mkPoint x (6 - 2))).
Proof. apply (X11_computeGradY_cells step_edge 6 6); lia. Defined.

(** A new object whose flag [working] is set. *)
Lemma X16_doWork_without_work_witness :
  working (snd (setWorking true (Scissors_new (num := float)))) = true /\
  doWork (snd (setWorking true (Scissors_new (num := float))))
  = (Throw TypeError,
     set_timeout (Some tt) (snd (setWorking true (Scissors_new (num := float))))).
Proof.
  split; [reflexivity|].
  apply (X16_doWork_without_work (snd (setWorking true (Scissors_new (num := float))))).
  - reflexivity.
  - reflexivity.
Defined.

End MoreOnStepEdge.

(** ** A trained object, a paused search and a new object *)

Section Revisited.
Import Float64 Levels Examples MoreExamples.
#[local] Set Warnings "-inexact-float".

Lemma ramp_loads :
  (setDimensions 12 12;; setData ramp) Scissors_new = (Ok tt, ramp_loaded).
Proof. vm_compute; reflexivity. Qed.

(** The trained object holds the image. *)
Lemma ramp_trained_loaded : loaded 12 12 ramp_trained.
Proof.
  unfold ramp_trained. apply invoke_all_keeps_loaded.
  - apply (loaded_new 12 12 ramp ramp_loaded ramp_loads); lia.
  - repeat constructor.
Qed.

Lemma ramp_trained_search_searching : searching 12 12 ramp_trained_search.
Proof.
  destruct (search_start 12 12 (mkPoint 1 1) ramp_trained ramp_trained_loaded)
    as (s1 & _ & _ & Hsp & Hs1 & _).
  - unfold in_image. cbn [px py]. lia.
  - unfold ramp_trained_search. rewrite Hsp. exact Hs1.
Qed.

(** The second search on the ramp, on the trained object: the relaxation
    of the edge from the seed (1, 1) to (2, 2) writes the cost and the parent
    of (2, 2). *)
Lemma C1_visited_and_relaxation_witness :
  searching 12 12 ramp_trained_search /\
  trained ramp_trained_search = true /\
  exists d s',
    dist ramp_trained_search 1 1 2 2 = Ok d /\
    relax (mkPoint 1 1) (mkPoint 2 2) ramp_trained_search = (Ok tt, s') /\
    visited s' = visited ramp_trained_search /\
    cell (cost ramp_trained_search) (mkPoint 2 2) = Some MAX_VALUE /\
    cell (cost s') (mkPoint 2 2) = Some (of_Z 0 ⊕ d) /\
    cell (parents s') (mkPoint 2 2) = Some (mkPoint 1 1).
Proof.
  split; [exact ramp_trained_search_searching|].
  split; [vm_compute; reflexivity|].
  destruct (C1_visited_and_relaxation 12 12 ramp_trained_search
              ramp_trained_search_searching) as [_ Hrelax].
  destruct (Hrelax (mkPoint 1 1) (mkPoint 2 2)) as (d & s' & Hd & Hr & Hv & Hif & _).
  - unfold in_image. cbn [px py]. lia.
  - unfold in_image. cbn [px py]. lia.
  - cbv zeta in Hif. cbn [px py] in Hd.
    assert (Ed : dist ramp_trained_search 1 1 2 2 = Ok 0.71733333333333338%float)
      by (vm_compute; reflexivity).
    assert (d = 0.71733333333333338%float) as -> by congruence.
    assert (Ep : cell (cost ramp_trained_search) (mkPoint 1 1) = Some (of_Z 0))
      by (vm_compute; reflexivity).
    assert (Eq : cell (cost ramp_trained_search) (mkPoint 2 2) = Some MAX_VALUE)
      by (vm_compute; reflexivity).
    rewrite Ep, Eq in Hif.
    assert (Et : (ToNumber (Some (of_Z 0)) ⊕ 0.71733333333333338%float
                  <# ToNumber (Some (MAX_VALUE (num := float)))) = true)
      by (vm_compute; reflexivity).
    rewrite Et in Hif. destruct Hif as (Hc & Hp & _).
    exists 0.71733333333333338%float, s'.
    split; [exact Ed|]. split; [exact Hr|]. split; [exact Hv|].
    split; [exact Eq|]. split; [exact Hc|exact Hp].
Defined.

(** The search on the trained object, from the seed (1, 1). *)
Lemma C10_seed_is_first_and_has_no_parent_witness :
  loaded 12 12 ramp_trained /\ trained ramp_trained = true /\
  exists s1,
    setPoint (mkPoint 1 1) ramp_trained = (Ok tt, s1) /\
    cell (parents s1) (mkPoint 1 1) = None /\
    exists batch s2,
      doWork s1 = (Ok (Some ((mkPoint 1 1, None) :: batch)), s2) /\
      Forall (fun e => is_Some (snd e)) batch /\
      forall n,
        Forall (fun r => exists b, r = Ok (Some b) /\ Forall (fun e => is_Some (snd e)) b)
          (fst (repeat_doWork n s2)).
Proof.
  split; [exact ramp_trained_loaded|]. split; [vm_compute; reflexivity|].
  apply (C10_seed_is_first_and_has_no_parent 12 12 (mkPoint 1 1) ramp_trained
           ramp_trained_loaded).
  unfold in_image. cbn [px py]. lia.
Defined.

(** The paused search on the step edge: three calls of [doWork], and
    [setPoint] with the seed (1, 1). *)
Lemma C8_paused_doWork_changes_nothing_witness :
  working step_edge_paused = false /\
  repeat_doWork 3 step_edge_paused = ([Ok None; Ok None; Ok None], step_edge_paused) /\
  cell (visited step_edge_paused) (mkPoint 3 2) = Some true /\
  exists s1 q,
    setPoint (mkPoint 1 1) step_edge_paused = (Ok tt, s1) /\
    working s1 = true /\
    visited s1 = Some (constant_matrix 6 6 false) /\
    parents s1 = Some (empty_rows 6) /\
    cell (cost s1) (mkPoint 1 1) = Some (of_Z 0) /\
    pq s1 = Some q /\ items q ≡ₚ [mkPoint 1 1].
Proof.
  assert (working step_edge_paused = false) as Hpaused by (vm_compute; reflexivity).
  split; [exact Hpaused|].
  destruct (C8_paused_doWork_changes_nothing step_edge_paused Hpaused)
    as (Hrep & _ & _ & _ & _ & Hreset).
  split; [apply (Hrep 3%nat)|]. split; [vm_compute; reflexivity|].
  assert (Ew : width step_edge_paused = 6) by (vm_compute; reflexivity).
  assert (Eh : height step_edge_paused = 6) by (vm_compute; reflexivity).
  destruct (Hreset (mkPoint 1 1)) as (s1 & q & row & Hsp & Hw & _ & Hv & Hp & Hrow & Hc & Hq & Hi).
  - vm_compute; reflexivity.
  - rewrite Ew, Eh. unfold in_image. cbn [px py]. lia.
  - rewrite ?Ew, ?Eh in Hv, Hp, Hc, Hrow.
    exists s1, q. repeat (split; [assumption|]).
    split; [|split; assumption].
    rewrite Hc.
    rewrite (cell_row _ (arr_put row 1 (Some (of_Z 0))) (mkPoint 1 1))
      by apply arr_get_put_eq.
    apply arr_get_put_eq.
Defined.

(** A new object, before and after [setDimensions(6, 6)], on the step
    edge. *)
Lemma C9_setData_and_dimensions_witness :
  setData step_edge Scissors_new
    = (Throw (Error "Dimensions have not been set."), Scissors_new) /\
  exists s0, (setDimensions 6 6;; setData step_edge) Scissors_new = (Ok tt, s0).
Proof.
  destruct (C9_setData_and_dimensions step_edge Scissors_new) as [Hunset Hset].
  split.
  - apply Hunset. left. reflexivity.
  - apply (Hset 6 6); [split; [lia|reflexivity]|split; [lia|reflexivity]|reflexivity| |].
    + apply (bool_decide_unpack _). vm_compute. exact I.
    + vm_compute. discriminate.
Defined.

(** The grey level of the pixel (4, 1) of the ramp. *)
Lemma X12_grey_levels_index_the_tables_witness :
  (setDimensions 12 12;; setData ramp) Scissors_new = (Ok tt, ramp_loaded) /\
  cell (greyscale ramp_loaded) (mkPoint 4 1) = Some 0.62745098039215685%float /\
  exists s i, 0 <= s <= 765 /\ 0.62745098039215685%float = grey s /\
    to_index (getTrainingIdx 256 0.62745098039215685%float) = Some i /\ 0 <= i <= 255.
Proof.
  assert (Hload : (setDimensions 12 12;; setData ramp) Scissors_new = (Ok tt, ramp_loaded))
    by (vm_compute; reflexivity).
  assert (Hv : cell (greyscale ramp_loaded) (mkPoint 4 1) = Some 0.62745098039215685%float)
    by (vm_compute; reflexivity).
  split; [exact Hload|]. split; [exact Hv|].
  apply (X12_grey_levels_index_the_tables 12 12 ramp ramp_loaded (greyscale ramp_loaded)
           (mkPoint 4 1) 0.62745098039215685%float).
  - lia.
  - lia.
  - exact Hload.
  - apply (bool_decide_unpack _). vm_compute. exact I.
  - vm_compute. discriminate.
  - left; reflexivity.
  - exact Hv.
Defined.

End Revisited.
